(** * diff.py: listing comparison and report of the unraid-backup tool

    A shallow embedding of [src/diff.py] and the properties of its
    comparison and reporting pipeline.

    Conventions of the embedding.
    - A Python [str] is a [string]: the bytes of its UTF-8 encoding.  Byte-wise
      order is code point order, and the separator ['/'] never occurs inside
      a multi-byte sequence, so comparison, [sorted], [split] and [in] are
      exact; [py_len] counts code points.
    - A Python [float] is a kernel binary64 [float]; an [int] is a [Z].
    - A [dict] is a [gmap], a [set] a [gset]; the order in which Python
      enumerates a set is a parameter of the comparator.
    - [print] appends one entry (the text of one call) to the output.
    - An exception is a value of [exn].
    - What the program asks of its environment is a parameter of the
      function that asks: the file system and the lines of standard input
      for [select_snapshot], [subprocess.run], [json.loads],
      [datetime.fromisoformat] and [str.strip] for the two [rclone]
      listings, [int] for the menu.  [main] is modelled from the parsed
      arguments and the two listings on. *)

From Stdlib Require Import ZArith Ascii String DecimalString Uint63.
From Stdlib Require Import Floats.PrimFloat Floats.FloatOps Floats.SpecFloat.
From Stdlib Require Import Floats.FloatAxioms.
From stdpp Require Import gmap strings list fin_maps sorting.

#[local] Set Warnings "-clear-no-such-hyp".

Open Scope string_scope.
Open Scope Z_scope.

(** ** Python strings *)

Module PyStr.

(** [str(n)] for an [int]. *)
Definition str_of_Z (n : Z) : string :=
  NilZero.string_of_int (Z.to_int n).

(** [c * n] for a one-character string. *)
Fixpoint repeat_char (c : ascii) (n : nat) : string :=
  match n with
  | O => EmptyString
  | S n' => String c (repeat_char c n')
  end.

(** A byte of the form 10xxxxxx continues a UTF-8 sequence. *)
Definition is_continuation (c : ascii) : bool :=
  let n := nat_of_ascii c in (128 <=? n)%nat && (n <? 192)%nat.

(** [len(s)]: the number of code points. *)
Fixpoint py_len (s : string) : nat :=
  match s with
  | EmptyString => O
  | String c r => if is_continuation c then py_len r else S (py_len r)
  end.

(** [f"{s:<w}"]: left-aligned in a field of width [w], never truncated. *)
Definition ljust (w : nat) (s : string) : string :=
  s +:+ repeat_char " " (w - py_len s).

(** [f"{n:0w}"] for a non-negative [int]. *)
Definition zfill (w : nat) (n : Z) : string :=
  let d := str_of_Z n in repeat_char "0" (w - String.length d) +:+ d.

(** [c in s] for a one-character [c]. *)
Fixpoint contains_char (c : ascii) (s : string) : bool :=
  match s with
  | EmptyString => false
  | String a r => if Ascii.eqb a c then true else contains_char c r
  end.

(** [s.split(sep)] for a one-character separator. *)
Fixpoint split (sep : ascii) (s : string) : list string :=
  match s with
  | EmptyString => [EmptyString]
  | String a r =>
      if Ascii.eqb a sep then EmptyString :: split sep r
      else match split sep r with
           | h :: t => String a h :: t
           | [] => [String a EmptyString]
           end
  end.

(** [s.startswith(c)], [s.endswith(c)]. *)
Definition startswith_char (c : ascii) (s : string) : bool :=
  match s with
  | String a _ => Ascii.eqb a c
  | EmptyString => false
  end.

Fixpoint endswith_char (c : ascii) (s : string) : bool :=
  match s with
  | EmptyString => false
  | String a EmptyString => Ascii.eqb a c
  | String _ r => endswith_char c r
  end.

(** [s.rstrip(c)]. *)
Fixpoint rstrip_char (c : ascii) (s : string) : string :=
  match s with
  | EmptyString => EmptyString
  | String a r =>
      match rstrip_char c r with
      | EmptyString => if Ascii.eqb a c then EmptyString else String a EmptyString
      | r' => String a r'
      end
  end.

(** [s[:s.rfind(c) + 1]]: up to and including the last [c], empty without one. *)
Fixpoint upto_last (c : ascii) (s : string) : string :=
  match s with
  | EmptyString => EmptyString
  | String a r =>
      if contains_char c r then String a (upto_last c r)
      else if Ascii.eqb a c then String a EmptyString
      else EmptyString
  end.

(** [', '.join(l)] and the like. *)
Fixpoint join (sep : string) (l : list string) : string :=
  match l with
  | [] => EmptyString
  | [x] => x
  | x :: r => x +:+ sep +:+ join sep r
  end.

(** The double quote, and the control characters of the report. *)
Definition dquote : string := String (ascii_of_nat 34) EmptyString.
Definition newline : string := String (ascii_of_nat 10) EmptyString.
Definition escape : string := String (ascii_of_nat 27) EmptyString.

(** [sorted(l)] on strings. *)
Definition sorted (l : list string) : list string :=
  merge_sort String.leb l.

End PyStr.

(** ** posixpath *)

Module PosixPath.
Import PyStr.

(** [os.path.join(a, b)]. *)
Definition join (a b : string) : string :=
  if startswith_char "/" b then b
  else if (String.eqb a EmptyString || endswith_char "/" a)%bool then a +:+ b
  else a +:+ "/" +:+ b.

(** [os.path.dirname(p)]. *)
Definition dirname (p : string) : string :=
  let head := upto_last "/" p in
  if (negb (String.eqb head EmptyString)
      && negb (String.eqb head (repeat_char "/" (String.length head))))%bool
  then rstrip_char "/" head
  else head.

End PosixPath.

(** ** Python floats *)

Module PyFloat.
Import PyStr.

(** [float(n)], correctly rounded: the kernel's conversion of a 63-bit
    integer where the magnitude is below 2^63, the rounding of [SpecFloat] beyond
    (the kernel's conversion is specified as that rounding). *)
Definition of_Z (n : Z) : float :=
  let a := Z.abs n in
  let x :=
    if a <? 9223372036854775808 then of_uint63 (Uint63.of_Z a)
    else SF2Prim (binary_normalize prec emax a 0 false) in
  if n <? 0 then (- x)%float else x.

(** [int(x)]: truncation towards zero.  Python raises for a NaN or an
    infinity; no float of this program is one, and the model gives 0. *)
Definition to_Z (x : float) : Z :=
  match Prim2SF x with
  | S754_finite s m e =>
      let a := if (0 <=? e) then Z.pos m * 2 ^ e else Z.pos m / 2 ^ (- e) in
      if s then - a else a
  | _ => 0
  end.

(** The integer nearest to [m * 2^e], ties to even. *)
Definition round_half_even (m e : Z) : Z :=
  if (0 <=? e) then m * 2 ^ e
  else
    let d := 2 ^ (- e) in
    let q := m / d in
    let r := m mod d in
    if (d <? 2 * r) then q + 1
    else if (2 * r =? d) && Z.odd q then q + 1
    else q.

(** [f"{x:.1f}"]: the decimal with one fractional digit nearest to the exact
    value of [x], ties to even. *)
Definition format_1f (x : float) : string :=
  match Prim2SF x with
  | S754_zero s => (if s then "-" else "") +:+ "0.0"
  | S754_infinity s => (if s then "-" else "") +:+ "inf"
  | S754_nan => "nan"
  | S754_finite s m e =>
      let t := round_half_even (10 * Z.pos m) e in
      (if s then "-" else "") +:+ str_of_Z (t / 10) +:+ "." +:+ str_of_Z (t mod 10)
  end.

End PyFloat.

(** ** datetime *)

Module Datetime.
Import PyStr.

(** A naive [datetime]; the listing drops the fraction of a second and the
    time zone, so [microsecond] is 0 and [tzinfo] is [None] throughout. *)
Record datetime := mk_datetime {
  year : Z; month : Z; day : Z; hour : Z; minute : Z; second : Z
}.

#[export] Instance datetime_eq_dec : EqDecision datetime.
Proof. solve_decision. Defined.

(** [a > b]: the fields compared in order. *)
Definition fields (a : datetime) : list Z :=
  [year a; month a; day a; hour a; minute a; second a].

Fixpoint lex_gtb (a b : list Z) : bool :=
  match a, b with
  | x :: a', y :: b' => if (y <? x) then true else if (x <? y) then false else lex_gtb a' b'
  | _ :: _, [] => true
  | [], _ => false
  end.

Definition gtb (a b : datetime) : bool := lex_gtb (fields a) (fields b).

Definition is_leap (y : Z) : bool :=
  (y mod 4 =? 0) && (negb (y mod 100 =? 0) || (y mod 400 =? 0)).

Definition days_before_year (y : Z) : Z :=
  let y1 := y - 1 in y1 * 365 + y1 / 4 - y1 / 100 + y1 / 400.

Definition DAYS_BEFORE_MONTH : list Z :=
  [-1; 0; 31; 59; 90; 120; 151; 181; 212; 243; 273; 304; 334].

Definition days_before_month (y m : Z) : Z :=
  default 0 (DAYS_BEFORE_MONTH !! Z.to_nat m)
  + (if (2 <? m) && is_leap y then 1 else 0).

Definition toordinal (a : datetime) : Z :=
  days_before_year (year a) + days_before_month (year a) (month a) + day a.

(** A [timedelta] of whole seconds: [days * 86400 + seconds]. *)
Definition timedelta := Z.

(** [a - b]. *)
Definition sub (a b : datetime) : timedelta :=
  (toordinal a - toordinal b) * 86400
  + ((second a + minute a * 60 + hour a * 3600)
     - (second b + minute b * 60 + hour b * 3600)).

(** [td.total_seconds()]. *)
Definition total_seconds (td : timedelta) : float := PyFloat.of_Z td.

(** [a.strftime('%Y%m%d%H%M.%S')] (four-digit years; glibc does not pad a
    year below 1000). *)
Definition strftime_touch (a : datetime) : string :=
  zfill 4 (year a) +:+ zfill 2 (month a) +:+ zfill 2 (day a)
  +:+ zfill 2 (hour a) +:+ zfill 2 (minute a) +:+ "." +:+ zfill 2 (second a).

End Datetime.

(** ** The program *)

Module Diff.
Import PyStr PyFloat Datetime.

(** *** Configuration *)

Definition NAS_BASE_PATH : string := "/mnt/user".
Definition COLDSTORAGE_USER : string := "byron".
Definition COLDSTORAGE_HOST : string := "coldstorage".
Definition SOURCE_PATH_CONFIG : string := "/mnt/backup".
Definition SOURCE_NAME : string := "coldstorage".
Definition DEST_NAME : string := "nas".

Module Colors.
Definition GREEN : string := escape +:+ "[92m".
Definition YELLOW : string := escape +:+ "[93m".
Definition RED : string := escape +:+ "[91m".
Definition CYAN : string := escape +:+ "[96m".
Definition BOLD : string := escape +:+ "[1m".
Definition RESET : string := escape +:+ "[0m".
End Colors.

(** *** human_readable_bytes *)

Definition power_labels : list string := [""; "K"; "M"; "G"; "T"].

(** The [while] loop of [human_readable_bytes]; [n < len(power_labels) - 1]
    stops it after at most four rounds, so four units of fuel are enough
    ([scale_complete]).  The first test and division are on the [int] in
    Python and on its [float] here: 1024 is a power of two, so the rounded
    quotient of the [int] is the quotient of the rounded [int]. *)
Fixpoint scale (fuel : nat) (size_bytes : float) (n : nat) : float * nat :=
  match fuel with
  | O => (size_bytes, n)
  | S fuel' =>
      if (1024 <=? size_bytes)%float && (n <? length power_labels - 1)%nat
      then scale fuel' (size_bytes / 1024)%float (S n)
      else (size_bytes, n)
  end.

(** [size_bytes] is [None] for Python's [None]. *)
Definition human_readable_bytes (size_bytes : option Z) : string :=
  match size_bytes with
  | None => "N/A"
  | Some s =>
      if s <? 0 then "N/A"
      else if s =? 0 then "0B"
      else
        let '(x, n) := scale (length power_labels - 1) (of_Z s) 0 in
        format_1f x +:+ default "" (power_labels !! n) +:+ "B"
  end.

(** *** human_readable_time *)

(** [f"{'s' if c else ''}"]. *)
Definition plural (c : bool) : string := if c then "s" else "".

Definition human_readable_time (time_diff : timedelta) : string :=
  let seconds := PrimFloat.abs (total_seconds time_diff) in
  if (seconds <? 60)%float then
    str_of_Z (to_Z seconds) +:+ " second" +:+ plural (negb (seconds =? 1)%float)
  else if (seconds <? 3600)%float then
    str_of_Z (to_Z (seconds / 60)%float) +:+ " minute"
    +:+ plural (negb (to_Z (seconds / 60)%float =? 1))
  else if (seconds <? 86400)%float then
    format_1f (seconds / 3600)%float +:+ " hour"
    +:+ plural (negb (seconds / 3600 =? 1)%float)
  else if (seconds <? 604800)%float then
    format_1f (seconds / 86400)%float +:+ " day"
    +:+ plural (negb (seconds / 86400 =? 1)%float)
  else
    let days := to_Z (seconds / 86400)%float in
    if days <? 30 then
      let weeks := days / 7 in
      let rem_days := days mod 7 in
      str_of_Z weeks +:+ " week" +:+ plural (negb (weeks =? 1)) +:+ ", "
      +:+ str_of_Z rem_days +:+ " day" +:+ plural (negb (rem_days =? 1))
    else if days <? 365 then
      let months := days / 30 in
      let rem_days := days mod 30 in
      let weeks := rem_days / 7 in
      str_of_Z months +:+ " month" +:+ plural (negb (months =? 1)) +:+ ", "
      +:+ str_of_Z weeks +:+ " week" +:+ plural (negb (weeks =? 1))
    else
      let years := days / 365 in
      let rem_days := days mod 365 in
      let months := rem_days / 30 in
      str_of_Z years +:+ " year" +:+ plural (negb (years =? 1)) +:+ ", "
      +:+ str_of_Z months +:+ " month" +:+ plural (negb (months =? 1)).

(** *** get_dir_key *)

(** [split] never returns an empty list, so [[0]] cannot raise and the
    second branch of the [match] is never taken. *)

Definition get_dir_key (path : string) : string :=
  if contains_char "/" path then
    match split "/" path with
    | first :: _ => first
    | [] => EmptyString
    end
  else "(root)".

(** *** Listings and change sets *)

(** One value of a listing: [{'size': ..., 'mod_time': ...}]. *)
Record file_info := mk_file_info { size : Z; mod_time : datetime }.

#[export] Instance file_info_eq_dec : EqDecision file_info.
Proof. solve_decision. Defined.

(** A listing: path to [file_info]. *)
Abbreviation file_map := (gmap string file_info).

(** [defaultdict(lambda: defaultdict(list))]: directory key, then kind,
    then the paths in the order they were appended. *)
Abbreviation bucket := (gmap string (list string)).
Abbreviation change_set := (gmap string (gmap string (list string))).

(** [changes[d][k]] read without creating anything: the list, empty when
    either key is missing. *)
Definition paths_of (changes : change_set) (d k : string) : list string :=
  default [] (default ∅ (changes !! d) !! k).

(** [changes[d][k].append(path)]: both levels are created when missing. *)
Definition append_change (changes : change_set) (d k path : string) : change_set :=
  let inner := default ∅ (changes !! d) in
  <[d := <[k := (default [] (inner !! k) ++ [path])%list]> inner]> changes.

(** *** compare_listings *)

Section Comparator.

(** The order in which a [for] loop enumerates a Python set. *)
Variable set_iter : gset string → list string.

(** The body of the third loop.  It runs over the paths of both listings,
    where [source_map[path]] and [dest_map[path]] cannot raise; the last
    branch stands for the [KeyError] that never happens there. *)
Definition compare_common (source_map dest_map : file_map)
    (changes : change_set) (path : string) : change_set :=
  match source_map !! path, dest_map !! path with
  | Some source_file, Some dest_file =>
      let dir_name := get_dir_key path in
      if negb (size source_file =? size dest_file) then
        append_change changes dir_name "size_changed" path
      else if negb (bool_decide (mod_time source_file = mod_time dest_file)) then
        if gtb (mod_time dest_file) (mod_time source_file) then
          append_change changes dir_name "nas_newer" path
        else
          append_change changes dir_name "cs_newer" path
      else changes
  | _, _ => changes
  end.

Definition compare_listings (source_map dest_map : file_map) : change_set :=
  let changes : change_set := ∅ in
  let source_paths : gset string := dom source_map in
  let dest_paths : gset string := dom dest_map in
  let changes :=
    foldl (λ changes path, append_change changes (get_dir_key path) "nas_only" path)
          changes (set_iter (dest_paths ∖ source_paths)) in
  let changes :=
    foldl (λ changes path, append_change changes (get_dir_key path) "cs_only" path)
          changes (set_iter (source_paths ∖ dest_paths)) in
  foldl (compare_common source_map dest_map)
        changes (set_iter (source_paths ∩ dest_paths)).

End Comparator.

(** *** Effects: the change set read by the report, output and exceptions *)

Inductive exn :=
| KeyError (key : string)
| SystemExit (code : Z).

(** [changes] is shared and mutable: reading [changes[d]] for a missing [d]
    stores an empty bucket under it. *)
Record world := mk_world {
  changes_of : change_set;
  stdout : list string;
  stderr : list string
}.

Definition M (A : Type) : Type := world → (exn + A) * world.

Definition ret {A} (a : A) : M A := λ w, (inr a, w).

Definition bind {A B} (m : M A) (k : A → M B) : M B :=
  λ w, match m w with
       | (inl e, w') => (inl e, w')
       | (inr a, w') => k a w'
       end.

#[export] Instance M_ret : MRet M := @ret.
#[export] Instance M_bind : MBind M := λ A B k m, bind m k.

Definition raise {A} (e : exn) : M A := λ w, (inl e, w).

Definition print (line : string) : M unit :=
  λ w, (inr tt, mk_world (changes_of w) (stdout w ++ [line])%list (stderr w)).

Definition print_err (line : string) : M unit :=
  λ w, (inr tt, mk_world (changes_of w) (stdout w) (stderr w ++ [line])%list).

Definition get_changes : M change_set := λ w, (inr (changes_of w), w).

(** [changes[d]] on the [defaultdict]. *)
Definition getitem (d : string) : M bucket :=
  λ w, match changes_of w !! d with
       | Some inner => (inr inner, w)
       | None => (inr ∅, mk_world (<[d := ∅]> (changes_of w)) (stdout w) (stderr w))
       end.

(** [m[path]['mod_time']] on a listing. *)
Definition mod_time_at (m : file_map) (path : string) : M datetime :=
  match m !! path with
  | Some f => ret (mod_time f)
  | None => raise (KeyError path)
  end.

(** [for x in l: body]. *)
Fixpoint for_each {A} (l : list A) (body : A → M unit) : M unit :=
  match l with
  | [] => ret tt
  | x :: l' => body x ;; for_each l' body
  end.

(** [if c: body]. *)
Definition when (c : bool) (body : M unit) : M unit :=
  if c then body else ret tt.

(** *** print_report *)

(** [sum(m.get(path, {}).get('size', 0) for d in changes for path in
    changes[d].get(kind, []))]; the sum does not depend on the order in which
    the directories are visited. *)
Definition total_size (changes : change_set) (m : file_map) (kind : string) : Z :=
  foldr Z.add 0
    (d_inner ← map_to_list changes;
     path ← default [] (d_inner.2 !! kind);
     [from_option size 0 (m !! path)]).

(** A row of the summary table. *)
Definition table_row (c0 c1 c2 c3 c4 c5 : string) : string :=
  ljust 25 c0 +:+ " | " +:+ ljust 12 c1 +:+ " | " +:+ ljust 12 c2 +:+ " | "
  +:+ ljust 12 c3 +:+ " | " +:+ ljust 12 c4 +:+ " | " +:+ ljust 12 c5.

(** [len(changes[dir_name].get(kind, []))], as the row prints it. *)
Definition count_cell (inner : bucket) (kind : string) : string :=
  str_of_Z (Z.of_nat (length (default [] (inner !! kind)))).

(** The two lines that copy one path. *)
Definition copy_commands (source_path_for_fix path : string) : M unit :=
  let source_full_path := PosixPath.join source_path_for_fix path in
  let dest_path := PosixPath.join NAS_BASE_PATH path in
  let dest_dir := PosixPath.dirname dest_path in
  print ("mkdir -p " +:+ dquote +:+ dest_dir +:+ dquote) ;;
  print ("scp " +:+ dquote +:+ COLDSTORAGE_USER +:+ "@" +:+ COLDSTORAGE_HOST +:+ ":"
         +:+ source_full_path +:+ dquote +:+ " " +:+ dquote +:+ dest_path +:+ dquote).

(** The line that retimes one path to the source's time. *)
Definition touch_command (source_map : file_map) (path : string) : M unit :=
  cs_time ← mod_time_at source_map path ;
  let touch_format := strftime_touch cs_time in
  let dest_path := PosixPath.join NAS_BASE_PATH path in
  print ("touch -t " +:+ touch_format +:+ " " +:+ dquote +:+ dest_path +:+ dquote).

(** The body of the loop over [sorted(changes.keys())] under [show_fix]. *)
Definition fix_commands_for (source_map : file_map) (source_path_for_fix : string)
    (dir_name : string) : M unit :=
  inner ← getitem dir_name ;
  let to_copy := default [] (inner !! "cs_only") in
  when (negb (bool_decide (to_copy = [])))
    (print (newline +:+ "# Copy NEW files for directory: " +:+ dir_name) ;;
     for_each to_copy (copy_commands source_path_for_fix)) ;;
  inner ← getitem dir_name ;
  let to_copy := default [] (inner !! "size_changed") in
  when (negb (bool_decide (to_copy = [])))
    (print (newline +:+ "# Copy changed files for directory: " +:+ dir_name) ;;
     for_each to_copy (copy_commands source_path_for_fix)) ;;
  inner ← getitem dir_name ;
  let to_touch := default [] (inner !! "cs_newer") in
  when (negb (bool_decide (to_touch = [])))
    (print (newline +:+ "# Update timestamps newer on coldstorage for directory: "
            +:+ dir_name) ;;
     for_each to_touch (touch_command source_map)) ;;
  inner ← getitem dir_name ;
  let to_touch := default [] (inner !! "nas_newer") in
  when (negb (bool_decide (to_touch = [])))
    (print (newline +:+ "# Update timestamps newer on nas for directory: " +:+ dir_name) ;;
     for_each to_touch (touch_command source_map)).

(** [detail_map]: key, title, color, symbol. *)
Definition detail_map (source_display_name dest_display_name : string)
    : list (string * string * string * string) :=
  [("nas_only", "Only on " +:+ dest_display_name, Colors.RED, "-");
   ("cs_only", "Only on " +:+ source_display_name, Colors.GREEN, "+");
   ("size_changed", "Size has changed", Colors.YELLOW, "*");
   ("nas_newer", "Date is newer on " +:+ dest_display_name, Colors.CYAN, "~");
   ("cs_newer", "Date is newer on " +:+ source_display_name, Colors.CYAN, "~")].

(** The line of one item of the detail listing. *)
Definition detail_item (source_map dest_map : file_map)
    (source_display_name dest_display_name key symbol item : string) : M unit :=
  details ←
    (if String.eqb key "size_changed" then
       let nas_size := human_readable_bytes (size <$> dest_map !! item) in
       let cs_size := human_readable_bytes (size <$> source_map !! item) in
       ret ("(" +:+ Colors.BOLD +:+ nas_size +:+ " on " +:+ dest_display_name +:+ ", "
            +:+ cs_size +:+ " on " +:+ source_display_name +:+ Colors.RESET +:+ ")")
     else if (String.eqb key "nas_newer" || String.eqb key "cs_newer")%bool then
       dest_time ← mod_time_at dest_map item ;
       source_time ← mod_time_at source_map item ;
       let time_diff := Z.abs (sub dest_time source_time) in
       let hr_diff := human_readable_time time_diff in
       let newer_on :=
         if String.eqb key "nas_newer" then dest_display_name else source_display_name in
       ret ("(" +:+ Colors.BOLD +:+ hr_diff +:+ " newer on " +:+ newer_on
            +:+ Colors.RESET +:+ ")")
     else ret "") ;
  print ("    " +:+ symbol +:+ " " +:+ item +:+ " " +:+ details).

(** The body of the loop over [detail_map]. *)
Definition detail_kind (source_map dest_map : file_map) (show_all : bool)
    (source_display_name dest_display_name dir_name : string)
    (entry : string * string * string * string) : M unit :=
  let '(key, title, color, symbol) := entry in
  inner ← getitem dir_name ;
  let items := default [] (inner !! key) in
  when (negb (bool_decide (items = [])))
    (print (color +:+ "  " +:+ title +:+ " (" +:+ str_of_Z (Z.of_nat (length items))
            +:+ "):" +:+ Colors.RESET) ;;
     for_each (if show_all then items else take 3 items)
       (detail_item source_map dest_map source_display_name dest_display_name key symbol) ;;
     when (negb show_all && (3 <? length items)%nat)
       (print ("    ... +" +:+ str_of_Z (Z.of_nat (length items) - 3) +:+ " more"))).

(** The body of the loop over [sorted(all_dirs_sorted)]. *)
Definition detail_directory (source_map dest_map : file_map) (show_all show_fix : bool)
    (source_path_for_fix source_display_name dest_display_name dir_name : string)
    : M unit :=
  inner ← getitem dir_name ;
  if bool_decide (inner = ∅) then ret tt
  else
    print (newline +:+ "Directory: " +:+ dir_name +:+ newline +:+ "------------------------") ;;
    if show_fix then
      print (newline +:+ "--- Fix Commands (to run on " +:+ dest_display_name
             +:+ " server) ---") ;;
      changes ← get_changes ;
      for_each (sorted (elements (dom changes)))
        (fix_commands_for source_map source_path_for_fix)
    else
      for_each (detail_map source_display_name dest_display_name)
        (detail_kind source_map dest_map show_all
           source_display_name dest_display_name dir_name).

(** The row of one directory in the summary table. *)
Definition summary_row (dir_name : string) : M unit :=
  inner ← getitem dir_name ; let nas_c := count_cell inner "nas_only" in
  inner ← getitem dir_name ; let cs_c := count_cell inner "cs_only" in
  inner ← getitem dir_name ; let sc_c := count_cell inner "size_changed" in
  inner ← getitem dir_name ; let nn_c := count_cell inner "nas_newer" in
  inner ← getitem dir_name ; let csn_c := count_cell inner "cs_newer" in
  print (table_row dir_name nas_c cs_c sc_c nn_c csn_c).

Definition print_report (source_map dest_map : file_map) (show_all show_fix : bool)
    (source_path_for_fix source_display_name dest_display_name : string) : M unit :=
  let all_source_dirs : gset string := set_map get_dir_key (dom source_map) in
  let all_dest_dirs : gset string := set_map get_dir_key (dom dest_map) in
  let all_dirs_sorted := sorted (elements (all_source_dirs ∪ all_dest_dirs)) in
  changes ← get_changes ;
  let total_nas_size := total_size changes dest_map "nas_only" in
  let total_cs_size := total_size changes source_map "cs_only" in
  print (newline +:+ "--- Summary of Differences ---") ;;
  let header :=
    table_row "Directory" (dest_display_name +:+ " only") (source_display_name +:+ " only")
      "Size Change" (dest_display_name +:+ " Newer") (source_display_name +:+ " Newer") in
  print header ;;
  print (repeat_char "-" (py_len header)) ;;
  for_each all_dirs_sorted summary_row ;;
  print (repeat_char "-" (py_len header)) ;;
  let total_nas_hr := human_readable_bytes (Some total_nas_size) in
  let total_cs_hr := human_readable_bytes (Some total_cs_size) in
  print (table_row "TOTAL SIZE" total_nas_hr total_cs_hr "" "" "") ;;
  changes ← get_changes ;
  if bool_decide (changes = ∅) then
    print (newline +:+ "No differences found.")
  else
    print (newline +:+ "--- Details of Differences ---") ;;
    for_each (sorted all_dirs_sorted)
      (detail_directory source_map dest_map show_all show_fix
         source_path_for_fix source_display_name dest_display_name).

(** *** main, from the two listings on *)

Record arguments := mk_arguments {
  tlds : list string;
  exclude : list string;
  show_all : bool;
  show_fix : bool
}.

(** The final set of top-level directories. *)
Definition tlds_to_process (args : arguments) (source_map_full dest_map_full : file_map)
    : gset string :=
  let tlds_to_process : gset string := list_to_set (tlds args) in
  let tlds_to_process : gset string :=
    if bool_decide (tlds_to_process = ∅) then
      list_to_set (get_dir_key <$> ((map_to_list source_map_full).*1
                                     ++ (map_to_list dest_map_full).*1)%list)
    else tlds_to_process in
  if bool_decide (exclude args = []) then tlds_to_process
  else tlds_to_process ∖ list_to_set (exclude args).

(** [{path: data for path, data in m.items() if get_dir_key(path) in keys}]. *)
Definition filter_map (keys : gset string) (m : file_map) : file_map :=
  filter (λ entry, get_dir_key entry.1 ∈ keys) m.

Section Main.

Variable set_iter : gset string → list string.

(** [main] after the two calls of [get_file_listing]; [mounted] is what
    [os.path.ismount(SOURCE_PATH_CONFIG)] answers, [source_path] and
    [source_display_name] are the configured ones or those of the chosen
    snapshot. *)
Definition main_from_listings (args : arguments) (mounted : bool)
    (source_path source_display_name : string)
    (source_map_full dest_map_full : file_map) : M unit :=
  when (negb (bool_decide (exclude args = [])))
    (print ("INFO: Excluding TLDs: " +:+ join ", " (exclude args))) ;;
  let keys := tlds_to_process args source_map_full dest_map_full in
  let source_map := filter_map keys source_map_full in
  let dest_map := filter_map keys dest_map_full in
  if negb mounted then
    print_err (Colors.RED +:+ "FATAL ERROR: Base path '" +:+ SOURCE_PATH_CONFIG
               +:+ "' is not mounted. Exiting." +:+ Colors.RESET) ;;
    raise (SystemExit 1)
  else
    let differences := compare_listings set_iter source_map dest_map in
    (λ w, print_report source_map dest_map (show_all args) (show_fix args)
            source_path source_display_name DEST_NAME
            (mk_world differences (stdout w) (stderr w))).

End Main.

(** Running a computation from an empty output. *)
Definition run {A} (m : M A) (changes : change_set) : (exn + A) * world :=
  m (mk_world changes [] []).

(** An enumeration order visits every element of the set exactly once. *)
Definition set_iteration (set_iter : gset string → list string) : Prop :=
  ∀ X, set_iter X ≡ₚ elements X.

End Diff.

(** ** select_snapshot *)

Module Snapshot.
Import PyStr Diff.

Definition SOURCE_SNAPSHOTS_PATH : string := "/mnt/backup/.snapshots".

(** What the file system answers: [os.path.isdir], and [os.listdir] with the
    names of the entries or the text of the [OSError]. *)
Record file_system := mk_file_system {
  isdir : string → bool;
  listdir : string → string + list string
}.

(** How [select_snapshot] ends: with its pair, with [sys.exit], or with the
    [EOFError] of [input] when the input has no more lines. *)
Inductive outcome :=
| Selected (selected_snap_path display_name : string)
| Exit (code : Z)
| EOFError.

(** What was written to standard output and to standard error. *)
Record console := mk_console { printed : list string; errors : list string }.

Section SelectSnapshot.

(** [int] on a [str]; [None] is its [ValueError]. *)
Variable int : string → option Z.

Definition prompt (snapshots : list string) : string :=
  "Enter number (1-" +:+ str_of_Z (Z.of_nat (length snapshots)) +:+ "): ".

Definition INVALID_NUMBER : string := "Invalid number, please try again.".
Definition INVALID_INPUT : string := "Invalid input, please enter a number from the list.".

(** The [while True] loop.  Every round reads a line; the loop ends with a
    valid choice, or with the input. *)
Fixpoint choose (snapshot_dir : string) (snapshots : list string)
    (stdin : list string) (printed : list string) : outcome * list string :=
  let printed := (printed ++ [prompt snapshots])%list in
  match stdin with
  | [] => (EOFError, printed)
  | choice :: stdin =>
      match int choice with
      | None => choose snapshot_dir snapshots stdin (printed ++ [INVALID_INPUT])%list
      | Some n =>
          let choice_index := n - 1 in
          if (0 <=? choice_index) && (choice_index <? Z.of_nat (length snapshots)) then
            match snapshots !! Z.to_nat choice_index with
            | Some selected_snap_name =>
                let selected_snap_path := PosixPath.join snapshot_dir selected_snap_name in
                let display_name := "snapshot(" +:+ selected_snap_name +:+ ")" in
                (Selected selected_snap_path display_name, printed)
            | None => choose snapshot_dir snapshots stdin (printed ++ [INVALID_INPUT])%list
            end
          else choose snapshot_dir snapshots stdin (printed ++ [INVALID_NUMBER])%list
      end
  end.

(** [sorted([d for d in os.listdir(snapshot_dir) if os.path.isdir(...)])]. *)
Definition snapshot_directories (fs : file_system) (snapshot_dir : string)
    (names : list string) : list string :=
  sorted (filter (λ d, isdir fs (PosixPath.join snapshot_dir d) = true) names).

(** The lines of the menu. *)
Fixpoint menu (i : Z) (snapshots : list string) : list string :=
  match snapshots with
  | [] => []
  | snap_name :: rest =>
      ("  " +:+ Colors.YELLOW +:+ str_of_Z (i + 1) +:+ Colors.RESET +:+ ") " +:+ snap_name)
      :: menu (i + 1) rest
  end.

Definition fatal (text : string) : outcome * console :=
  (Exit 1, mk_console [] [Colors.RED +:+ "FATAL ERROR: " +:+ text +:+ Colors.RESET]).

Definition select_snapshot (fs : file_system) (stdin : list string) : outcome * console :=
  let snapshot_dir := SOURCE_SNAPSHOTS_PATH in
  if negb (isdir fs snapshot_dir) then
    fatal ("Snapshot directory not found at '" +:+ snapshot_dir +:+ "'.")
  else
    match listdir fs snapshot_dir with
    | inl e => fatal ("Could not read snapshot directory: " +:+ e)
    | inr names =>
        let snapshots := snapshot_directories fs snapshot_dir names in
        if bool_decide (snapshots = []) then
          fatal ("No snapshots found in '" +:+ snapshot_dir +:+ "'.")
        else
          let printed :=
            (newline +:+ "Please select a snapshot to compare against:")
            :: menu 0 snapshots in
          let '(result, printed) := choose snapshot_dir snapshots stdin printed in
          (result, mk_console printed [])
    end.

End SelectSnapshot.

End Snapshot.

(** ** get_file_listing and get_tlds *)

Module Listing.
Import PyStr Datetime Diff.

(** One object of the array that [rclone lsjson] writes, which always has
    the keys [Path], [Size] and [ModTime]; [IsDir] is [None] when the object
    has no such key. *)
Record item := mk_item {
  Path : string;
  Size : Z;
  ModTime : string;
  IsDir : option bool
}.

(** What [subprocess.run] gives back. *)
Record process := mk_process {
  returncode : Z;
  stdout_text : string;
  stderr_text : string
}.

(** How a function ends when it does not return: with [sys.exit], or with
    the [ValueError] of [fromisoformat], which no [except] clause catches. *)
Inductive failure :=
| Exit (code : Z)
| ValueError.

(** [for pattern in excludes: command.extend(["--exclude", pattern])]. *)
Definition exclude_flags (excludes : list string) : list string :=
  excludes ≫= λ pattern, ["--exclude"; pattern].

(** [command] of [get_file_listing] and of [get_tlds]. *)
Definition lsjson_command (path : string) (excludes : list string) : list string :=
  (["rclone"; "lsjson"; "-R"; path] ++ exclude_flags excludes)%list.

Definition lsf_command (path : string) (excludes : list string) : list string :=
  (["rclone"; "lsf"; "--dirs-only"; path] ++ exclude_flags excludes)%list.

(** The line feed, [s.lstrip(c)] and [s.strip(c)]. *)
Definition LF : ascii := ascii_of_nat 10.

Fixpoint lstrip_char (c : ascii) (s : string) : string :=
  match s with
  | EmptyString => EmptyString
  | String a r => if Ascii.eqb a c then lstrip_char c r else s
  end.

Definition strip_char (c : ascii) (s : string) : string :=
  rstrip_char c (lstrip_char c s).

Section Rclone.

(** [subprocess.run] on a command. *)
Variable subprocess_run : list string → process.

(** [json.loads] on the output of [rclone lsjson]; [None] is its
    [JSONDecodeError]. *)
Variable json_loads : string → option (list item).

(** [datetime.fromisoformat] followed by the removal of [tzinfo]; [None] is
    its [ValueError].  The text it is given has no ['.'], and so no
    fraction of a second. *)
Variable fromisoformat : string → option datetime.

(** [s.strip()]. *)
Variable strip : string → string.

(** [item['ModTime'].split('.')[0]], parsed. *)
Definition mod_time_of (it : item) : option datetime :=
  match split "." (ModTime it) with
  | mod_time_str :: _ => fromisoformat mod_time_str
  | [] => None
  end.

(** The body of the loop over the objects. *)
Definition add_item (file_map : gmap string file_info) (it : item)
    : option (gmap string file_info) :=
  if negb (default false (IsDir it)) then
    dt_obj ← mod_time_of it;
    Some (<[Path it := mk_file_info (Size it) dt_obj]> file_map)
  else Some file_map.

(** The loop: it stops at the first [ValueError]. *)
Fixpoint add_items (file_map : gmap string file_info) (items : list item)
    : option (gmap string file_info) :=
  match items with
  | [] => Some file_map
  | it :: items => file_map ← add_item file_map it; add_items file_map items
  end.

(** The result, what was printed, and what was written to standard error. *)
Definition get_file_listing (path name : string) (excludes : list string)
    : (failure + file_map) * list string * list string :=
  let command := lsjson_command path excludes in
  let printed :=
    ["INFO: Getting file list from " +:+ name +:+ " (" +:+ path
     +:+ ")... This may take a moment."] in
  let proc := subprocess_run command in
  if negb (returncode proc =? 0) then
    (inl (Exit 1), printed,
     [Colors.RED +:+ "FATAL ERROR: rclone failed to list '" +:+ path +:+ "'."
      +:+ Colors.RESET; stderr_text proc])
  else
    match json_loads (stdout_text proc) with
    | None =>
        (inl (Exit 1), printed,
         [Colors.RED +:+ "FATAL ERROR: Could not parse file list from '" +:+ path
          +:+ "'." +:+ Colors.RESET])
    | Some items =>
        match add_items ∅ items with
        | None => (inl ValueError, printed, [])
        | Some file_map =>
            (inr file_map,
             (printed ++ ["INFO: Found " +:+ str_of_Z (Z.of_nat (stdpp.base.size file_map))
                          +:+ " files in " +:+ name +:+ "."])%list,
             [])
        end
    end.

Definition get_tlds (path name : string) (excludes : list string)
    : (failure + list string) * list string * list string :=
  let command := lsf_command path excludes in
  let printed :=
    ["INFO: Getting TLD list from " +:+ name +:+ " (" +:+ path +:+ ")..."] in
  let proc := subprocess_run command in
  if negb (returncode proc =? 0) then
    (inl (Exit 1), printed,
     [Colors.RED +:+ "FATAL ERROR: rclone failed to list TLDs for '" +:+ path +:+ "'."
      +:+ Colors.RESET; stderr_text proc])
  else
    (inr (strip_char "/"
            <$> filter (λ d, d ≠ EmptyString) (split LF (strip (stdout_text proc)))),
     printed, []).

End Rclone.

End Listing.

(** ** Listings used as examples *)

Module Scenario.
Import Datetime Diff.

Definition T : datetime := mk_datetime 2024 1 2 3 4 5.
Definition T_later : datetime := mk_datetime 2024 1 2 3 4 6.

(** The scenario of section 8 of the specification. *)
Definition source : file_map :=
  list_to_map [("foo/a.txt", mk_file_info 100 T)].
Definition dest : file_map :=
  list_to_map [("foo/a.txt", mk_file_info 200 T); ("bar/z.txt", mk_file_info 5 T)].

(** One path with a later time on the destination, one with a later time on
    the source, one identical on both sides, one without a separator. *)
Definition timed_source : file_map :=
  list_to_map [("m/new_on_dest", mk_file_info 7 T);
               ("m/new_on_source", mk_file_info 7 T_later);
               ("m/same", mk_file_info 7 T);
               ("top", mk_file_info 1 T)].
Definition timed_dest : file_map :=
  list_to_map [("m/new_on_dest", mk_file_info 7 T_later);
               ("m/new_on_source", mk_file_info 7 T);
               ("m/same", mk_file_info 7 T);
               ("/abs", mk_file_info 2 T)].

(** Two identical listings of one file. *)
Definition same : file_map :=
  list_to_map [("foo/a.txt", mk_file_info 100 T)].

(** Two directories that exist on the source only. *)
Definition two_dirs : file_map :=
  list_to_map [("a/x", mk_file_info 1 T); ("b/y", mk_file_info 2 T)].

(** The arguments of a run without options, and with [--show-fix]. *)
Definition plain : arguments := mk_arguments [] [] false false.
Definition with_fix : arguments := mk_arguments [] [] false true.

(** What a run prints on standard output, sets enumerated as [elements] does. *)
Definition stdout_of (args : arguments) (source_map_full dest_map_full : file_map)
    : list string :=
  stdout (run (main_from_listings elements args true SOURCE_PATH_CONFIG SOURCE_NAME
                 source_map_full dest_map_full) ∅).2.

End Scenario.

(** ** Vocabulary of the properties *)

Module Spec.
Import PyStr PyFloat Datetime Diff.

(** The kind the third loop gives a path of both listings, if any. *)
Definition common_kind (source_map dest_map : file_map) (path : string) : option string :=
  match source_map !! path, dest_map !! path with
  | Some source_file, Some dest_file =>
      if negb (size source_file =? size dest_file) then Some "size_changed"
      else if negb (bool_decide (mod_time source_file = mod_time dest_file)) then
        if gtb (mod_time dest_file) (mod_time source_file) then Some "nas_newer"
        else Some "cs_newer"
      else None
  | _, _ => None
  end.

(** The kind the comparator gives a path, if any. *)
Definition kind_of (source_map dest_map : file_map) (path : string) : option string :=
  match source_map !! path, dest_map !! path with
  | None, None => None
  | None, Some _ => Some "nas_only"
  | Some _, None => Some "cs_only"
  | Some _, Some _ => common_kind source_map dest_map path
  end.

(** One step of a loop that appends some paths and skips the others. *)
Definition append_if (f : string → option (string * string))
    (changes : change_set) (path : string) : change_set :=
  match f path with
  | Some (d, k) => append_change changes d k path
  | None => changes
  end.

(** The directory keys of the paths of either listing. *)
Definition all_dir_keys (source_map_full dest_map_full : file_map) : gset string :=
  set_map get_dir_key (dom source_map_full ∪ dom dest_map_full).

(** The division by 1024 applied [n] times. *)
Definition scaled (x : float) (n : nat) : float :=
  Nat.iter n (λ y, (y / 1024)%float) x.

(** A test on every integer of [lo .. lo + 2^k - 1]. *)
Fixpoint forall_range (f : Z → bool) (k : nat) (lo : Z) : bool :=
  match k with
  | O => f lo
  | S k' => forall_range f k' lo && forall_range f k' (lo + 2 ^ Z.of_nat k')
  end.

(** What the float tests and conversions of [human_readable_time] give for a
    difference of [td] whole seconds below a week. *)
Definition time_facts (td : Z) : bool :=
  let s := Z.abs td in
  if 604800 <=? s then true
  else
    let seconds := PrimFloat.abs (total_seconds td) in
    if s <? 60 then
      (seconds <? 60)%float && (to_Z seconds =? s)
      && Bool.eqb (seconds =? 1)%float (s =? 1)
    else if s <? 3600 then
      negb (seconds <? 60)%float && (seconds <? 3600)%float
      && (to_Z (seconds / 60)%float =? s / 60)
    else if s <? 86400 then
      negb (seconds <? 60)%float && negb (seconds <? 3600)%float
      && (seconds <? 86400)%float
      && Bool.eqb (seconds / 3600 =? 1)%float (s =? 3600)
    else
      negb (seconds <? 60)%float && negb (seconds <? 3600)%float
      && negb (seconds <? 86400)%float && (seconds <? 604800)%float
      && Bool.eqb (seconds / 86400 =? 1)%float (s =? 86400).

(** A change set in which no stored bucket holds a kind. *)
Definition all_empty (changes : change_set) : Prop :=
  ∀ d inner, changes !! d = Some inner → inner = ∅.

(** What reading [changes[d]] leaves behind when [d] has no divergence. *)
Definition read_key (changes : change_set) (d : string) : change_set :=
  <[d := ∅]> changes.

(** [all_dirs_sorted] of [print_report]. *)
Definition all_dirs_sorted (source_map dest_map : file_map) : list string :=
  sorted (elements (set_map get_dir_key (dom source_map)
                    ∪ set_map get_dir_key (dom dest_map) : gset string)).

(** The five kinds of divergence. *)
Definition KINDS : list string :=
  ["nas_only"; "cs_only"; "size_changed"; "nas_newer"; "cs_newer"].

(** A change set that stores no empty bucket, no empty list and no kind
    but the five. *)
Definition populated (changes : change_set) : Prop :=
  ∀ d inner, changes !! d = Some inner →
    inner ≠ ∅ ∧ ∀ k l, inner !! k = Some l → k ∈ KINDS ∧ l ≠ [].

(** The kind a divergence has when source and destination change roles. *)
Definition swap_kind (k : string) : string :=
  if String.eqb k "nas_only" then "cs_only"
  else if String.eqb k "cs_only" then "nas_only"
  else if String.eqb k "nas_newer" then "cs_newer"
  else if String.eqb k "cs_newer" then "nas_newer"
  else k.

(** A bucket whose [cs_newer] and [nas_newer] paths are in both listings. *)
Definition timed_known (source_map dest_map : file_map) (inner : bucket) : Prop :=
  ∀ k p, k = "cs_newer" ∨ k = "nas_newer" → p ∈ default [] (inner !! k) →
         is_Some (source_map !! p) ∧ is_Some (dest_map !! p).

(** A change set all of whose buckets are such. *)
Definition consistent (source_map dest_map : file_map) (changes : change_set) : Prop :=
  ∀ d inner, changes !! d = Some inner → timed_known source_map dest_map inner.

(** From a world whose change set satisfies [I], the computation returns a
    value that satisfies [Q], raises nothing and keeps [I]. *)
Definition returns {A} (I : change_set → Prop) (m : M A) (Q : A → Prop) : Prop :=
  ∀ w, I (changes_of w) → ∃ a w', m w = (inr a, w') ∧ I (changes_of w') ∧ Q a.

(** The sizes a listing records for some paths, added up. *)
Definition sum_sizes (m : file_map) (paths : list string) : Z :=
  foldr Z.add 0 ((λ p, from_option size 0 (m !! p)) <$> paths).

(** The paths of one kind, over all directories. *)
Definition paths_of_kind (changes : change_set) (kind : string) : list string :=
  map_to_list changes ≫= λ d_inner, default [] (d_inner.2 !! kind).

(** The change set after [changes[d]] was read: an empty bucket is stored
    when [d] was missing. *)
Definition ensure (changes : change_set) (d : string) : change_set :=
  match changes !! d with
  | Some _ => changes
  | None => <[d := ∅]> changes
  end.

(** A cell and a row of the summary table. *)
Definition count_of (changes : change_set) (d k : string) : string :=
  str_of_Z (Z.of_nat (length (paths_of changes d k))).

Definition summary_line (changes : change_set) (d : string) : string :=
  table_row d (count_of changes d "nas_only") (count_of changes d "cs_only")
    (count_of changes d "size_changed") (count_of changes d "nas_newer")
    (count_of changes d "cs_newer").

(** A computation that only adds to what was printed. *)
Definition appends {A} (m : M A) : Prop :=
  ∀ w, ∃ extra, stdout (m w).2 = (stdout w ++ extra)%list.

(** A line that selects one of [count] snapshots. *)
Definition valid_choice (int : string → option Z) (count : nat) (line : string) : Prop :=
  ∃ n, int line = Some n ∧ 1 ≤ n ≤ Z.of_nat count.

(** What a rejected line makes the loop print. *)
Definition rejection (int : string → option Z) (line : string) : string :=
  match int line with
  | Some _ => Snapshot.INVALID_NUMBER
  | None => Snapshot.INVALID_INPUT
  end.


(** An object that is not a directory. *)
Definition is_file (it : Listing.item) : Prop :=
  default false (Listing.IsDir it) = false.

(** Two objects that differ at most in what follows the first ['.'] of
    their time. *)
Definition same_to_the_second (a b : Listing.item) : Prop :=
  Listing.Path a = Listing.Path b ∧ Listing.Size a = Listing.Size b
  ∧ Listing.IsDir a = Listing.IsDir b
  ∧ head (split "." (Listing.ModTime a)) = head (split "." (Listing.ModTime b)).

(** A file system in which [select_snapshot] finds no snapshot. *)
Definition no_snapshots (fs : Snapshot.file_system) : Prop :=
  Snapshot.isdir fs Snapshot.SOURCE_SNAPSHOTS_PATH = false
  ∨ (∃ e, Snapshot.listdir fs Snapshot.SOURCE_SNAPSHOTS_PATH = inl e)
  ∨ (∃ names, Snapshot.listdir fs Snapshot.SOURCE_SNAPSHOTS_PATH = inr names
              ∧ ∀ name, name ∈ names →
                  Snapshot.isdir fs (PosixPath.join Snapshot.SOURCE_SNAPSHOTS_PATH name)
                  = false).

(** A computation that, from the change set [changes], returns [a], leaves
    the change set as it is and prints [lines], whatever was printed
    before. *)
Definition emits {A} (changes : change_set) (m : M A) (a : A) (lines : list string) : Prop :=
  ∀ out err, m (mk_world changes out err) = (inr a, mk_world changes (out ++ lines) err).

(** The line of an item of the detail listing, up to its details. *)
Definition item_line (symbol item line : string) : Prop :=
  ∃ details, line = "    " +:+ symbol +:+ " " +:+ item +:+ " " +:+ details.

(** The header of a directory in the detail section, and the title of the
    fix commands. *)
Definition directory_header (dir_name : string) : string :=
  newline +:+ "Directory: " +:+ dir_name +:+ newline +:+ "------------------------".

Definition fix_title (dest_display_name : string) : string :=
  newline +:+ "--- Fix Commands (to run on " +:+ dest_display_name +:+ " server) ---".

End Spec.

(** ** Parsers and inputs used as examples *)

Module Examples.
Import PyStr Datetime Diff.

(** Plain decimal numerals, the part of Python's [int] the examples use. *)
Definition digit_of (c : ascii) : option Z :=
  let n := Z.of_nat (nat_of_ascii c) in
  if (48 <=? n) && (n <=? 57) then Some (n - 48) else None.

Fixpoint decimal_from (acc : Z) (s : string) : option Z :=
  match s with
  | EmptyString => Some acc
  | String c r =>
      match digit_of c with
      | Some d => decimal_from (10 * acc + d) r
      | None => None
      end
  end.

Definition decimal (s : string) : option Z :=
  match s with
  | EmptyString => None
  | _ => decimal_from 0 s
  end.

(** Times written as [YYYY-MM-DDTHH:MM:SS], the part of
    [datetime.fromisoformat] the examples use. *)
Definition iso_seconds (s : string) : option datetime :=
  if (String.length s =? 19)%nat then
    y ← decimal (substring 0 4 s); mo ← decimal (substring 5 2 s);
    d ← decimal (substring 8 2 s); h ← decimal (substring 11 2 s);
    mi ← decimal (substring 14 2 s); se ← decimal (substring 17 2 s);
    Some (mk_datetime y mo d h mi se)
  else None.


(** A snapshot directory without snapshots. *)
Definition empty_fs : Snapshot.file_system :=
  Snapshot.mk_file_system (λ path, String.eqb path "/mnt/backup/.snapshots") (λ _, inr []).

(** Objects as [rclone lsjson] writes them, and the same objects a fraction
    of a second later. *)
Definition objects : list Listing.item :=
  [ Listing.mk_item "foo" (-1) "2024-01-02T03:04:05.5Z" (Some true);
    Listing.mk_item "foo/a.txt" 100 "2024-01-02T03:04:05.123456789Z" (Some false);
    Listing.mk_item "foo/a.txt" 200 "2024-01-02T03:04:06.000000000+01:00" None ].
Definition objects_later : list Listing.item :=
  [ Listing.mk_item "foo" (-1) "2024-01-02T03:04:05.75Z" (Some true);
    Listing.mk_item "foo/a.txt" 100 "2024-01-02T03:04:05.999Z" (Some false);
    Listing.mk_item "foo/a.txt" 200 "2024-01-02T03:04:06.25+01:00" None ].

(** An object whose time has no fraction and keeps its zone, which
    [iso_seconds] does not read. *)
Definition objects_with_zone : list Listing.item :=
  [ Listing.mk_item "foo/a.txt" 100 "2024-01-02T03:04:05Z" (Some false) ].

(** A stand-in for [rclone] that succeeds and answers with the location it
    was asked to list, and one for [json.loads] that reads such an answer. *)
Definition rclone (command : list string) : Listing.process :=
  Listing.mk_process 0 (default "" (command !! 3%nat)) "".

Definition loads (text : string) : option (list Listing.item) :=
  if String.eqb text "/mnt/backup" then Some objects
  else if String.eqb text "NAS-ssh:/mnt/user" then Some objects_later
  else if String.eqb text "zoned" then Some objects_with_zone
  else None.

(** A stand-in for [rclone lsf]: three directories and an empty line. *)
Definition rclone_lsf (command : list string) : Listing.process :=
  Listing.mk_process 0
    ("MEDIA/" +:+ newline +:+ "ISOs/" +:+ newline +:+ newline +:+ "/") "".

End Examples.

(** * Properties *)

Import PyStr PyFloat Datetime Diff Spec.

(** ** The comparator *)

Lemma paths_of_append changes d k path d' k' :
  paths_of (append_change changes d k path) d' k'
  = if decide (d = d' ∧ k = k') then (paths_of changes d k ++ [path])%list
    else paths_of changes d' k'.
Proof.
  unfold paths_of, append_change.
  destruct (decide (d = d')) as [<-|Hd].
  - rewrite lookup_insert_eq. simpl.
    destruct (decide (k = k')) as [<-|Hk].
    + rewrite lookup_insert_eq. simpl.
      destruct (decide _) as [_|[]]; done.
    + rewrite lookup_insert_ne by done.
      destruct (decide _) as [[_ ?]|_]; done.
  - rewrite lookup_insert_ne by done.
    destruct (decide _) as [[? _]|_]; done.
Qed.

Lemma paths_of_empty d k : paths_of ∅ d k = [].
Proof. unfold paths_of. by rewrite lookup_empty. Qed.

Lemma paths_of_append_if f l changes d k :
  paths_of (foldl (append_if f) changes l) d k
  = (paths_of changes d k ++ filter (λ p, f p = Some (d, k)) l)%list.
Proof.
  revert changes. induction l as [|p l IH]; intros changes; simpl.
  - by rewrite app_nil_r.
  - rewrite IH. unfold append_if. rewrite filter_cons.
    destruct (f p) as [[d0 k0]|] eqn:Hf.
    + rewrite paths_of_append.
      destruct (decide (d0 = d ∧ k0 = k)) as [[-> ->]|Hne].
      * rewrite decide_True by done. by rewrite <- app_assoc.
      * rewrite decide_False; [done|]. intros [= -> ->]. by apply Hne.
    + by rewrite decide_False.
Qed.

Lemma compare_common_append_if source_map dest_map changes path :
  compare_common source_map dest_map changes path
  = append_if (λ p, (λ k, (get_dir_key p, k)) <$> common_kind source_map dest_map p)
              changes path.
Proof.
  unfold compare_common, append_if, common_kind.
  destruct (source_map !! path) as [sf|]; [|done].
  destruct (dest_map !! path) as [df|]; [|done].
  destruct (negb (size sf =? size df)); [done|].
  destruct (negb (bool_decide (mod_time sf = mod_time df))); [|done].
  by destruct (gtb (mod_time df) (mod_time sf)).
Qed.

Lemma foldl_compare_common source_map dest_map l changes :
  foldl (compare_common source_map dest_map) changes l
  = foldl (append_if (λ p, (λ k, (get_dir_key p, k)) <$> common_kind source_map dest_map p))
          changes l.
Proof.
  revert changes. induction l as [|p l IH]; intros changes; simpl; [done|].
  by rewrite IH, compare_common_append_if.
Qed.

(** The bucket of a directory and kind, as the three loops fill it. *)
Lemma compare_listings_paths set_iter source_map dest_map d k :
  paths_of (compare_listings set_iter source_map dest_map) d k
  = (filter (λ p, Some (get_dir_key p, "nas_only") = Some (d, k))
            (set_iter (dom dest_map ∖ dom source_map))
     ++ filter (λ p, Some (get_dir_key p, "cs_only") = Some (d, k))
               (set_iter (dom source_map ∖ dom dest_map))
     ++ filter (λ p, (λ k, (get_dir_key p, k)) <$> common_kind source_map dest_map p
                     = Some (d, k))
               (set_iter (dom source_map ∩ dom dest_map)))%list.
Proof.
  unfold compare_listings.
  rewrite foldl_compare_common, paths_of_append_if.
  change (foldl (λ changes path, append_change changes (get_dir_key path) "cs_only" path))
    with (foldl (append_if (λ p, Some (get_dir_key p, "cs_only")))).
  rewrite paths_of_append_if.
  change (foldl (λ changes path, append_change changes (get_dir_key path) "nas_only" path))
    with (foldl (append_if (λ p, Some (get_dir_key p, "nas_only")))).
  rewrite paths_of_append_if, paths_of_empty. simpl.
  by rewrite <- app_assoc.
Qed.

Lemma set_iteration_elem_of set_iter (X : gset string) p :
  set_iteration set_iter → p ∈ set_iter X ↔ p ∈ X.
Proof. intros H. rewrite (H X). apply elem_of_elements. Qed.

Lemma set_iteration_NoDup set_iter (X : gset string) :
  set_iteration set_iter → NoDup (set_iter X).
Proof. intros H. rewrite (H X). apply NoDup_elements. Qed.

(** A path is in a bucket exactly when the bucket is that of its directory
    key and of its kind. *)
Lemma elem_of_compare_listings set_iter source_map dest_map d k p :
  set_iteration set_iter →
  p ∈ paths_of (compare_listings set_iter source_map dest_map) d k
  ↔ d = get_dir_key p ∧ kind_of source_map dest_map p = Some k.
Proof.
  intros Hit. rewrite compare_listings_paths, !elem_of_app, !list_elem_of_filter.
  rewrite !(set_iteration_elem_of set_iter) by done.
  rewrite elem_of_difference, elem_of_difference, elem_of_intersection.
  rewrite !elem_of_dom, <- !eq_None_not_Some.
  unfold kind_of.
  destruct (source_map !! p) as [sf|] eqn:Hs, (dest_map !! p) as [df|] eqn:Hd.
  - split.
    + intros [[_ [_ [=]]]|[[_ [_ [=]]]|[Hk _]]].
      destruct (common_kind source_map dest_map p); simplify_eq/=. done.
    + intros [-> ->]. right; right. split; [done|]. split; by eexists.
  - split.
    + intros [[_ [[? [=]] _]]|[[[= <- <-] _]|[_ [_ [? [=]]]]]]. done.
    + intros [-> [= <-]]. right; left. split; [done|]. split; [by eexists|done].
  - split.
    + intros [[[= <- <-] _]|[[_ [[? [=]] _]]|[_ [[? [=]] _]]]]. done.
    + intros [-> [= <-]]. left. split; [done|]. split; [by eexists|done].
  - split.
    + intros [[_ [[? [=]] _]]|[[_ [[? [=]] _]]|[_ [[? [=]] _]]]].
    + intros [_ [=]].
Qed.

(** No bucket lists a path twice. *)
Lemma NoDup_compare_listings set_iter source_map dest_map d k :
  set_iteration set_iter →
  NoDup (paths_of (compare_listings set_iter source_map dest_map) d k).
Proof.
  intros Hit. rewrite compare_listings_paths.
  rewrite !NoDup_app. repeat split.
  - by apply NoDup_filter, set_iteration_NoDup.
  - intros p. rewrite elem_of_app, !list_elem_of_filter.
    rewrite !(set_iteration_elem_of set_iter) by done. set_solver.
  - by apply NoDup_filter, set_iteration_NoDup.
  - intros p. rewrite !list_elem_of_filter.
    rewrite !(set_iteration_elem_of set_iter) by done. set_solver.
  - by apply NoDup_filter, set_iteration_NoDup.
Qed.

(** [>] on datetimes is a strict total order. *)
Lemma lex_gtb_irrefl a : lex_gtb a a = false.
Proof. induction a as [|x a IH]; simpl; [done|]. by rewrite Z.ltb_irrefl. Qed.

Lemma lex_gtb_connex a b :
  length a = length b → a ≠ b → lex_gtb a b = negb (lex_gtb b a).
Proof.
  revert b. induction a as [|x a IH]; intros [|y b] Hlen Hne; simplify_eq/=.
  destruct (Z.ltb_spec y x), (Z.ltb_spec x y); try done; try lia.
  apply IH; [done|]. intros ->. apply Hne. f_equal. lia.
Qed.

Lemma gtb_irrefl a : gtb a a = false.
Proof. apply lex_gtb_irrefl. Qed.

Lemma gtb_connex a b : a ≠ b → gtb a b = negb (gtb b a).
Proof.
  intros Hne. apply lex_gtb_connex; [done|].
  destruct a, b. unfold fields. simpl. intros [= -> -> -> -> -> ->]. done.
Qed.

Lemma common_kind_size source_map dest_map path sf df :
  source_map !! path = Some sf → dest_map !! path = Some df →
  size sf ≠ size df →
  kind_of source_map dest_map path = Some "size_changed".
Proof.
  intros Hs Hd Hne. unfold kind_of, common_kind. rewrite Hs, Hd.
  destruct (Z.eqb_spec (size sf) (size df)); done.
Qed.

Lemma common_kind_time source_map dest_map path sf df :
  source_map !! path = Some sf → dest_map !! path = Some df →
  size sf = size df →
  kind_of source_map dest_map path
  = if decide (mod_time sf = mod_time df) then None
    else if gtb (mod_time df) (mod_time sf) then Some "nas_newer" else Some "cs_newer".
Proof.
  intros Hs Hd Heq. unfold kind_of, common_kind. rewrite Hs, Hd.
  rewrite Heq, Z.eqb_refl. simpl.
  destruct (decide (mod_time sf = mod_time df)).
  - by rewrite bool_decide_eq_true_2.
  - by rewrite bool_decide_eq_false_2.
Qed.

(** C1.  A path of both listings whose sizes differ is classified
    [size_changed] under its directory key, in no other bucket, and so
    neither [nas_newer] nor [cs_newer], whatever the two modification
    times are. *)
Theorem C1_size_mismatch_takes_precedence
    set_iter (source_map dest_map : file_map) path source_file dest_file :
  set_iteration set_iter →
  source_map !! path = Some source_file →
  dest_map !! path = Some dest_file →
  size source_file ≠ size dest_file →
  let changes := compare_listings set_iter source_map dest_map in
  (path ∈ paths_of changes (get_dir_key path) "size_changed")
  ∧ (∀ d k, path ∈ paths_of changes d k → d = get_dir_key path ∧ k = "size_changed")
  ∧ (∀ d, (path ∉ paths_of changes d "nas_newer") ∧ (path ∉ paths_of changes d "cs_newer")).
Proof.
  intros Hit Hs Hd Hne changes.
  pose proof (common_kind_size _ _ _ _ _ Hs Hd Hne) as Hk.
  assert (∀ d k, path ∈ paths_of changes d k ↔ d = get_dir_key path ∧ k = "size_changed")
    as Hin.
  { intros d k. unfold changes. rewrite elem_of_compare_listings by done.
    rewrite Hk. naive_solver. }
  split; [by apply Hin|]. split; [intros d k; by apply Hin|].
  intros d. split; intros [_ [=]]%Hin.
Qed.

(** C2.  A path of both listings with equal sizes: when the times differ it
    is classified [nas_newer] exactly when the destination's time is
    greater, [cs_newer] exactly when it is not (so when the source's is
    greater), and nothing else; when the times are equal it is in no
    bucket at all. *)
Theorem C2_timestamp_classification
    set_iter (source_map dest_map : file_map) path source_file dest_file :
  set_iteration set_iter →
  source_map !! path = Some source_file →
  dest_map !! path = Some dest_file →
  size source_file = size dest_file →
  let changes := compare_listings set_iter source_map dest_map in
  (mod_time source_file ≠ mod_time dest_file →
     (path ∈ paths_of changes (get_dir_key path) "nas_newer"
      ↔ gtb (mod_time dest_file) (mod_time source_file) = true)
     ∧ (path ∈ paths_of changes (get_dir_key path) "cs_newer"
        ↔ gtb (mod_time dest_file) (mod_time source_file) = false)
     ∧ (gtb (mod_time dest_file) (mod_time source_file) = false
        ↔ gtb (mod_time source_file) (mod_time dest_file) = true)
     ∧ (∀ d k, path ∈ paths_of changes d k →
               d = get_dir_key path ∧ (k = "nas_newer" ∨ k = "cs_newer"))
     ∧ ¬ (path ∈ paths_of changes (get_dir_key path) "nas_newer"
          ∧ path ∈ paths_of changes (get_dir_key path) "cs_newer"))
  ∧ (mod_time source_file = mod_time dest_file →
     ∀ d k, path ∉ paths_of changes d k).
Proof.
  intros Hit Hs Hd Heq changes.
  pose proof (common_kind_time _ _ _ _ _ Hs Hd Heq) as Hk.
  assert (∀ d k, path ∈ paths_of changes d k
                 ↔ d = get_dir_key path ∧ kind_of source_map dest_map path = Some k) as Hin.
  { intros d k. unfold changes. by apply elem_of_compare_listings. }
  split.
  - intros Hne. rewrite decide_False in Hk by done.
    rewrite !Hin, Hk.
    rewrite (gtb_connex (mod_time source_file) (mod_time dest_file)) by done.
    destruct (gtb (mod_time dest_file) (mod_time source_file)); simpl;
      repeat split; naive_solver.
  - intros Hsame d k. rewrite Hin, Hk, decide_True by done. naive_solver.
Qed.

(** Paths on one side only, and the directory key of every listed path. *)
Lemma one_sided_paths
    set_iter (source_map dest_map : file_map) path :
  set_iteration set_iter →
  let changes := compare_listings set_iter source_map dest_map in
  (path ∈ dom dest_map ∖ dom source_map →
     path ∈ paths_of changes (get_dir_key path) "nas_only")
  ∧ (path ∈ dom source_map ∖ dom dest_map →
     path ∈ paths_of changes (get_dir_key path) "cs_only")
  ∧ (∀ d k, path ∈ paths_of changes d k → d = get_dir_key path).
Proof.
  intros Hit changes. unfold changes. split; [|split].
  - intros [[? Hd]%elem_of_dom Hs%not_elem_of_dom]%elem_of_difference.
    apply elem_of_compare_listings; [done|]. unfold kind_of. by rewrite Hs, Hd.
  - intros [[? Hs]%elem_of_dom Hd%not_elem_of_dom]%elem_of_difference.
    apply elem_of_compare_listings; [done|]. unfold kind_of. by rewrite Hs, Hd.
  - intros d k [-> _]%elem_of_compare_listings; done.
Qed.

(** C3.  A path of the destination only is in [nas_only], a path of the
    source only in [cs_only], each under its directory key, once, and in no
    other bucket; whatever the path, the buckets that list it agree on the
    directory key, which is the path's, and on the kind, and no bucket
    lists a path twice. *)
Theorem C3_symmetric_difference_classified
    set_iter (source_map dest_map : file_map) path :
  set_iteration set_iter →
  let changes := compare_listings set_iter source_map dest_map in
  (path ∈ dom dest_map ∖ dom source_map →
     path ∈ paths_of changes (get_dir_key path) "nas_only"
     ∧ ∀ d k, path ∈ paths_of changes d k → d = get_dir_key path ∧ k = "nas_only")
  ∧ (path ∈ dom source_map ∖ dom dest_map →
     path ∈ paths_of changes (get_dir_key path) "cs_only"
     ∧ ∀ d k, path ∈ paths_of changes d k → d = get_dir_key path ∧ k = "cs_only")
  ∧ (∀ d k d' k', path ∈ paths_of changes d k → path ∈ paths_of changes d' k' →
                  d = d' ∧ k = k')
  ∧ (∀ d k, path ∈ paths_of changes d k → d = get_dir_key path)
  ∧ (∀ d k, NoDup (paths_of changes d k)).
Proof.
  intros Hit changes.
  assert (∀ d k, path ∈ paths_of changes d k
                 ↔ d = get_dir_key path ∧ kind_of source_map dest_map path = Some k) as Hin.
  { intros d k. unfold changes. by apply elem_of_compare_listings. }
  assert (∀ d k, path ∈ paths_of changes d k → d = get_dir_key path) as Hkey.
  { intros d k [-> _]%Hin. done. }
  split; [|split; [|split; [|split]]].
  - intros [[? Hd]%elem_of_dom Hs%not_elem_of_dom]%elem_of_difference.
    assert (kind_of source_map dest_map path = Some "nas_only") as Hk.
    { unfold kind_of. by rewrite Hs, Hd. }
    split; [apply Hin; by rewrite Hk|].
    intros d k [-> Hk']%Hin. split; congruence.
  - intros [[? Hs]%elem_of_dom Hd%not_elem_of_dom]%elem_of_difference.
    assert (kind_of source_map dest_map path = Some "cs_only") as Hk.
    { unfold kind_of. by rewrite Hs, Hd. }
    split; [apply Hin; by rewrite Hk|].
    intros d k [-> Hk']%Hin. split; congruence.
  - intros d k d' k' [-> Hk]%Hin [-> Hk']%Hin. split; congruence.
  - done.
  - intros d k. by apply NoDup_compare_listings.
Qed.

(** ** Directory keys *)

Lemma contains_char_In c s :
  contains_char c s = true ↔ In c (list_ascii_of_string s).
Proof.
  induction s as [|a r IH]; simpl; [naive_solver|].
  destruct (Ascii.eqb_spec a c) as [->|Hne]; [naive_solver|].
  rewrite IH. naive_solver.
Qed.

Lemma contains_char_not_In c s :
  contains_char c s = false ↔ ¬ In c (list_ascii_of_string s).
Proof. rewrite <- contains_char_In. by destruct (contains_char c s). Qed.

(** The first segment of [split] has no separator, and it is the text before
    the first separator of the string, or the whole string without one. *)
Lemma split_first sep s :
  ∃ first others,
    split sep s = first :: others
    ∧ contains_char sep first = false
    ∧ if contains_char sep s then ∃ rest, s = first +:+ String sep rest
      else s = first.
Proof.
  induction s as [|a r (first & others & Hsplit & Hfirst & Hrest)]; simpl.
  - by exists EmptyString, [].
  - destruct (Ascii.eqb_spec a sep) as [->|Hne].
    + exists EmptyString, (split sep r). repeat split. by exists r.
    + rewrite Hsplit. exists (String a first), others. repeat split.
      * simpl. by rewrite (proj2 (Ascii.eqb_neq a sep)).
      * destruct (contains_char sep r).
        -- destruct Hrest as [rest ->]. by exists rest.
        -- by rewrite Hrest.
Qed.

(** C7.  Without a ['/'] in the path the key is ["(root)"]; with one, the key
    is the text before the first ['/']: the path is the key, a ['/'] and a
    rest, and the key has no ['/']. *)
Theorem C7_directory_key path :
  (¬ In "/"%char (list_ascii_of_string path) → get_dir_key path = "(root)")
  ∧ (In "/"%char (list_ascii_of_string path) →
     ∃ rest, path = get_dir_key path +:+ "/" +:+ rest
             ∧ ¬ In "/"%char (list_ascii_of_string (get_dir_key path))).
Proof.
  unfold get_dir_key. split.
  - intros Hno%contains_char_not_In. by rewrite Hno.
  - intros Hyes%contains_char_In. rewrite Hyes.
    destruct (split_first "/" path) as (first & others & -> & Hfirst & Hrest).
    rewrite Hyes in Hrest. destruct Hrest as [rest Hpath].
    exists rest. split; [done|]. by apply contains_char_not_In.
Qed.

(** C10.  A path that begins with ['/'] has the empty string as its key, not
    ["(root)"]; every bucket of the comparator that lists it is under the
    empty key, and it is listed there when it is on one side only. *)
Theorem C10_leading_separator_gives_empty_key rest :
  get_dir_key (String "/" rest) = ""
  ∧ get_dir_key (String "/" rest) ≠ "(root)"
  ∧ ∀ set_iter (source_map dest_map : file_map),
      set_iteration set_iter →
      let changes := compare_listings set_iter source_map dest_map in
      (∀ d k, String "/" rest ∈ paths_of changes d k → d = "")
      ∧ (String "/" rest ∈ dom dest_map ∖ dom source_map →
         String "/" rest ∈ paths_of changes "" "nas_only")
      ∧ (String "/" rest ∈ dom source_map ∖ dom dest_map →
         String "/" rest ∈ paths_of changes "" "cs_only").
Proof.
  assert (get_dir_key (String "/" rest) = "") as Hkey by done.
  split; [done|]. split; [by rewrite Hkey|].
  intros set_iter source_map dest_map Hit changes.
  destruct (one_sided_paths set_iter source_map dest_map (String "/" rest) Hit)
    as (Hnas & Hcs & Hdir).
  rewrite Hkey in Hnas, Hcs, Hdir. naive_solver.
Qed.

(** ** Scope filtering *)

Lemma default_keys (source_map_full dest_map_full : file_map) :
  list_to_set (get_dir_key <$> ((map_to_list source_map_full).*1
                                 ++ (map_to_list dest_map_full).*1)%list)
  =@{gset string} all_dir_keys source_map_full dest_map_full.
Proof.
  apply set_eq. intros key. unfold all_dir_keys.
  rewrite elem_of_list_to_set, list_elem_of_fmap, elem_of_map.
  apply exist_proper. intros path.
  rewrite elem_of_app, elem_of_union, !elem_of_dom.
  assert (∀ m : file_map, path ∈ (map_to_list m).*1 ↔ is_Some (m !! path)) as Hkeys.
  { intros m. rewrite list_elem_of_fmap. split.
    - intros [[p f] [-> Hin%elem_of_map_to_list]]. by exists f.
    - intros [f Hf]. exists (path, f). by rewrite elem_of_map_to_list. }
  by rewrite !Hkeys.
Qed.

Lemma tlds_to_process_eq args (source_map_full dest_map_full : file_map) :
  tlds_to_process args source_map_full dest_map_full
  = (if decide (tlds args = []) then all_dir_keys source_map_full dest_map_full
     else list_to_set (tlds args)) ∖ list_to_set (exclude args).
Proof.
  unfold tlds_to_process. rewrite default_keys.
  assert ((if bool_decide (list_to_set (tlds args) =@{gset string} ∅)
           then all_dir_keys source_map_full dest_map_full
           else list_to_set (tlds args))
          = (if decide (tlds args = []) then all_dir_keys source_map_full dest_map_full
             else list_to_set (tlds args))) as ->.
  { destruct (tlds args) as [|t l]; [done|].
    rewrite bool_decide_eq_false_2; [done|]. simpl. set_solver. }
  case_bool_decide as Hex; [|done].
  rewrite Hex. simpl. set_solver.
Qed.

Lemma filter_map_lookup keys (m : file_map) path :
  filter_map keys m !! path
  = if decide (get_dir_key path ∈ keys) then m !! path else None.
Proof.
  unfold filter_map. rewrite map_lookup_filter.
  destruct (m !! path) as [f|]; simpl; [|by case_decide].
  case_decide; [by rewrite option_guard_True|by rewrite option_guard_False].
Qed.

(** C9.  The final key set is the included set (the listed directories, or
    by default the keys of all paths of either listing) minus the excluded
    ones, and each filtered listing keeps exactly the entries whose key is
    in it; with two distinct directories [A] and [B] included and [B]
    excluded the key set is [{A}] and each filtered listing keeps exactly
    the entries whose key is [A], whatever else the listings hold. *)
Theorem C9_scope_filtering args (source_map_full dest_map_full : file_map) :
  let keys := tlds_to_process args source_map_full dest_map_full in
  keys = (if decide (tlds args = []) then all_dir_keys source_map_full dest_map_full
          else list_to_set (tlds args)) ∖ list_to_set (exclude args)
  ∧ (∀ path, filter_map keys source_map_full !! path
             = if decide (get_dir_key path ∈ keys) then source_map_full !! path else None)
  ∧ (∀ path, filter_map keys dest_map_full !! path
             = if decide (get_dir_key path ∈ keys) then dest_map_full !! path else None)
  ∧ (∀ A B, A ≠ B →
       list_to_set (tlds args) =@{gset string} {[A; B]} →
       list_to_set (exclude args) =@{gset string} {[B]} →
       keys = {[A]}
       ∧ (∀ path, filter_map keys source_map_full !! path
                  = if decide (get_dir_key path = A) then source_map_full !! path else None)
       ∧ (∀ path, filter_map keys dest_map_full !! path
                  = if decide (get_dir_key path = A) then dest_map_full !! path else None)).
Proof.
  intros keys.
  split; [apply tlds_to_process_eq|].
  split; [intros path; apply filter_map_lookup|].
  split; [intros path; apply filter_map_lookup|].
  intros A B Hne Htlds Hexclude.
  assert (keys = {[A]}) as Hkeys.
  { unfold keys. rewrite tlds_to_process_eq, Hexclude.
    destruct (decide (tlds args = [])) as [Hnil|_].
    - rewrite Hnil in Htlds. set_solver.
    - rewrite Htlds. set_solver. }
  split; [done|]. rewrite Hkeys.
  split; intros path; rewrite filter_map_lookup;
    destruct (decide (get_dir_key path = A)) as [->|Hk].
  - rewrite decide_True; [done|set_solver].
  - rewrite decide_False; [done|set_solver].
  - rewrite decide_True; [done|set_solver].
  - rewrite decide_False; [done|set_solver].
Qed.

(** ** Formatting *)

Lemma forall_range_spec f k lo :
  forall_range f k lo = true → ∀ z, lo ≤ z < lo + 2 ^ Z.of_nat k → f z = true.
Proof.
  revert lo. induction k as [|k IH]; intros lo Hall z Hz.
  - simpl in *. by replace z with lo by lia.
  - simpl in Hall. apply andb_prop in Hall as [Hlow Hhigh].
    rewrite Nat2Z.inj_succ, Z.pow_succ_r in Hz by lia.
    destruct (Z.lt_ge_cases z (lo + 2 ^ Z.of_nat k)).
    + apply (IH lo); [done|lia].
    + apply (IH (lo + 2 ^ Z.of_nat k)); [done|lia].
Qed.

Lemma time_facts_below_a_week td :
  - 604800 < td < 604800 → time_facts td = true.
Proof.
  intros Htd.
  assert (forall_range (λ s, time_facts s && time_facts (- s)) 20 0 = true) as Hall
    by (vm_compute; reflexivity).
  destruct (Z.le_gt_cases 0 td).
  - pose proof (forall_range_spec _ _ _ Hall td ltac:(simpl; lia)) as Hboth.
    by apply andb_prop in Hboth as [? _].
  - pose proof (forall_range_spec _ _ _ Hall (- td) ltac:(simpl; lia)) as Hboth.
    apply andb_prop in Hboth as [_ Hneg]. by rewrite Z.opp_involutive in Hneg.
Qed.

(** ** Binary64 division of whole numbers *)

Lemma digits2_pos_size p : digits2_pos p = Pos.size p.
Proof. induction p as [p IH|p IH|]; simpl; congruence. Qed.

Lemma Zdigits2_log2 p : Zdigits2 (Z.pos p) = Z.log2 (Z.pos p) + 1.
Proof.
  simpl. rewrite digits2_pos_size. destruct p; simpl; lia.
Qed.

Lemma Zdigits2_bounds m d : 2 ^ (d - 1) ≤ m < 2 ^ d → 0 < d → Zdigits2 m = d.
Proof.
  intros Hm Hd. assert (0 < m) as Hpos by (pose proof (Z.pow_pos_nonneg 2 (d - 1)); lia).
  destruct m as [|p|p]; try lia. rewrite Zdigits2_log2.
  rewrite (Z.log2_unique (Z.pos p) (d - 1)); [lia|lia|].
  replace (Z.succ (d - 1)) with d by lia. done.
Qed.

Lemma iter_xO p k : Z.pos (Pos.iter xO p k) = Z.pos p * 2 ^ Z.pos k.
Proof.
  induction k as [|k IH] using Pos.peano_ind.
  - simpl. lia.
  - rewrite Pos.iter_succ, Pos2Z.inj_succ, Z.pow_succ_r by lia.
    rewrite Pos2Z.inj_xO, IH. lia.
Qed.

Lemma shr_fexp_53 m e l :
  2 ^ 52 ≤ m < 2 ^ 53 → -1074 ≤ e →
  shr_fexp prec emax m e l = (shr_record_of_loc m l, e).
Proof.
  intros Hm He. unfold shr_fexp. rewrite (Zdigits2_bounds m 53) by (done || lia).
  replace (fexp prec emax (53 + e) - e) with 0; [done|].
  unfold fexp, emin, prec, emax. lia.
Qed.

Lemma shr_fexp_54 m e l :
  2 ^ 53 ≤ m < 2 ^ 54 → -1075 ≤ e →
  shr_fexp prec emax m e l = (shr_1 (shr_record_of_loc m l), e + 1).
Proof.
  intros Hm He. unfold shr_fexp. rewrite (Zdigits2_bounds m 54) by (done || lia).
  replace (fexp prec emax (54 + e) - e) with 1; [done|].
  unfold fexp, emin, prec, emax. lia.
Qed.

Lemma round_nearest_even_bounds m l :
  m ≤ round_nearest_even m l ≤ m + 1.
Proof. destruct l as [|[| |]]; simpl; try lia. destruct (Z.even m); lia. Qed.

Lemma shr_1_half m l :
  0 < m → shr_m (shr_1 (shr_record_of_loc m l)) = m / 2.
Proof.
  intros Hm. destruct m as [|p|p]; try lia.
  assert (∃ r, 0 ≤ r < 2
               ∧ Z.pos p = 2 * shr_m (shr_1 (shr_record_of_loc (Z.pos p) l)) + r)
    as (r & Hr & Heq).
  { destruct l as [|[| |]], p as [p|p|];
      cbn [shr_m shr_1 shr_record_of_loc orb];
      first [exists 0; lia | exists 1; lia]. }
  apply Z.div_unique with r; lia.
Qed.

(** A mantissa of 53 bits after rounding: it is kept, or it is [2^53] and
    becomes [2^52] with the next exponent. *)
Lemma second_shr m e :
  2 ^ 52 ≤ m ≤ 2 ^ 53 → -1074 ≤ e →
  ∃ m' e', shr_fexp prec emax m e loc_Exact
           = ({| shr_m := Z.pos m'; shr_r := false; shr_s := false |}, e')
           ∧ e ≤ e' ≤ e + 1 ∧ Z.pos m' * 2 ^ (e' - e) = m.
Proof.
  intros Hm He. destruct (decide (m = 2 ^ 53)) as [->|Hne].
  - rewrite shr_fexp_54 by (done || lia). exists (Z.to_pos (2 ^ 52)), (e + 1).
    split; [done|]. split; [lia|]. replace (e + 1 - e) with 1 by lia. done.
  - rewrite shr_fexp_53 by (lia || done).
    assert (0 < m) as Hpos by lia. destruct m as [|p|p]; try lia.
    exists p, e. split; [done|]. split; [lia|]. rewrite Z.sub_diag. simpl. lia.
Qed.

Lemma binary_round_aux_bounds q e l :
  2 ^ 52 ≤ q < 2 ^ 54 → -1074 ≤ e ≤ 900 →
  ∃ m e', binary_round_aux prec emax false q e l = S754_finite false m e'
          ∧ e ≤ e' ≤ e + 2
          ∧ 2 * (q / 2) ≤ Z.pos m * 2 ^ (e' - e) ≤ q + 2.
Proof.
  intros Hq He. unfold binary_round_aux.
  destruct (decide (q < 2 ^ 53)) as [Hsmall|Hlarge].
  - rewrite shr_fexp_53 by (lia || done).
    assert (shr_m (shr_record_of_loc q l) = q) as -> by by destruct l as [|[| |]].
    assert (loc_of_shr_record (shr_record_of_loc q l) = l) as -> by by destruct l as [|[| |]].
    pose proof (round_nearest_even_bounds q l) as Hr.
    destruct (second_shr (round_nearest_even q l) e) as (m & e' & -> & He' & Hm);
      [lia|lia|].
    simpl. exists m, e'. rewrite (proj2 (Z.leb_le e' (emax - prec))) by (unfold emax, prec; lia).
    split; [done|]. split; [lia|].
    pose proof (Z.mul_div_le q 2). lia.
  - rewrite shr_fexp_54 by (lia || done).
    pose proof (shr_1_half q l ltac:(lia)) as Hhalf.
    pose proof (round_nearest_even_bounds (q / 2)
                  (loc_of_shr_record (shr_1 (shr_record_of_loc q l)))) as Hr.
    rewrite Hhalf.
    assert (2 ^ 52 ≤ q / 2 < 2 ^ 53) as Hhalf_range.
    { split; [apply Z.div_le_lower_bound; lia|apply Z.div_lt_upper_bound; lia]. }
    destruct (second_shr (round_nearest_even (q / 2)
                            (loc_of_shr_record (shr_1 (shr_record_of_loc q l)))) (e + 1))
      as (m & e' & -> & He' & Hm); [lia|lia|].
    simpl. exists m, e'. rewrite (proj2 (Z.leb_le e' (emax - prec))) by (unfold emax, prec; lia).
    split; [done|]. split; [lia|].
    replace (e' - e) with ((e' - (e + 1)) + 1) by lia.
    rewrite Z.pow_add_r by lia. rewrite Z.mul_assoc, Hm.
    pose proof (Z.mul_div_le q 2). pose proof (Z.mod_pos_bound q 2).
    pose proof (Z.div_mod q 2). change (2 ^ 1) with 2. lia.
Qed.

Lemma SFdiv_core m1 e1 m2 e2 :
  2 ^ 52 ≤ Z.pos m1 < 2 ^ 53 → 2 ^ 52 ≤ Z.pos m2 < 2 ^ 53 →
  -1021 ≤ e1 - e2 →
  SFdiv_core_binary prec emax (Z.pos m1) e1 (Z.pos m2) e2
  = ((Z.pos m1 * 2 ^ 53) / Z.pos m2, e1 - e2 - 53,
     new_location (Z.pos m2) ((Z.pos m1 * 2 ^ 53) mod Z.pos m2)).
Proof.
  intros H1 H2 He. unfold SFdiv_core_binary.
  rewrite (Zdigits2_bounds (Z.pos m1) 53), (Zdigits2_bounds (Z.pos m2) 53) by (done || lia).
  replace (Z.min (fexp prec emax (53 + e1 - (53 + e2))) (e1 - e2)) with (e1 - e2 - 53)
    by (unfold fexp, emin, prec, emax; lia).
  replace (e1 - e2 - (e1 - e2 - 53)) with 53 by lia.
  cbv beta iota zeta. rewrite Z.shiftl_mul_pow2 by lia.
  unfold Z.div, Z.modulo. by destruct (Z.div_eucl _ _).
Qed.

Lemma SFdiv_bounds m1 e1 m2 e2 :
  2 ^ 52 ≤ Z.pos m1 < 2 ^ 53 → 2 ^ 52 ≤ Z.pos m2 < 2 ^ 53 →
  -1021 ≤ e1 - e2 ≤ 900 →
  let e0 := e1 - e2 - 53 in
  let q := (Z.pos m1 * 2 ^ 53) / Z.pos m2 in
  ∃ m e, SFdiv prec emax (S754_finite false m1 e1) (S754_finite false m2 e2)
         = S754_finite false m e
         ∧ e0 ≤ e ≤ e0 + 2
         ∧ 2 * (q / 2) ≤ Z.pos m * 2 ^ (e - e0) ≤ q + 2.
Proof.
  intros H1 H2 He e0 q. unfold SFdiv. rewrite SFdiv_core by (done || lia).
  fold q e0. simpl xorb. apply binary_round_aux_bounds; [|lia].
  unfold q. split.
  - apply Z.div_le_lower_bound; lia.
  - apply Z.div_lt_upper_bound; lia.
Qed.

Lemma binary_round_aux_exact m e :
  2 ^ 52 ≤ Z.pos m < 2 ^ 53 → -1074 ≤ e ≤ 900 →
  binary_round_aux prec emax false (Z.pos m) e loc_Exact = S754_finite false m e.
Proof.
  intros Hm He. unfold binary_round_aux. rewrite shr_fexp_53 by (done || lia).
  cbn [shr_record_of_loc shr_m loc_of_shr_record round_nearest_even].
  rewrite shr_fexp_53 by (done || lia).
  cbn [shr_record_of_loc shr_m].
  by rewrite (proj2 (Z.leb_le e (emax - prec))) by (unfold emax, prec; lia).
Qed.

(** The binary64 number of a whole number below [2^52]: its mantissa has
    53 bits and the value is exact. *)
Lemma binary_normalize_whole s :
  0 < s < 2 ^ 52 →
  ∃ m, binary_normalize prec emax s 0 false = S754_finite false m (Z.log2 s - 52)
       ∧ Z.pos m = s * 2 ^ (52 - Z.log2 s)
       ∧ 2 ^ 52 ≤ Z.pos m < 2 ^ 53.
Proof.
  intros [Hpos Hlt]. destruct s as [|p|p]; try lia.
  pose proof (Z.log2_spec (Z.pos p) Hpos) as Hlog.
  pose proof (Z.log2_nonneg (Z.pos p)) as Hnonneg.
  assert (Z.log2 (Z.pos p) < 52) as Hsmall by (by apply Z.log2_lt_pow2).
  set (L := Z.log2 (Z.pos p)) in *.
  unfold binary_normalize, binary_round.
  change (Z.pos (digits2_pos p)) with (Zdigits2 (Z.pos p)).
  rewrite Zdigits2_log2. fold L.
  replace (fexp prec emax (L + 1 + 0)) with (L - 52)
    by (unfold fexp, emin, prec, emax; lia).
  unfold shl_align. destruct (L - 52 - 0) as [|k|k] eqn:Hk; try lia.
  assert (Z.pos (Pos.iter xO p k) = Z.pos p * 2 ^ (52 - L)) as Hm.
  { rewrite iter_xO. f_equal. f_equal. lia. }
  assert (2 ^ 52 ≤ Z.pos (Pos.iter xO p k) < 2 ^ 53) as Hrange.
  { rewrite Hm.
    assert (2 ^ 52 = 2 ^ L * 2 ^ (52 - L)) as ->
      by (rewrite <- Z.pow_add_r by lia; f_equal; lia).
    assert (2 ^ 53 = 2 ^ Z.succ L * 2 ^ (52 - L)) as ->
      by (rewrite <- Z.pow_add_r by lia; f_equal; lia).
    pose proof (Z.pow_pos_nonneg 2 (52 - L)). nia. }
  exists (Pos.iter xO p k). rewrite binary_round_aux_exact by (done || lia). done.
Qed.

Lemma SFltb_whole a b ma mb :
  0 < b ≤ a →
  Z.pos ma = a * 2 ^ (52 - Z.log2 a) → Z.pos mb = b * 2 ^ (52 - Z.log2 b) →
  SFltb (S754_finite false ma (Z.log2 a - 52)) (S754_finite false mb (Z.log2 b - 52))
  = false.
Proof.
  intros Hab Ha Hb. unfold SFltb, SFcompare.
  pose proof (Z.log2_le_mono b a ltac:(lia)) as Hlog.
  destruct (Z.compare_spec (Z.log2 a - 52) (Z.log2 b - 52)) as [Heq|Hlt|Hgt];
    [|lia|done].
  assert (Z.log2 a = Z.log2 b) as Hsame by lia.
  change (Pos.compare_cont Eq ma mb) with (Z.pos ma ?= Z.pos mb).
  destruct (Z.compare_spec (Z.pos ma) (Z.pos mb)) as [?|Hlt|?]; try done.
  rewrite Ha, Hb, Hsame in Hlt. pose proof (Z.pow_pos_nonneg 2 (52 - Z.log2 b)).
  pose proof (Z.log2_nonneg b). nia.
Qed.

(** What [abs(time_diff.total_seconds())] is for a difference of whole
    seconds. *)
Lemma Prim2SF_seconds (td : timedelta) :
  0 < Z.abs td < 2 ^ 52 →
  Prim2SF (PrimFloat.abs (total_seconds td))
  = binary_normalize prec emax (Z.abs td) 0 false.
Proof.
  intros Hs. unfold total_seconds, of_Z. rewrite abs_spec.
  rewrite (proj2 (Z.ltb_lt (Z.abs td) 9223372036854775808)) by lia.
  assert (Prim2SF (of_uint63 (Uint63.of_Z (Z.abs td)))
          = binary_normalize prec emax (Z.abs td) 0 false) as Hconv.
  { rewrite of_uint63_spec, Uint63.of_Z_spec. f_equal.
    apply Z.mod_small. change wB with (2 ^ 63). lia. }
  destruct (binary_normalize_whole (Z.abs td) Hs) as (m & Hm & _).
  destruct (td <? 0); rewrite ?opp_spec, Hconv, Hm; done.
Qed.

Lemma seconds_not_below (td : timedelta) (c : float) n :
  Prim2SF c = binary_normalize prec emax n 0 false →
  0 < n ≤ Z.abs td → Z.abs td < 2 ^ 52 →
  (PrimFloat.abs (total_seconds td) <? c)%float = false.
Proof.
  intros Hc Hn Hs. rewrite ltb_spec, Prim2SF_seconds, Hc by lia.
  destruct (binary_normalize_whole (Z.abs td)) as (m & -> & Hm & _); [lia|].
  destruct (binary_normalize_whole n) as (mc & -> & Hmc & _); [lia|].
  by apply SFltb_whole.
Qed.

(** [int(seconds / 86400)] is the number of whole days: the rounding of the
    quotient to 53 bits never reaches the next whole number. *)
Lemma whole_days (td : timedelta) :
  0 < Z.abs td < 2 ^ 47 →
  to_Z (PrimFloat.abs (total_seconds td) / 86400)%float = Z.abs td / 86400.
Proof.
  intros Hs. set (s := Z.abs td) in *.
  assert (2 ^ 47 < 2 ^ 52) as Hpow by done.
  unfold to_Z. rewrite div_spec, Prim2SF_seconds by (fold s; lia). fold s.
  destruct (binary_normalize_whole s) as (m1 & -> & Hm1 & Hrange1); [lia|].
  assert (Prim2SF 86400 = S754_finite false 5937362789990400 (-36)) as ->
    by (vm_compute; reflexivity).
  pose proof (Z.log2_nonneg s) as Hnonneg.
  assert (Z.log2 s < 47) as Hlog by (apply Z.log2_lt_pow2; lia).
  pose proof (Z.log2_spec s ltac:(lia)) as Hspec.
  set (L := Z.log2 s) in *.
  destruct (SFdiv_bounds m1 (L - 52) 5937362789990400 (-36))
    as (m & e & Hdiv & He & Hm); [done|done|lia|].
  unfold SF64div. rewrite Hdiv.
  replace (L - 52 - -36 - 53) with (L - 69) in * by lia.
  rewrite (proj2 (Z.leb_gt 0 e)) by lia.
  set (T := 2 ^ (69 - L)) in *.
  assert ((Z.pos m1 * 2 ^ 53) `div` 5937362789990400 = (s * T) `div` 86400) as Hq.
  { rewrite Hm1. unfold T.
    replace (s * 2 ^ (52 - L) * 2 ^ 53) with (s * 2 ^ (69 - L) * 2 ^ 36).
    - change 5937362789990400 with (86400 * 2 ^ 36).
      by rewrite Z.div_mul_cancel_r.
    - rewrite <- !Z.mul_assoc, <- !Z.pow_add_r by lia. do 2 f_equal. lia. }
  rewrite Hq in Hm. clear Hq Hdiv Hm1 Hrange1.
  set (P := 2 ^ (e - (L - 69))) in *.
  assert (0 < P) as HP by (apply Z.pow_pos_nonneg; lia).
  assert (T = 2 ^ (- e) * P) as HT.
  { unfold T, P. rewrite <- Z.pow_add_r by lia. f_equal. lia. }
  assert (Z.pos m `div` 2 ^ (- e) = (Z.pos m * P) `div` T) as ->.
  { rewrite HT. rewrite Z.div_mul_cancel_r; [done| |lia].
    pose proof (Z.pow_pos_nonneg 2 (- e)). lia. }
  assert (2 ^ 23 ≤ T) as Hlarge by (apply Z.pow_le_mono_r; lia).
  assert (∃ T', T = 2 * T') as [T' HT'].
  { exists (2 ^ (68 - L)). unfold T. rewrite <- Z.pow_succ_r by lia. f_equal. lia. }
  clearbody T P. clear HT.
  set (q := (s * T) `div` 86400) in *.
  pose proof (Z.mul_div_le (s * T) 86400 ltac:(lia)) as Hq1.
  pose proof (Z.mul_succ_div_gt (s * T) 86400 ltac:(lia)) as Hq2.
  fold q in Hq1, Hq2.
  pose proof (Z.mul_div_le s 86400 ltac:(lia)) as Hk1.
  pose proof (Z.mul_succ_div_gt s 86400 ltac:(lia)) as Hk2.
  set (k := s `div` 86400) in *.
  pose proof (Z.mul_div_le q 2 ltac:(lia)) as Hh1.
  pose proof (Z.mul_succ_div_gt q 2 ltac:(lia)) as Hh2.
  assert (86400 * k * T ≤ s * T) as Hlow
    by (apply Z.mul_le_mono_nonneg_r; lia).
  assert (s * T ≤ (86400 * k + 86399) * T) as Hup
    by (apply Z.mul_le_mono_nonneg_r; lia).
  change (2 ^ 23) with 8388608 in Hlarge.
  symmetry. apply Z.div_unique with (Z.pos m * P - T * k); [left|lia].
  subst T. lia.
Qed.

(** From a week on: the whole days, and the two numbers printed from them. *)
Lemma human_readable_time_from_a_week (td : timedelta) :
  let s := Z.abs td in
  let days := s / 86400 in
  604800 ≤ s < 2 ^ 47 →
  (days < 30 →
     human_readable_time td
     = str_of_Z (days / 7) +:+ " week" +:+ plural (negb (days / 7 =? 1)) +:+ ", "
       +:+ str_of_Z (days mod 7) +:+ " day" +:+ plural (negb (days mod 7 =? 1)))
  ∧ (30 ≤ days < 365 →
     human_readable_time td
     = str_of_Z (days / 30) +:+ " month" +:+ plural (negb (days / 30 =? 1)) +:+ ", "
       +:+ str_of_Z ((days mod 30) / 7) +:+ " week"
       +:+ plural (negb ((days mod 30) / 7 =? 1)))
  ∧ (365 ≤ days →
     human_readable_time td
     = str_of_Z (days / 365) +:+ " year" +:+ plural (negb (days / 365 =? 1)) +:+ ", "
       +:+ str_of_Z ((days mod 365) / 30) +:+ " month"
       +:+ plural (negb ((days mod 365) / 30 =? 1))).
Proof.
  intros s days Hs.
  assert (2 ^ 47 < 2 ^ 52) as Hpow by done.
  assert ((PrimFloat.abs (total_seconds td) <? 60)%float = false) as H60.
  { apply (seconds_not_below td 60%float 60); [vm_compute; reflexivity|fold s; lia..]. }
  assert ((PrimFloat.abs (total_seconds td) <? 3600)%float = false) as H3600.
  { apply (seconds_not_below td 3600%float 3600); [vm_compute; reflexivity|fold s; lia..]. }
  assert ((PrimFloat.abs (total_seconds td) <? 86400)%float = false) as H86400.
  { apply (seconds_not_below td 86400%float 86400); [vm_compute; reflexivity|fold s; lia..]. }
  assert ((PrimFloat.abs (total_seconds td) <? 604800)%float = false) as H604800.
  { apply (seconds_not_below td 604800%float 604800);
      [vm_compute; reflexivity|fold s; lia..]. }
  pose proof (whole_days td ltac:(fold s; lia)) as Hdays. fold s days in Hdays.
  unfold human_readable_time. cbv zeta.
  rewrite H60, H3600, H86400, H604800, Hdays.
  split; [|split]; intros Hd.
  - by rewrite (proj2 (Z.ltb_lt days 30)) by lia.
  - by rewrite (proj2 (Z.ltb_ge days 30)), (proj2 (Z.ltb_lt days 365)) by lia.
  - by rewrite (proj2 (Z.ltb_ge days 30)), (proj2 (Z.ltb_ge days 365)) by lia.
Qed.

(** The claim as the specification states it fails at 90000 seconds. *)
Lemma C6_counterexample_90000_seconds :
  human_readable_time 90000 ≠ "1.0 day".
Proof. vm_compute. discriminate. Qed.

(** C6, amended.  45 seconds give ["45 seconds"], 90 give ["1 minute"], 7200
    give ["2.0 hours"] and 90000 give ["1.0 days"].  Below a week the unit
    word is plural exactly when the number the code compares with 1 is not
    1: the whole seconds, the whole minutes, and for hours and days the
    unrounded quotient, so that only exactly 3600 and exactly 86400 seconds
    are singular there.  From a week on, for every difference below [2^47]
    seconds (a [timedelta] is below [10^9] days), the numbers come from the
    whole days: weeks and days below 30 days, months of 30 days and weeks
    below 365, years of 365 days and months above, and each of the two unit
    words is plural exactly when the whole number printed before it is not
    1. *)
Theorem C6_human_readable_time :
  human_readable_time 45 = "45 seconds"
  ∧ human_readable_time 90 = "1 minute"
  ∧ human_readable_time 7200 = "2.0 hours"
  ∧ human_readable_time 90000 = "1.0 days"
  ∧ (∀ td : timedelta,
       let s := Z.abs td in
       let seconds := PrimFloat.abs (total_seconds td) in
       (s < 60 →
          human_readable_time td
          = str_of_Z s +:+ " second" +:+ plural (negb (s =? 1)))
       ∧ (60 ≤ s < 3600 →
          human_readable_time td
          = str_of_Z (s / 60) +:+ " minute" +:+ plural (negb (s / 60 =? 1)))
       ∧ (3600 ≤ s < 86400 →
          human_readable_time td
          = format_1f (seconds / 3600)%float +:+ " hour" +:+ plural (negb (s =? 3600)))
       ∧ (86400 ≤ s < 604800 →
          human_readable_time td
          = format_1f (seconds / 86400)%float +:+ " day" +:+ plural (negb (s =? 86400))))
  ∧ human_readable_time 3600 = "1.0 hour"
  ∧ human_readable_time 3700 = "1.0 hours"
  ∧ human_readable_time 86400 = "1.0 day"
  ∧ human_readable_time 604800 = "1 week, 0 days"
  ∧ human_readable_time (8 * 86400) = "1 week, 1 day"
  ∧ human_readable_time (15 * 86400) = "2 weeks, 1 day"
  ∧ human_readable_time (37 * 86400) = "1 month, 1 week"
  ∧ human_readable_time (74 * 86400) = "2 months, 2 weeks"
  ∧ human_readable_time (395 * 86400) = "1 year, 1 month"
  ∧ human_readable_time (800 * 86400) = "2 years, 2 months"
  ∧ (∀ td : timedelta,
       let s := Z.abs td in
       let days := s / 86400 in
       604800 ≤ s < 2 ^ 47 →
       (days < 30 →
          human_readable_time td
          = str_of_Z (days / 7) +:+ " week" +:+ plural (negb (days / 7 =? 1)) +:+ ", "
            +:+ str_of_Z (days mod 7) +:+ " day" +:+ plural (negb (days mod 7 =? 1)))
       ∧ (30 ≤ days < 365 →
          human_readable_time td
          = str_of_Z (days / 30) +:+ " month" +:+ plural (negb (days / 30 =? 1)) +:+ ", "
            +:+ str_of_Z ((days mod 30) / 7) +:+ " week"
            +:+ plural (negb ((days mod 30) / 7 =? 1)))
       ∧ (365 ≤ days →
          human_readable_time td
          = str_of_Z (days / 365) +:+ " year" +:+ plural (negb (days / 365 =? 1)) +:+ ", "
            +:+ str_of_Z ((days mod 365) / 30) +:+ " month"
            +:+ plural (negb ((days mod 365) / 30 =? 1)))).
Proof.
  split; [by vm_compute|]. split; [by vm_compute|].
  split; [by vm_compute|]. split; [by vm_compute|].
  split; [|do 10 (split; [by vm_compute|]);
           intros td; apply human_readable_time_from_a_week].
  intros td s seconds.
  assert (s < 604800 → time_facts td = true) as Hfacts.
  { intros Hs. apply time_facts_below_a_week. unfold s in Hs. lia. }
  unfold time_facts in Hfacts. fold s seconds in Hfacts.
  unfold human_readable_time. fold seconds.
  split; [|split; [|split]]; intros Hs; specialize (Hfacts ltac:(lia));
    rewrite (proj2 (Z.leb_gt 604800 s)) in Hfacts by lia.
  - rewrite (proj2 (Z.ltb_lt s 60)) in Hfacts by lia.
    apply andb_prop in Hfacts as [[-> ->%Z.eqb_eq]%andb_prop ->%eqb_prop].
    done.
  - rewrite (proj2 (Z.ltb_ge s 60)), (proj2 (Z.ltb_lt s 3600)) in Hfacts by lia.
    apply andb_prop in Hfacts as [[->%negb_true_iff ->]%andb_prop ->%Z.eqb_eq].
    done.
  - rewrite (proj2 (Z.ltb_ge s 60)), (proj2 (Z.ltb_ge s 3600)),
      (proj2 (Z.ltb_lt s 86400)) in Hfacts by lia.
    apply andb_prop in Hfacts
      as [[[->%negb_true_iff ->%negb_true_iff]%andb_prop ->]%andb_prop ->%eqb_prop].
    done.
  - rewrite (proj2 (Z.ltb_ge s 60)), (proj2 (Z.ltb_ge s 3600)),
      (proj2 (Z.ltb_ge s 86400)) in Hfacts by lia.
    apply andb_prop in Hfacts
      as [[[[->%negb_true_iff ->%negb_true_iff]%andb_prop
              ->%negb_true_iff]%andb_prop ->]%andb_prop ->%eqb_prop].
    done.
Qed.

(** One outcome of the loop: the unit [n] it stops at. *)
Ltac scale_case n Hbelow :=
  exists n; split; [lia|]; split; [done|]; split;
  [ rewrite ?Hbelow; repeat split; try done; intros; lia
  | first [by left | by right] ].

(** The loop of [human_readable_bytes] divides while the value is at least
    1024 and the unit is below the last one; its fuel never runs out before
    the loop's own test fails. *)
Lemma scale_spec x :
  ∃ n, (n ≤ 4)%nat
       ∧ scale (length power_labels - 1) x 0 = (scaled x n, n)
       ∧ (∀ i, (i < n)%nat → (1024 <=? scaled x i)%float = true)
       ∧ (n = 4%nat ∨ (1024 <=? scaled x n)%float = false).
Proof.
  assert (∀ n (P : nat → Prop), (∀ i, (i < S n)%nat → P i) ↔ P n ∧ ∀ i, (i < n)%nat → P i)
    as Hbelow.
  { intros n P. split.
    - intros HP. split; [apply HP; lia|]. intros i Hi. apply HP. lia.
    - intros [Hn HP] i Hi. destruct (decide (i = n)) as [->|]; [done|]. apply HP. lia. }
  simpl.
  destruct (1024 <=? x)%float eqn:H0; simpl; [|scale_case 0%nat Hbelow].
  destruct (1024 <=? x / 1024)%float eqn:H1; simpl; [|scale_case 1%nat Hbelow].
  destruct (1024 <=? x / 1024 / 1024)%float eqn:H2; simpl; [|scale_case 2%nat Hbelow].
  destruct (1024 <=? x / 1024 / 1024 / 1024)%float eqn:H3; simpl;
    [|scale_case 3%nat Hbelow].
  scale_case 4%nat Hbelow.
Qed.

Lemma round_half_even_nonneg m e : 0 ≤ m → 0 ≤ round_half_even m e.
Proof.
  intros Hm. unfold round_half_even.
  destruct (0 <=? e) eqn:He.
  - apply Z.leb_le in He. apply Z.mul_nonneg_nonneg; [done|]. by apply Z.pow_nonneg.
  - apply Z.leb_gt in He.
    assert (0 < 2 ^ (- e)) by (apply Z.pow_pos_nonneg; lia).
    assert (0 ≤ m / 2 ^ (- e)) by (apply Z.div_pos; lia).
    repeat case_match; lia.
Qed.

(** [f"{x:.1f}"] has exactly one digit after the point. *)
Lemma format_1f_shape x :
  format_1f x ∈ ["nan"; "inf"; "-inf"]
  ∨ ∃ sign whole tenth,
      (sign = "" ∨ sign = "-") ∧ 0 ≤ whole ∧ 0 ≤ tenth ≤ 9
      ∧ format_1f x = sign +:+ str_of_Z whole +:+ "." +:+ str_of_Z tenth.
Proof.
  unfold format_1f. destruct (Prim2SF x) as [s|s| |s m e].
  - right. exists (if s then "-" else ""), 0, 0.
    split; [destruct s; auto|]. split; [lia|]. split; [lia|]. by destruct s.
  - left. destruct s; set_solver.
  - left. set_solver.
  - right.
    pose proof (round_half_even_nonneg (10 * Z.pos m) e ltac:(lia)) as Ht.
    set (t := round_half_even (10 * Z.pos m) e) in *.
    exists (if s then "-" else ""), (t / 10), (t mod 10).
    pose proof (Z.mod_pos_bound t 10 ltac:(lia)).
    split; [destruct s; auto|]. split; [apply Z.div_pos; lia|]. split; [lia|]. done.
Qed.

(** C8.  0 gives ["0B"], 1536 ["1.5KB"], 1073741824 ["1.0GB"], a missing or
    negative size ["N/A"].  A positive size is divided by 1024 as long as it
    is at least 1024 and the unit is not yet the last of ["", K, M, G, T],
    and is printed with that unit and one digit after the point. *)
Theorem C8_human_readable_bytes :
  human_readable_bytes (Some 0) = "0B"
  ∧ human_readable_bytes (Some 1536) = "1.5KB"
  ∧ human_readable_bytes (Some 1073741824) = "1.0GB"
  ∧ human_readable_bytes None = "N/A"
  ∧ (∀ s, s < 0 → human_readable_bytes (Some s) = "N/A")
  ∧ (∀ s, 0 < s →
       ∃ n label,
         [""; "K"; "M"; "G"; "T"] !! n = Some label
         ∧ human_readable_bytes (Some s)
           = format_1f (scaled (of_Z s) n) +:+ label +:+ "B"
         ∧ (∀ i, (i < n)%nat → (1024 <=? scaled (of_Z s) i)%float = true)
         ∧ (n = 4%nat ∨ (1024 <=? scaled (of_Z s) n)%float = false))
  ∧ (∀ x, format_1f x ∈ ["nan"; "inf"; "-inf"]
          ∨ ∃ sign whole tenth,
              (sign = "" ∨ sign = "-") ∧ 0 ≤ whole ∧ 0 ≤ tenth ≤ 9
              ∧ format_1f x = sign +:+ str_of_Z whole +:+ "." +:+ str_of_Z tenth)
  ∧ human_readable_bytes (Some 1) = "1.0B"
  ∧ human_readable_bytes (Some 1023) = "1023.0B"
  ∧ human_readable_bytes (Some 1024) = "1.0KB"
  ∧ human_readable_bytes (Some 1280) = "1.2KB"
  ∧ human_readable_bytes (Some 1048575) = "1024.0KB"
  ∧ human_readable_bytes (Some 1048576) = "1.0MB"
  ∧ human_readable_bytes (Some 1099511627776) = "1.0TB"
  ∧ human_readable_bytes (Some 1125899906842624) = "1024.0TB".
Proof.
  split; [by vm_compute|]. split; [by vm_compute|]. split; [by vm_compute|].
  split; [done|].
  split. { intros s Hs. unfold human_readable_bytes. by rewrite (proj2 (Z.ltb_lt s 0)). }
  split.
  { intros s Hs. unfold human_readable_bytes.
    rewrite (proj2 (Z.ltb_ge s 0)), (proj2 (Z.eqb_neq s 0)) by lia.
    destruct (scale_spec (of_Z s)) as (n & Hn & -> & Hdiv & Hstop).
    assert (is_Some (power_labels !! n)) as [label Hlabel].
    { apply lookup_lt_is_Some. simpl. lia. }
    exists n, label. rewrite Hlabel. done. }
  split; [apply format_1f_shape|].
  repeat split; by vm_compute.
Qed.

(** ** The report *)

Lemma bind_inr {A B} (m : M A) (k : A → M B) w a w' :
  m w = (inr a, w') → (m ≫= k) w = k a w'.
Proof. intros H. unfold mbind, M_bind, bind. by rewrite H. Qed.

Lemma all_empty_read_key changes d : all_empty changes → all_empty (read_key changes d).
Proof.
  intros H d' inner. unfold read_key. rewrite lookup_insert.
  case_decide; [by intros [= <-]|apply H].
Qed.

Lemma read_key_idemp c d : read_key (read_key c d) d = read_key c d.
Proof. apply insert_insert_eq. Qed.

Lemma all_empty_foldl_read_key l c : all_empty c → all_empty (foldl read_key c l).
Proof.
  revert c. induction l as [|d l IH]; intros c H; simpl; [done|].
  by apply IH, all_empty_read_key.
Qed.

Lemma foldl_read_key_non_empty l c : l ≠ [] → foldl read_key c l ≠ ∅.
Proof.
  destruct l as [|d l _] using rev_ind; [done|]. intros _.
  rewrite foldl_app. simpl. apply insert_non_empty.
Qed.

(** Reading the bucket of a directory without divergences gives the empty
    bucket and stores it. *)
Lemma getitem_all_empty d c out err :
  all_empty c →
  getitem d (mk_world c out err) = (inr ∅, mk_world (read_key c d) out err).
Proof.
  intros H. unfold getitem, read_key. simpl.
  destruct (c !! d) as [inner|] eqn:Hd; [|done].
  pose proof (H _ _ Hd) as ->. by rewrite insert_id.
Qed.

Lemma summary_row_all_empty d c out err :
  all_empty c →
  summary_row d (mk_world c out err)
  = (inr tt, mk_world (read_key c d) (out ++ [table_row d "0" "0" "0" "0" "0"])%list err).
Proof.
  intros H. unfold summary_row.
  erewrite bind_inr by by apply getitem_all_empty.
  pose proof (all_empty_read_key c d H) as H'.
  do 4 (erewrite bind_inr by (by apply getitem_all_empty); rewrite read_key_idemp).
  done.
Qed.

Lemma for_each_summary_row l c out err :
  all_empty c →
  for_each l summary_row (mk_world c out err)
  = (inr tt, mk_world (foldl read_key c l)
               (out ++ ((λ d, table_row d "0" "0" "0" "0" "0") <$> l))%list err).
Proof.
  revert c out. induction l as [|d l IH]; intros c out H; simpl.
  - by rewrite app_nil_r.
  - erewrite bind_inr by by apply summary_row_all_empty.
    rewrite IH by by apply all_empty_read_key. by rewrite <- app_assoc.
Qed.

Lemma detail_directory_all_empty
    source_map dest_map show_all show_fix p sn dn d c out err :
  all_empty c →
  detail_directory source_map dest_map show_all show_fix p sn dn d (mk_world c out err)
  = (inr tt, mk_world (read_key c d) out err).
Proof.
  intros H. unfold detail_directory.
  erewrite bind_inr by by apply getitem_all_empty.
  by rewrite bool_decide_eq_true_2.
Qed.

Lemma for_each_detail_directory
    source_map dest_map show_all show_fix p sn dn l c out err :
  all_empty c →
  for_each l (detail_directory source_map dest_map show_all show_fix p sn dn)
    (mk_world c out err)
  = (inr tt, mk_world (foldl read_key c l) out err).
Proof.
  revert c. induction l as [|d l IH]; intros c H; simpl; [done|].
  erewrite bind_inr by by apply detail_directory_all_empty.
  by rewrite IH by by apply all_empty_read_key.
Qed.

Lemma total_size_empty m kind : total_size ∅ m kind = 0.
Proof. unfold total_size. by rewrite map_to_list_empty. Qed.

Lemma all_dirs_sorted_nil (source_map dest_map : file_map) :
  all_dirs_sorted source_map dest_map = [] ↔ source_map = ∅ ∧ dest_map = ∅.
Proof.
  unfold all_dirs_sorted, sorted.
  rewrite <- Permutation_nil_r, merge_sort_Permutation, Permutation_nil_r.
  rewrite elements_empty_iff, <- !dom_empty_iff.
  rewrite !set_equiv. setoid_rewrite elem_of_union. setoid_rewrite elem_of_map.
  split.
  - intros H. split; intros p; (split; [|set_solver]);
      intros Hp; apply (H (get_dir_key p)); eauto.
  - intros [Hs Hd] k. set_solver.
Qed.

(** The report of an empty change set, for any two listings: the summary
    table with a row of zeros for every directory, and then the notice only
    when both listings are empty; with any file in either listing the title
    of the detail section comes instead, and nothing after it. *)
Lemma print_report_without_differences
    (source_map dest_map : file_map) show_all show_fix p sn dn out err :
  let dirs := all_dirs_sorted source_map dest_map in
  let header :=
    table_row "Directory" (dn +:+ " only") (sn +:+ " only") "Size Change"
      (dn +:+ " Newer") (sn +:+ " Newer") in
  let rule := repeat_char "-" (py_len header) in
  ∃ changes',
    print_report source_map dest_map show_all show_fix p sn dn (mk_world ∅ out err)
    = (inr tt,
       mk_world changes'
         (out ++ [newline +:+ "--- Summary of Differences ---"; header; rule]
              ++ ((λ d, table_row d "0" "0" "0" "0" "0") <$> dirs)
              ++ [rule; table_row "TOTAL SIZE" "0B" "0B" "" "" "";
                  if decide (source_map = ∅ ∧ dest_map = ∅)
                  then newline +:+ "No differences found."
                  else newline +:+ "--- Details of Differences ---"])%list
         err).
Proof.
  intros dirs header rule.
  assert (all_empty (∅ : change_set)) as H0 by (intros d inner; by rewrite lookup_empty).
  pose proof (all_dirs_sorted_nil source_map dest_map) as Hnil. fold dirs in Hnil.
  unfold print_report. fold (all_dirs_sorted source_map dest_map). fold dirs.
  clearbody dirs.
  erewrite bind_inr by reflexivity. cbn [changes_of stdout stderr].
  rewrite !total_size_empty.
  change (human_readable_bytes (Some 0)) with "0B".
  fold header. fold rule. clearbody header rule.
  do 3 (erewrite bind_inr by reflexivity; cbn [changes_of stdout stderr]).
  erewrite bind_inr by (by apply for_each_summary_row).
  do 3 (erewrite bind_inr by reflexivity; cbn [changes_of stdout stderr]).
  destruct (decide (source_map = ∅ ∧ dest_map = ∅)) as [Hempty|Hfiles].
  - apply Hnil in Hempty as ->. simpl foldl.
    rewrite bool_decide_eq_true_2 by done.
    eexists. unfold print. cbn [changes_of stdout stderr].
    rewrite <- !app_assoc. reflexivity.
  - assert (dirs ≠ []) as Hdirs by (by rewrite Hnil).
    rewrite bool_decide_eq_false_2 by by apply foldl_read_key_non_empty.
    erewrite bind_inr by reflexivity. cbn [changes_of stdout stderr].
    rewrite for_each_detail_directory by by apply all_empty_foldl_read_key.
    eexists. rewrite <- !app_assoc. reflexivity.
Qed.

(** A listing compared with itself has no divergence. *)
Lemma compare_common_same (m : file_map) changes path :
  compare_common m m changes path = changes.
Proof.
  unfold compare_common. destruct (m !! path) as [f|]; [|done].
  by rewrite Z.eqb_refl, bool_decide_eq_true_2.
Qed.

Lemma compare_listings_same set_iter (m : file_map) :
  set_iteration set_iter → compare_listings set_iter m m = ∅.
Proof.
  intros Hit. unfold compare_listings.
  assert (set_iter (dom m ∖ dom m) = []) as ->.
  { apply Permutation_nil_r. rewrite (Hit _), difference_diag_L. by rewrite elements_empty. }
  simpl. generalize (set_iter (dom m ∩ dom m)). intros l.
  induction l as [|p l IH]; simpl; [done|]. by rewrite compare_common_same.
Qed.

(** So the report of any listing compared with itself ends with the title of
    the detail section as soon as the listing holds a file. *)
Lemma report_of_identical_listings
    set_iter (m : file_map) show_all show_fix p sn dn :
  set_iteration set_iter → m ≠ ∅ →
  ∃ lines,
    stdout (run (print_report m m show_all show_fix p sn dn)
                (compare_listings set_iter m m)).2
    = (lines ++ [newline +:+ "--- Details of Differences ---"])%list.
Proof.
  intros Hit Hm. rewrite compare_listings_same by done. unfold run.
  destruct (print_report_without_differences m m show_all show_fix p sn dn [] [])
    as [changes' ->].
  rewrite decide_False by naive_solver. simpl.
  eexists (_ :: _ :: _ :: (_ ++ [_; _])%list). simpl. do 3 f_equal.
  by rewrite <- app_assoc.
Qed.

(** C4.  Two identical listings of one file compare to an empty change set,
    and yet the report does not stop after the summary table: the row of
    [foo] reads [changes["foo"]], which stores an empty bucket, so [changes]
    is no longer empty when it is tested; the title of the detail section is
    printed and the notice is not.  Only two empty listings give the summary
    table followed by the notice. *)
Theorem C4_detail_title_printed_without_differences :
  let header :=
    table_row "Directory" "nas only" "coldstorage only" "Size Change" "nas Newer"
      "coldstorage Newer" in
  let rule := repeat_char "-" 109 in
  compare_listings elements Scenario.same Scenario.same = ∅
  ∧ Scenario.stdout_of Scenario.plain Scenario.same Scenario.same
    = [ newline +:+ "--- Summary of Differences ---"; header; rule;
        table_row "foo" "0" "0" "0" "0" "0"; rule;
        table_row "TOTAL SIZE" "0B" "0B" "" "" "";
        newline +:+ "--- Details of Differences ---" ]
  ∧ (newline +:+ "No differences found."
     ∉ Scenario.stdout_of Scenario.plain Scenario.same Scenario.same)
  ∧ Scenario.stdout_of Scenario.plain ∅ ∅
    = [ newline +:+ "--- Summary of Differences ---"; header; rule; rule;
        table_row "TOTAL SIZE" "0B" "0B" "" "" "";
        newline +:+ "No differences found." ].
Proof.
  assert (Scenario.stdout_of Scenario.plain Scenario.same Scenario.same
          = [ newline +:+ "--- Summary of Differences ---";
              table_row "Directory" "nas only" "coldstorage only" "Size Change"
                "nas Newer" "coldstorage Newer";
              repeat_char "-" 109;
              table_row "foo" "0" "0" "0" "0" "0"; repeat_char "-" 109;
              table_row "TOTAL SIZE" "0B" "0B" "" "" "";
              newline +:+ "--- Details of Differences ---" ]) as Hout
    by (vm_compute; reflexivity).
  intros header rule. split; [by vm_compute|]. split; [done|]. split.
  - rewrite Hout. intros Hin. vm_compute in Hin.
    repeat (apply elem_of_cons in Hin as [[=]|Hin]). by apply elem_of_nil in Hin.
  - by vm_compute.
Qed.

(** C5.  With two directories that have divergences, [--show-fix] prints
    the whole list of commands, for both directories, once under each
    directory's heading: the commands of every directory come twice.  No
    line of the detail listing is printed. *)
Theorem C5_fix_commands_repeated_per_directory :
  let q := dquote in
  let header :=
    table_row "Directory" "nas only" "coldstorage only" "Size Change" "nas Newer"
      "coldstorage Newer" in
  let rule := repeat_char "-" 109 in
  let heading d := newline +:+ "Directory: " +:+ d +:+ newline +:+ "------------------------" in
  let fix_commands :=
    [ newline +:+ "--- Fix Commands (to run on nas server) ---";
      newline +:+ "# Copy NEW files for directory: a";
      "mkdir -p " +:+ q +:+ "/mnt/user/a" +:+ q;
      "scp " +:+ q +:+ "byron@coldstorage:/mnt/backup/a/x" +:+ q +:+ " "
        +:+ q +:+ "/mnt/user/a/x" +:+ q;
      newline +:+ "# Copy NEW files for directory: b";
      "mkdir -p " +:+ q +:+ "/mnt/user/b" +:+ q;
      "scp " +:+ q +:+ "byron@coldstorage:/mnt/backup/b/y" +:+ q +:+ " "
        +:+ q +:+ "/mnt/user/b/y" +:+ q ] in
  Scenario.stdout_of Scenario.with_fix Scenario.two_dirs ∅
  = ([ newline +:+ "--- Summary of Differences ---"; header; rule;
       table_row "a" "0" "1" "0" "0" "0"; table_row "b" "0" "1" "0" "0" "0"; rule;
       table_row "TOTAL SIZE" "0B" "3.0B" "" "" "";
       newline +:+ "--- Details of Differences ---" ]
     ++ [heading "a"] ++ fix_commands ++ [heading "b"] ++ fix_commands)%list.
Proof. by vm_compute. Qed.

(** ** The theorems at concrete listings *)

Lemma C1_witness :
  let changes := compare_listings elements Scenario.source Scenario.dest in
  ("foo/a.txt" ∈ paths_of changes (get_dir_key "foo/a.txt") "size_changed")
  ∧ (∀ d k, "foo/a.txt" ∈ paths_of changes d k
            → d = get_dir_key "foo/a.txt" ∧ k = "size_changed")
  ∧ (∀ d, ("foo/a.txt" ∉ paths_of changes d "nas_newer")
          ∧ ("foo/a.txt" ∉ paths_of changes d "cs_newer")).
Proof.
  apply (C1_size_mismatch_takes_precedence elements Scenario.source Scenario.dest
           "foo/a.txt" (mk_file_info 100 Scenario.T) (mk_file_info 200 Scenario.T)).
  - intros X. reflexivity.
  - reflexivity.
  - reflexivity.
  - simpl. lia.
Defined.

Lemma C2_witness :
  let source_file := mk_file_info 7 Scenario.T in
  let dest_file := mk_file_info 7 Scenario.T_later in
  let path := "m/new_on_dest" in
  let changes := compare_listings elements Scenario.timed_source Scenario.timed_dest in
  (mod_time source_file ≠ mod_time dest_file →
     (path ∈ paths_of changes (get_dir_key path) "nas_newer"
      ↔ gtb (mod_time dest_file) (mod_time source_file) = true)
     ∧ (path ∈ paths_of changes (get_dir_key path) "cs_newer"
        ↔ gtb (mod_time dest_file) (mod_time source_file) = false)
     ∧ (gtb (mod_time dest_file) (mod_time source_file) = false
        ↔ gtb (mod_time source_file) (mod_time dest_file) = true)
     ∧ (∀ d k, path ∈ paths_of changes d k →
               d = get_dir_key path ∧ (k = "nas_newer" ∨ k = "cs_newer"))
     ∧ ¬ (path ∈ paths_of changes (get_dir_key path) "nas_newer"
          ∧ path ∈ paths_of changes (get_dir_key path) "cs_newer"))
  ∧ (mod_time source_file = mod_time dest_file →
     ∀ d k, path ∉ paths_of changes d k).
Proof.
  apply (C2_timestamp_classification elements Scenario.timed_source Scenario.timed_dest
           "m/new_on_dest" (mk_file_info 7 Scenario.T) (mk_file_info 7 Scenario.T_later)).
  - intros X. reflexivity.
  - reflexivity.
  - reflexivity.
  - reflexivity.
Defined.

Lemma C3_witness :
  let path := "bar/z.txt" in
  let changes := compare_listings elements Scenario.source Scenario.dest in
  (path ∈ dom Scenario.dest ∖ dom Scenario.source →
     path ∈ paths_of changes (get_dir_key path) "nas_only"
     ∧ ∀ d k, path ∈ paths_of changes d k → d = get_dir_key path ∧ k = "nas_only")
  ∧ (path ∈ dom Scenario.source ∖ dom Scenario.dest →
     path ∈ paths_of changes (get_dir_key path) "cs_only"
     ∧ ∀ d k, path ∈ paths_of changes d k → d = get_dir_key path ∧ k = "cs_only")
  ∧ (∀ d k d' k', path ∈ paths_of changes d k → path ∈ paths_of changes d' k' →
                  d = d' ∧ k = k')
  ∧ (∀ d k, path ∈ paths_of changes d k → d = get_dir_key path)
  ∧ (∀ d k, NoDup (paths_of changes d k)).
Proof.
  apply (C3_symmetric_difference_classified elements Scenario.source Scenario.dest
           "bar/z.txt").
  intros X. reflexivity.
Defined.

Lemma C6_witness :
  human_readable_time (-45)
  = str_of_Z (Z.abs (-45)) +:+ " second" +:+ plural (negb (Z.abs (-45) =? 1)).
Proof.
  destruct C6_human_readable_time as (_ & _ & _ & _ & Hrule & _).
  apply (Hrule (-45)). simpl. lia.
Defined.

Lemma C7_witness :
  get_dir_key "notes.txt" = "(root)"
  ∧ ∃ rest, "foo/a.txt" = get_dir_key "foo/a.txt" +:+ "/" +:+ rest
            ∧ ¬ In "/"%char (list_ascii_of_string (get_dir_key "foo/a.txt")).
Proof.
  split.
  - apply (C7_directory_key "notes.txt"). simpl. intros H.
    repeat (destruct H as [H|H]; [discriminate H|]). exact H.
  - apply (C7_directory_key "foo/a.txt"). simpl. auto.
Defined.

Lemma C8_witness :
  human_readable_bytes (Some (-1)) = "N/A"
  ∧ ∃ n label,
      [""; "K"; "M"; "G"; "T"] !! n = Some label
      ∧ human_readable_bytes (Some 1536)
        = format_1f (scaled (of_Z 1536) n) +:+ label +:+ "B"
      ∧ (∀ i, (i < n)%nat → (1024 <=? scaled (of_Z 1536) i)%float = true)
      ∧ (n = 4%nat ∨ (1024 <=? scaled (of_Z 1536) n)%float = false).
Proof.
  destruct C8_human_readable_bytes as (_ & _ & _ & _ & Hneg & Hpos & _).
  split; [apply (Hneg (-1)); lia|apply (Hpos 1536); lia].
Defined.

Lemma C9_witness :
  let args := mk_arguments ["foo"; "bar"] ["bar"] false false in
  let keys := tlds_to_process args Scenario.source Scenario.dest in
  keys = {["foo"]}
  ∧ (∀ path, filter_map keys Scenario.source !! path
             = if decide (get_dir_key path = "foo") then Scenario.source !! path else None)
  ∧ (∀ path, filter_map keys Scenario.dest !! path
             = if decide (get_dir_key path = "foo") then Scenario.dest !! path else None).
Proof.
  destruct (C9_scope_filtering (mk_arguments ["foo"; "bar"] ["bar"] false false)
              Scenario.source Scenario.dest) as (_ & _ & _ & Hcase).
  apply (Hcase "foo" "bar").
  - discriminate.
  - vm_compute. reflexivity.
  - vm_compute. reflexivity.
Defined.

Lemma C10_witness :
  let changes := compare_listings elements Scenario.timed_source Scenario.timed_dest in
  get_dir_key "/abs" = ""
  ∧ (∀ d k, "/abs" ∈ paths_of changes d k → d = "")
  ∧ "/abs" ∈ paths_of changes "" "nas_only".
Proof.
  destruct (C10_leading_separator_gives_empty_key "abs") as (Hkey & _ & Hbucket).
  destruct (Hbucket elements Scenario.timed_source Scenario.timed_dest
              ltac:(intros X; reflexivity)) as (Hdir & Hnas & _).
  split; [exact Hkey|]. split; [exact Hdir|].
  apply Hnas. vm_compute. set_solver.
Defined.

(** * Further properties *)

(** ** The comparator and the scope filter *)


Lemma kind_of_None (source_map dest_map : file_map) p :
  kind_of source_map dest_map p = None ↔ source_map !! p = dest_map !! p.
Proof.
  unfold kind_of, common_kind.
  destruct (source_map !! p) as [[ss st]|], (dest_map !! p) as [[ds dt]|]; simpl;
    try (split; [done|done]); try done.
  destruct (Z.eqb_spec ss ds) as [->|Hs]; simpl.
  - destruct (decide (st = dt)) as [->|Ht].
    + by rewrite bool_decide_eq_true_2.
    + rewrite bool_decide_eq_false_2 by done. simpl.
      destruct (gtb dt st); split; try done; intros [=]; done.
  - split; [done|]. intros [=]. done.
Qed.

(** A path is listed in some bucket exactly when the two listings differ at
    it: when it is on one side only, or on both with another size or time. *)
Theorem listed_iff_listings_differ set_iter (source_map dest_map : file_map) path :
  set_iteration set_iter →
  (∃ d k, path ∈ paths_of (compare_listings set_iter source_map dest_map) d k)
  ↔ source_map !! path ≠ dest_map !! path.
Proof.
  intros Hit. rewrite <- kind_of_None. split.
  - intros (d & k & [_ Hk]%elem_of_compare_listings); [|done]. by rewrite Hk.
  - intros Hk. destruct (kind_of source_map dest_map path) as [k|] eqn:Hkind; [|done].
    exists (get_dir_key path), k. by apply elem_of_compare_listings.
Qed.

Lemma listed_iff_listings_differ_witness :
  (∃ d k, "bar/z.txt" ∈ paths_of (compare_listings elements Scenario.source Scenario.dest) d k)
  ↔ Scenario.source !! "bar/z.txt" ≠ Scenario.dest !! "bar/z.txt".
Proof.
  apply (listed_iff_listings_differ elements Scenario.source Scenario.dest "bar/z.txt").
  intros X. reflexivity.
Defined.

Lemma populated_empty : populated ∅.
Proof. intros d inner. by rewrite lookup_empty. Qed.

Lemma populated_append changes d k path :
  k ∈ KINDS → populated changes → populated (append_change changes d k path).
Proof.
  intros Hk H d' inner. unfold append_change. rewrite lookup_insert.
  case_decide as Hd; [|apply H].
  intros [= <-]. split; [apply insert_non_empty|].
  intros k' l. rewrite lookup_insert. case_decide as Hk'.
  - intros [= <-]. subst. split; [done|]. by destruct (default [] _).
  - intros Hl. destruct (changes !! d) as [inner|] eqn:Hin; simpl in Hl.
    + by apply (H d inner).
    + by rewrite lookup_empty in Hl.
Qed.

Lemma populated_compare_common source_map dest_map changes path :
  populated changes → populated (compare_common source_map dest_map changes path).
Proof.
  intros H. unfold compare_common.
  repeat case_match; try done; apply populated_append; try done; unfold KINDS; set_solver.
Qed.

Lemma populated_foldl {A} (f : change_set → A → change_set) l changes :
  (∀ c x, populated c → populated (f c x)) → populated changes → populated (foldl f changes l).
Proof.
  intros Hf. revert changes. induction l as [|x l IH]; intros c H; simpl; [done|].
  by apply IH, Hf.
Qed.

Lemma populated_compare_listings set_iter (source_map dest_map : file_map) :
  populated (compare_listings set_iter source_map dest_map).
Proof.
  unfold compare_listings.
  apply populated_foldl; [intros; by apply populated_compare_common|].
  apply populated_foldl; [intros; apply populated_append; [unfold KINDS; set_solver|done]|].
  apply populated_foldl; [intros; apply populated_append; [unfold KINDS; set_solver|done]|].
  apply populated_empty.
Qed.

(** Whatever the enumeration order, the comparator stores no empty bucket,
    no empty list, and no kind but the five: a directory is a key of the
    change set only when it has a divergence. *)
Theorem compare_listings_populated set_iter (source_map dest_map : file_map) d inner :
  compare_listings set_iter source_map dest_map !! d = Some inner →
  inner ≠ ∅ ∧ ∀ k l, inner !! k = Some l → k ∈ KINDS ∧ l ≠ [].
Proof. apply populated_compare_listings. Qed.

Lemma compare_listings_populated_witness :
  let inner : bucket := {["nas_only" := ["bar/z.txt"]]} in
  inner ≠ ∅ ∧ ∀ k l, inner !! k = Some l → k ∈ KINDS ∧ l ≠ [].
Proof.
  apply (compare_listings_populated elements Scenario.source Scenario.dest "bar").
  vm_compute. reflexivity.
Defined.

Lemma paths_of_all_nil (changes : change_set) :
  populated changes → (∀ d k, paths_of changes d k = []) → changes = ∅.
Proof.
  intros Hpop Hnil. apply map_empty. intros d.
  destruct (changes !! d) as [inner|] eqn:Hd; [|done].
  destruct (Hpop d inner Hd) as [Hne Hk].
  apply map_choose in Hne as (k & l & Hl).
  destruct (Hk k l Hl) as [_ Hl'].
  specialize (Hnil d k). unfold paths_of in Hnil.
  rewrite Hd in Hnil. simpl in Hnil. rewrite Hl in Hnil. done.
Qed.

(** The change set is empty exactly when the two listings are equal. *)
Theorem compare_listings_empty_iff_equal set_iter (source_map dest_map : file_map) :
  set_iteration set_iter →
  compare_listings set_iter source_map dest_map = ∅ ↔ source_map = dest_map.
Proof.
  intros Hit. split.
  - intros Hempty. apply map_eq. intros p.
    apply kind_of_None.
    destruct (kind_of source_map dest_map p) as [k|] eqn:Hkind; [|done].
    assert (p ∈ paths_of (compare_listings set_iter source_map dest_map) (get_dir_key p) k)
      as Hin by by apply elem_of_compare_listings.
    rewrite Hempty, paths_of_empty in Hin. by apply elem_of_nil in Hin.
  - intros ->. by apply compare_listings_same.
Qed.

Lemma compare_listings_empty_iff_equal_witness :
  compare_listings elements Scenario.same Scenario.same = ∅ ↔ Scenario.same = Scenario.same.
Proof.
  apply (compare_listings_empty_iff_equal elements Scenario.same Scenario.same).
  intros X. reflexivity.
Defined.

(** Every directory of the change set is the key of a path of one of the
    listings, so the report's loops over the directories of the listings
    reach every directory that has a divergence. *)
Theorem changed_directories_are_listed set_iter (source_map dest_map : file_map) d :
  set_iteration set_iter →
  d ∈ dom (compare_listings set_iter source_map dest_map) →
  d ∈ all_dir_keys source_map dest_map.
Proof.
  intros Hit [inner Hd]%elem_of_dom.
  destruct (populated_compare_listings set_iter source_map dest_map d inner Hd) as [Hne Hk].
  apply map_choose in Hne as (k & l & Hl).
  destruct (Hk k l Hl) as [_ Hl'].
  destruct l as [|p l]; [done|].
  assert (p ∈ paths_of (compare_listings set_iter source_map dest_map) d k) as Hin.
  { unfold paths_of. rewrite Hd. simpl. rewrite Hl. simpl. set_solver. }
  apply elem_of_compare_listings in Hin as [-> Hkind]; [|done].
  unfold all_dir_keys. apply elem_of_map. exists p. split; [done|].
  rewrite elem_of_union, !elem_of_dom. unfold kind_of in Hkind.
  destruct (source_map !! p), (dest_map !! p); naive_solver.
Qed.

Lemma changed_directories_are_listed_witness :
  "bar" ∈ all_dir_keys Scenario.source Scenario.dest.
Proof.
  apply (changed_directories_are_listed elements Scenario.source Scenario.dest "bar").
  - intros X. reflexivity.
  - vm_compute. set_solver.
Defined.

Lemma kind_of_swap (source_map dest_map : file_map) p :
  kind_of dest_map source_map p = swap_kind <$> kind_of source_map dest_map p.
Proof.
  unfold kind_of, common_kind.
  destruct (source_map !! p) as [[ss st]|], (dest_map !! p) as [[ds dt]|]; simpl; try done.
  rewrite (Z.eqb_sym ds ss).
  destruct (ss =? ds); simpl; [|done].
  destruct (decide (st = dt)) as [->|Ht].
  - by rewrite bool_decide_eq_true_2.
  - rewrite !bool_decide_eq_false_2 by done. simpl.
    rewrite (gtb_connex st dt) by done. by destruct (gtb dt st).
Qed.

Lemma swap_kind_involutive k : k ∈ KINDS → swap_kind (swap_kind k) = k.
Proof. unfold KINDS. intros Hk. repeat (apply elem_of_cons in Hk as [->|Hk]; [done|]). by apply elem_of_nil in Hk. Qed.

Lemma kind_of_KINDS (source_map dest_map : file_map) path k :
  kind_of source_map dest_map path = Some k → k ∈ KINDS.
Proof.
  unfold kind_of, common_kind, KINDS.
  destruct (source_map !! path) as [sf|], (dest_map !! path) as [df|];
    [|intros [= <-]; set_solver..|done].
  destruct (negb _); [intros [= <-]; set_solver|].
  destruct (negb _); [|done].
  destruct (gtb _ _); intros [= <-]; set_solver.
Qed.

(** Comparing in the other direction gives the same divergences with the
    roles exchanged: [nas_only] and [cs_only], [nas_newer] and [cs_newer]
    change places, [size_changed] stays. *)
Theorem compare_listings_swap set_iter set_iter' (source_map dest_map : file_map) d k path :
  set_iteration set_iter → set_iteration set_iter' →
  path ∈ paths_of (compare_listings set_iter source_map dest_map) d k
  ↔ k ∈ KINDS ∧ path ∈ paths_of (compare_listings set_iter' dest_map source_map) d (swap_kind k).
Proof.
  intros Hit Hit'. rewrite !elem_of_compare_listings by done.
  rewrite (kind_of_swap source_map dest_map).
  split.
  - intros [-> Hk]. rewrite Hk. split; [by eapply kind_of_KINDS|done].
  - intros (Hkin & -> & Hswap). split; [done|].
    destruct (kind_of source_map dest_map path) as [k0|] eqn:Hk0; [|done].
    simpl in Hswap. injection Hswap as Hswap.
    f_equal. rewrite <- (swap_kind_involutive k0) by by eapply kind_of_KINDS.
    rewrite Hswap. by apply swap_kind_involutive.
Qed.

Lemma compare_listings_swap_witness :
  "bar/z.txt" ∈ paths_of (compare_listings elements Scenario.source Scenario.dest) "bar" "nas_only"
  ↔ "nas_only" ∈ KINDS
    ∧ "bar/z.txt" ∈ paths_of (compare_listings elements Scenario.dest Scenario.source)
                      "bar" (swap_kind "nas_only").
Proof.
  apply (compare_listings_swap elements elements Scenario.source Scenario.dest
           "bar" "nas_only" "bar/z.txt").
  - intros X. reflexivity.
  - intros X. reflexivity.
Defined.


Lemma filter_never {A} (P : A → Prop) `{∀ x, Decision (P x)} (l : list A) :
  (∀ x, ¬ P x) → filter P l = [].
Proof.
  intros HP. induction l as [|x l IH]; [done|].
  by rewrite filter_cons_False.
Qed.

Lemma common_kind_values (source_map dest_map : file_map) p k :
  common_kind source_map dest_map p = Some k →
  k = "size_changed" ∨ k = "nas_newer" ∨ k = "cs_newer".
Proof.
  unfold common_kind. repeat case_match; naive_solver.
Qed.

(** The paths of a bucket are in the order in which the loop that fills it
    enumerates its set, whatever that order is. *)
Theorem buckets_keep_enumeration_order set_iter (source_map dest_map : file_map) d :
  let changes := compare_listings set_iter source_map dest_map in
  paths_of changes d "nas_only"
  = filter (λ p, get_dir_key p = d) (set_iter (dom dest_map ∖ dom source_map))
  ∧ paths_of changes d "cs_only"
    = filter (λ p, get_dir_key p = d) (set_iter (dom source_map ∖ dom dest_map))
  ∧ ∀ k, k ∈ ["size_changed"; "nas_newer"; "cs_newer"] →
      paths_of changes d k
      = filter (λ p, get_dir_key p = d ∧ common_kind source_map dest_map p = Some k)
               (set_iter (dom source_map ∩ dom dest_map)).
Proof.
  intros changes. unfold changes. split; [|split].
  - rewrite compare_listings_paths.
    rewrite (filter_never (λ p, Some (get_dir_key p, "cs_only") = Some (d, "nas_only")))
      by (intros p [=]).
    rewrite (filter_never (λ p, _ <$> common_kind source_map dest_map p = Some (d, "nas_only"))).
    2:{ intros p Hp. destruct (common_kind source_map dest_map p) as [k|] eqn:Hk; [|done].
        apply common_kind_values in Hk. simpl in Hp. naive_solver. }
    rewrite !app_nil_r. apply list_filter_iff. naive_solver.
  - rewrite compare_listings_paths.
    rewrite (filter_never (λ p, Some (get_dir_key p, "nas_only") = Some (d, "cs_only")))
      by (intros p [=]).
    rewrite (filter_never (λ p, _ <$> common_kind source_map dest_map p = Some (d, "cs_only"))).
    2:{ intros p Hp. destruct (common_kind source_map dest_map p) as [k|] eqn:Hk; [|done].
        apply common_kind_values in Hk. simpl in Hp. naive_solver. }
    rewrite app_nil_r. simpl. apply list_filter_iff. naive_solver.
  - intros k Hk. rewrite compare_listings_paths.
    rewrite (filter_never (λ p, Some (get_dir_key p, "nas_only") = Some (d, k))).
    2:{ intros p [= _ <-]. set_solver. }
    rewrite (filter_never (λ p, Some (get_dir_key p, "cs_only") = Some (d, k))).
    2:{ intros p [= _ <-]. set_solver. }
    simpl. apply list_filter_iff. intros p.
    destruct (common_kind source_map dest_map p); naive_solver.
Qed.


Lemma kind_of_filter keys (source_map dest_map : file_map) p :
  kind_of (filter_map keys source_map) (filter_map keys dest_map) p
  = if decide (get_dir_key p ∈ keys) then kind_of source_map dest_map p else None.
Proof.
  unfold kind_of, common_kind. rewrite !filter_map_lookup.
  by case_decide.
Qed.

(** Scope filtering does not change how a path is classified: comparing the
    filtered listings gives, for the kept directories, the buckets of the
    full comparison, and nothing for the others. *)
Theorem filtering_commutes_with_comparison set_iter set_iter' keys (source_map dest_map : file_map) d k path :
  set_iteration set_iter → set_iteration set_iter' →
  path ∈ paths_of (compare_listings set_iter (filter_map keys source_map)
                     (filter_map keys dest_map)) d k
  ↔ d ∈ keys ∧ path ∈ paths_of (compare_listings set_iter' source_map dest_map) d k.
Proof.
  intros Hit Hit'. rewrite !elem_of_compare_listings, kind_of_filter by done.
  case_decide; naive_solver.
Qed.

Lemma filtering_commutes_with_comparison_witness :
  "foo/a.txt" ∈ paths_of (compare_listings elements (filter_map {["foo"]} Scenario.source)
                            (filter_map {["foo"]} Scenario.dest)) "foo" "size_changed"
  ↔ "foo" ∈ ({["foo"]} : gset string)
    ∧ "foo/a.txt" ∈ paths_of (compare_listings elements Scenario.source Scenario.dest)
                      "foo" "size_changed".
Proof.
  apply (filtering_commutes_with_comparison elements elements {["foo"]}
           Scenario.source Scenario.dest "foo" "size_changed" "foo/a.txt").
  - intros X. reflexivity.
  - intros X. reflexivity.
Defined.

(** Without directories on the command line and without exclusions the
    final set is the set of the directory keys of the paths of both
    listings, and both listings pass the filter unchanged. *)
Theorem no_arguments_keep_everything (source_map_full dest_map_full : file_map) show_all show_fix :
  let keys := tlds_to_process (mk_arguments [] [] show_all show_fix)
                source_map_full dest_map_full in
  keys = set_map get_dir_key (dom source_map_full ∪ dom dest_map_full)
  ∧ filter_map keys source_map_full = source_map_full
  ∧ filter_map keys dest_map_full = dest_map_full.
Proof.
  intros keys.
  assert (keys = all_dir_keys source_map_full dest_map_full) as ->.
  { unfold keys. rewrite tlds_to_process_eq. simpl. set_solver. }
  split; [done|].
  split; apply map_eq; intros p; rewrite filter_map_lookup; case_decide as Hk; try done.
  - destruct (source_map_full !! p) eqn:Hp; [|done]. exfalso. apply Hk.
    unfold all_dir_keys. apply elem_of_map. exists p. split; [done|].
    apply elem_of_union. left. by apply elem_of_dom.
  - destruct (dest_map_full !! p) eqn:Hp; [|done]. exfalso. apply Hk.
    unfold all_dir_keys. apply elem_of_map. exists p. split; [done|].
    apply elem_of_union. right. by apply elem_of_dom.
Qed.

(** An entry that passes the filter is an entry of the full listing, its
    key is not excluded, and it is one of the listed directories when some
    are listed: an exclusion wins over an inclusion. *)
Theorem filtered_entries args (source_map_full dest_map_full : file_map) :
  let keys := tlds_to_process args source_map_full dest_map_full in
  ∀ m path f, filter_map keys m !! path = Some f →
    m !! path = Some f
    ∧ (get_dir_key path ∉ exclude args)
    ∧ (tlds args ≠ [] → get_dir_key path ∈ tlds args).
Proof.
  intros keys m path f. rewrite filter_map_lookup. case_decide as Hk; [|done].
  intros Hf. split; [done|].
  unfold keys in Hk. rewrite tlds_to_process_eq in Hk.
  apply elem_of_difference in Hk as [Hin Hex]. rewrite elem_of_list_to_set in Hex.
  split; [done|]. intros Hne. rewrite decide_False in Hin by done.
  by apply elem_of_list_to_set in Hin.
Qed.

Lemma filtered_entries_witness :
  let args := mk_arguments ["foo"; "bar"] ["bar"] false false in
  Scenario.dest !! "foo/a.txt" = Some (mk_file_info 200 Scenario.T)
  ∧ (get_dir_key "foo/a.txt" ∉ exclude args)
  ∧ (tlds args ≠ [] → get_dir_key "foo/a.txt" ∈ tlds args).
Proof.
  apply (filtered_entries (mk_arguments ["foo"; "bar"] ["bar"] false false)
           Scenario.source Scenario.dest Scenario.dest "foo/a.txt"
           (mk_file_info 200 Scenario.T)).
  vm_compute. reflexivity.
Defined.


Lemma split_prefix sep first rest :
  contains_char sep first = false →
  split sep (first +:+ String sep rest) = first :: split sep rest.
Proof.
  induction first as [|a r IH]; simpl.
  - by rewrite Ascii.eqb_refl.
  - destruct (Ascii.eqb a sep); [done|]. intros Hr. by rewrite IH.
Qed.

Lemma contains_char_app c s1 s2 :
  contains_char c (s1 +:+ s2) = contains_char c s1 || contains_char c s2.
Proof.
  induction s1 as [|a r IH]; simpl; [done|]. by destruct (Ascii.eqb a c).
Qed.

Lemma directory_key_of_joined_path_aux d rest :
  contains_char "/" d = false → get_dir_key (d +:+ "/" +:+ rest) = d.
Proof.
  intros Hd. unfold get_dir_key.
  rewrite contains_char_app. simpl. rewrite orb_true_r.
  change ("/" +:+ rest) with (String "/" rest).
  by rewrite split_prefix.
Qed.

(** A path made of a separator-free directory name, a ['/'] and anything
    has that name as its key. *)
Theorem directory_key_of_joined_path d rest :
  ¬ In "/"%char (list_ascii_of_string d) →
  get_dir_key (d +:+ "/" +:+ rest) = d.
Proof. intros Hd%contains_char_not_In. by apply directory_key_of_joined_path_aux. Qed.

Lemma directory_key_of_joined_path_witness :
  get_dir_key ("foo" +:+ "/" +:+ "sub/a.txt") = "foo".
Proof.
  apply (directory_key_of_joined_path "foo" "sub/a.txt").
  simpl. intros H. repeat (destruct H as [H|H]; [discriminate H|]). exact H.
Defined.

(** So a top-level directory named ["(root)"] shares its bucket with the
    paths that have no separator at all. *)
Theorem root_sentinel_is_shared rest file :
  ¬ In "/"%char (list_ascii_of_string file) →
  get_dir_key ("(root)/" +:+ rest) = get_dir_key file.
Proof.
  intros Hfile%contains_char_not_In.
  unfold get_dir_key at 2. rewrite Hfile.
  apply (directory_key_of_joined_path_aux "(root)" rest). done.
Qed.

Lemma root_sentinel_is_shared_witness :
  get_dir_key ("(root)/" +:+ "x") = get_dir_key "notes.txt".
Proof.
  apply (root_sentinel_is_shared "x" "notes.txt").
  simpl. intros H. repeat (destruct H as [H|H]; [discriminate H|]). exact H.
Defined.

(** ** The report *)

Section Returns.
Context (I : change_set → Prop).

Lemma returns_ret {A} (a : A) (Q : A → Prop) : Q a → returns I (mret a) Q.
Proof. intros HQ w Hw. by exists a, w. Qed.

Lemma returns_bind {A B} (m : M A) (k : A → M B) (Q : A → Prop) (R : B → Prop) :
  returns I m Q → (∀ a, Q a → returns I (k a) R) → returns I (m ≫= k) R.
Proof.
  intros Hm Hk w Hw. destruct (Hm w Hw) as (a & w' & Hrun & Hw' & Ha).
  destruct (Hk a Ha w' Hw') as (b & w'' & Hrun' & Hw'' & Hb).
  exists b, w''. split; [|done]. by rewrite (bind_inr _ _ _ _ _ Hrun).
Qed.

Lemma returns_weaken {A} (m : M A) (Q R : A → Prop) :
  returns I m Q → (∀ a, Q a → R a) → returns I m R.
Proof. intros Hm HQ w Hw. destruct (Hm w Hw) as (a & w' & ? & ? & ?). exists a, w'. auto. Qed.

Lemma returns_print line : returns I (print line) (λ _, True).
Proof. intros w Hw. by exists tt, (mk_world (changes_of w) (stdout w ++ [line]) (stderr w)). Qed.

Lemma returns_get_changes : returns I get_changes I.
Proof. intros w Hw. by exists (changes_of w), w. Qed.

Lemma returns_for_each {A} (l : list A) (body : A → M unit) :
  (∀ x, x ∈ l → returns I (body x) (λ _, True)) →
  returns I (for_each l body) (λ _, True).
Proof.
  induction l as [|x l IH]; intros Hbody; simpl.
  - by apply returns_ret.
  - eapply returns_bind; [apply Hbody; set_solver|].
    intros ? _. apply IH. intros y Hy. apply Hbody. set_solver.
Qed.

Lemma returns_when c (body : M unit) :
  (c = true → returns I body (λ _, True)) → returns I (when c body) (λ _, True).
Proof. destruct c; simpl; [auto|intros _; by apply returns_ret]. Qed.

End Returns.

Section Safe.
Context (source_map dest_map : file_map).
Let I := consistent source_map dest_map.

Lemma returns_getitem d : returns I (getitem d) (timed_known source_map dest_map).
Proof.
  intros w Hw. unfold getitem. destruct (changes_of w !! d) as [inner|] eqn:Hd.
  - exists inner, w. split; [done|]. split; [done|]. by apply (Hw d).
  - eexists _, _. split; [done|]. simpl.
    assert (timed_known source_map dest_map ∅) as Hempty.
    { intros k p _. rewrite lookup_empty. simpl. by intros ?%elem_of_nil. }
    split; [|done]. intros d' inner. rewrite lookup_insert.
    case_decide; [by intros [= <-]|apply Hw].
Qed.

Lemma returns_mod_time_at (m : file_map) p :
  is_Some (m !! p) → returns I (mod_time_at m p) (λ _, True).
Proof. intros [f Hf]. unfold mod_time_at. rewrite Hf. by apply returns_ret. Qed.

Lemma returns_copy_commands sp p : returns I (copy_commands sp p) (λ _, True).
Proof.
  unfold copy_commands. eapply returns_bind; [apply returns_print|].
  intros ? _. apply returns_print.
Qed.

Lemma returns_touch_command p :
  is_Some (source_map !! p) → returns I (touch_command source_map p) (λ _, True).
Proof.
  intros Hp. unfold touch_command.
  eapply returns_bind; [by apply returns_mod_time_at|]. intros ? _. apply returns_print.
Qed.

Lemma returns_fix_commands_for sp d :
  returns I (fix_commands_for source_map sp d) (λ _, True).
Proof.
  unfold fix_commands_for.
  eapply returns_bind; [apply returns_getitem|]. intros inner1 _.
  eapply returns_bind.
  { apply returns_when. intros _. eapply returns_bind; [apply returns_print|].
    intros ? _. apply returns_for_each. intros. apply returns_copy_commands. }
  intros ? _. eapply returns_bind; [apply returns_getitem|]. intros inner2 _.
  eapply returns_bind.
  { apply returns_when. intros _. eapply returns_bind; [apply returns_print|].
    intros ? _. apply returns_for_each. intros. apply returns_copy_commands. }
  intros ? _. eapply returns_bind; [apply returns_getitem|]. intros inner3 H3.
  eapply returns_bind.
  { apply returns_when. intros _. eapply returns_bind; [apply returns_print|].
    intros ? _. apply returns_for_each. intros p Hp. apply returns_touch_command.
    apply (H3 "cs_newer" p); auto. }
  intros ? _. eapply returns_bind; [apply returns_getitem|]. intros inner4 H4.
  apply returns_when. intros _. eapply returns_bind; [apply returns_print|].
  intros ? _. apply returns_for_each. intros p Hp. apply returns_touch_command.
  apply (H4 "nas_newer" p); auto.
Qed.

Lemma returns_detail_item sn dn key symbol item :
  (key = "cs_newer" ∨ key = "nas_newer" →
   is_Some (source_map !! item) ∧ is_Some (dest_map !! item)) →
  returns I (detail_item source_map dest_map sn dn key symbol item) (λ _, True).
Proof.
  intros Hknown. unfold detail_item.
  eapply returns_bind; [|intros details _; apply returns_print].
  instantiate (1 := λ _, True).
  destruct (String.eqb key "size_changed"); [by apply returns_ret|].
  destruct (String.eqb_spec key "nas_newer") as [->|Hn]; simpl.
  - destruct Hknown as [Hs Hd]; [auto|].
    eapply returns_bind; [by apply returns_mod_time_at|]. intros dt _.
    eapply returns_bind; [by apply returns_mod_time_at|]. intros st _.
    by apply returns_ret.
  - destruct (String.eqb_spec key "cs_newer") as [->|Hc]; [|by apply returns_ret].
    destruct Hknown as [Hs Hd]; [auto|].
    eapply returns_bind; [by apply returns_mod_time_at|]. intros dt _.
    eapply returns_bind; [by apply returns_mod_time_at|]. intros st _.
    by apply returns_ret.
Qed.

Lemma returns_detail_kind show_all sn dn d entry :
  returns I (detail_kind source_map dest_map show_all sn dn d entry) (λ _, True).
Proof.
  unfold detail_kind. destruct entry as [[[key title] color] symbol].
  eapply returns_bind; [apply returns_getitem|]. intros inner Hinner.
  apply returns_when. intros _.
  eapply returns_bind; [apply returns_print|]. intros ? _.
  eapply returns_bind; [|intros ? _; apply returns_when; intros _; apply returns_print].
  apply returns_for_each. intros item Hitem. apply returns_detail_item.
  intros Hkey. apply (Hinner key item Hkey).
  destruct show_all; [done|]. by apply (subseteq_take 3).
Qed.

Lemma returns_detail_directory show_all show_fix sp sn dn d :
  returns I (detail_directory source_map dest_map show_all show_fix sp sn dn d) (λ _, True).
Proof.
  unfold detail_directory.
  eapply returns_bind; [apply returns_getitem|]. intros inner _.
  case_bool_decide; [by apply returns_ret|].
  eapply returns_bind; [apply returns_print|]. intros ? _.
  destruct show_fix.
  - eapply returns_bind; [apply returns_print|]. intros ? _.
    eapply returns_bind; [apply returns_get_changes|]. intros changes _.
    apply returns_for_each. intros. apply returns_fix_commands_for.
  - apply returns_for_each. intros. apply returns_detail_kind.
Qed.

Lemma returns_summary_row d : returns I (summary_row d) (λ _, True).
Proof.
  unfold summary_row.
  do 5 (eapply returns_bind; [apply returns_getitem|]; intros ? _).
  apply returns_print.
Qed.

Lemma returns_print_report show_all show_fix sp sn dn :
  returns I (print_report source_map dest_map show_all show_fix sp sn dn) (λ _, True).
Proof.
  unfold print_report.
  eapply returns_bind; [apply returns_get_changes|]. intros changes _.
  do 3 (eapply returns_bind; [apply returns_print|]; intros ? _).
  eapply returns_bind; [apply returns_for_each; intros; apply returns_summary_row|].
  intros ? _.
  do 2 (eapply returns_bind; [apply returns_print|]; intros ? _).
  eapply returns_bind; [apply returns_get_changes|]. intros changes' _.
  case_bool_decide; [apply returns_print|].
  eapply returns_bind; [apply returns_print|]. intros ? _.
  apply returns_for_each. intros. apply returns_detail_directory.
Qed.

End Safe.

Lemma consistent_compare_listings set_iter (source_map dest_map : file_map) :
  set_iteration set_iter →
  consistent source_map dest_map (compare_listings set_iter source_map dest_map).
Proof.
  intros Hit d inner Hd k p Hk Hp.
  assert (p ∈ paths_of (compare_listings set_iter source_map dest_map) d k) as Hin.
  { unfold paths_of. by rewrite Hd. }
  apply elem_of_compare_listings in Hin as [_ Hkind]; [|done].
  unfold kind_of in Hkind.
  destruct (source_map !! p), (dest_map !! p); try done; naive_solver.
Qed.

(** The report of what the comparator found never raises: the paths it
    looks up in the listings are paths of both. *)
Theorem report_never_raises set_iter (source_map dest_map : file_map)
    show_all show_fix sp sn dn :
  set_iteration set_iter →
  (run (print_report source_map dest_map show_all show_fix sp sn dn)
       (compare_listings set_iter source_map dest_map)).1 = inr tt.
Proof.
  intros Hit. unfold run.
  destruct (returns_print_report source_map dest_map show_all show_fix sp sn dn
              (mk_world (compare_listings set_iter source_map dest_map) [] []))
    as ([] & w' & -> & _); [|done].
  by apply consistent_compare_listings.
Qed.

Lemma report_never_raises_witness :
  (run (print_report Scenario.timed_source Scenario.timed_dest false true
          SOURCE_PATH_CONFIG SOURCE_NAME DEST_NAME)
       (compare_listings elements Scenario.timed_source Scenario.timed_dest)).1 = inr tt.
Proof.
  apply (report_never_raises elements Scenario.timed_source Scenario.timed_dest).
  intros X. reflexivity.
Defined.

Lemma bind_singleton_fmap {A B} (g : A → B) (l : list A) :
  l ≫= (λ p, [g p]) = g <$> l.
Proof. induction l as [|p l IH]; [done|]. csimpl. by rewrite IH. Qed.

Lemma bind_bind_singleton {A B C} (f : A → list B) (g : B → C) (l : list A) :
  l ≫= (λ x, f x ≫= λ p, [g p]) = g <$> (l ≫= f).
Proof.
  induction l as [|x l IH]; [done|].
  csimpl. by rewrite fmap_app, IH, bind_singleton_fmap.
Qed.

Lemma total_size_sum_sizes changes m kind :
  total_size changes m kind = sum_sizes m (paths_of_kind changes kind).
Proof.
  unfold total_size, sum_sizes, paths_of_kind. f_equal.
  apply (bind_bind_singleton (λ d_inner : string * bucket, default [] (d_inner.2 !! kind))).
Qed.

Lemma sum_sizes_Permutation m l l' : l ≡ₚ l' → sum_sizes m l = sum_sizes m l'.
Proof.
  unfold sum_sizes. induction 1; csimpl; [done|lia|lia|congruence].
Qed.

Lemma elem_of_paths_of_kind changes kind p :
  p ∈ paths_of_kind changes kind ↔ ∃ d, p ∈ paths_of changes d kind.
Proof.
  unfold paths_of_kind, paths_of. rewrite list_elem_of_bind. split.
  - intros ([d inner] & Hp & Hd%elem_of_map_to_list). exists d. by rewrite Hd.
  - intros [d Hp]. destruct (changes !! d) as [inner|] eqn:Hd.
    + exists (d, inner). split; [done|]. by apply elem_of_map_to_list.
    + simpl in Hp. rewrite lookup_empty in Hp. by apply elem_of_nil in Hp.
Qed.

Lemma NoDup_paths_of_kind set_iter (source_map dest_map : file_map) kind :
  set_iteration set_iter →
  NoDup (paths_of_kind (compare_listings set_iter source_map dest_map) kind).
Proof.
  intros Hit. unfold paths_of_kind. apply NoDup_bind.
  - intros [d1 i1] [d2 i2] p Hd1%elem_of_map_to_list Hd2%elem_of_map_to_list Hp1 Hp2.
    simpl in *.
    assert (p ∈ paths_of (compare_listings set_iter source_map dest_map) d1 kind) as H1
      by (unfold paths_of; by rewrite Hd1).
    assert (p ∈ paths_of (compare_listings set_iter source_map dest_map) d2 kind) as H2
      by (unfold paths_of; by rewrite Hd2).
    apply elem_of_compare_listings in H1 as [-> _]; [|done].
    apply elem_of_compare_listings in H2 as [-> _]; [|done].
    congruence.
  - intros [d inner] Hd%elem_of_map_to_list. simpl.
    pose proof (NoDup_compare_listings set_iter source_map dest_map d kind Hit) as Hnd.
    unfold paths_of in Hnd. by rewrite Hd in Hnd.
  - apply NoDup_map_to_list.
Qed.

(** The two totals of the summary table are the sizes, added up, of the
    files that are on the destination only and on the source only. *)
Theorem total_sizes_of_one_sided_files set_iter (source_map dest_map : file_map) :
  set_iteration set_iter →
  let changes := compare_listings set_iter source_map dest_map in
  total_size changes dest_map "nas_only"
  = sum_sizes dest_map (elements (dom dest_map ∖ dom source_map))
  ∧ total_size changes source_map "cs_only"
    = sum_sizes source_map (elements (dom source_map ∖ dom dest_map)).
Proof.
  intros Hit changes. unfold changes. rewrite !total_size_sum_sizes.
  split; apply sum_sizes_Permutation, NoDup_Permutation;
    try (by apply NoDup_paths_of_kind); try apply NoDup_elements;
    intros p; rewrite elem_of_paths_of_kind, elem_of_elements, elem_of_difference,
      !elem_of_dom, <- !eq_None_not_Some;
    setoid_rewrite (elem_of_compare_listings set_iter); try done;
    unfold kind_of, common_kind;
    destruct (source_map !! p) as [sf|], (dest_map !! p) as [df|];
    (split; [intros [d [_ Hk]]|intros [[? ?] ?]]); try done; try (by eexists);
    repeat case_match; done.
Qed.

Lemma total_sizes_of_one_sided_files_witness :
  let changes := compare_listings elements Scenario.source Scenario.dest in
  total_size changes Scenario.dest "nas_only"
  = sum_sizes Scenario.dest (elements (dom Scenario.dest ∖ dom Scenario.source))
  ∧ total_size changes Scenario.source "cs_only"
    = sum_sizes Scenario.source (elements (dom Scenario.source ∖ dom Scenario.dest)).
Proof.
  apply (total_sizes_of_one_sided_files elements Scenario.source Scenario.dest).
  intros X. reflexivity.
Defined.

Lemma appends_ret {A} (a : A) : appends (mret a).
Proof. intros w. exists []. by rewrite app_nil_r. Qed.

Lemma appends_raise {A} e : appends (@raise A e).
Proof. intros w. exists []. by rewrite app_nil_r. Qed.

Lemma appends_bind {A B} (m : M A) (k : A → M B) :
  appends m → (∀ a, appends (k a)) → appends (m ≫= k).
Proof.
  intros Hm Hk w. destruct (Hm w) as [e1 H1].
  unfold mbind, M_bind, bind. destruct (m w) as [[e|a] w'] eqn:Hrun; simpl in *.
  - by exists e1.
  - destruct (Hk a w') as [e2 H2]. exists (e1 ++ e2)%list. by rewrite H2, H1, app_assoc.
Qed.

Lemma appends_print line : appends (print line).
Proof. intros w. by exists [line]. Qed.

Lemma appends_get_changes : appends get_changes.
Proof. intros w. exists []. by rewrite app_nil_r. Qed.

Lemma appends_getitem d : appends (getitem d).
Proof.
  intros w. exists []. rewrite app_nil_r. unfold getitem.
  by destruct (changes_of w !! d).
Qed.

Lemma appends_mod_time_at m p : appends (mod_time_at m p).
Proof. unfold mod_time_at. destruct (m !! p); [apply appends_ret|apply appends_raise]. Qed.

Lemma appends_for_each {A} (l : list A) (body : A → M unit) :
  (∀ x, appends (body x)) → appends (for_each l body).
Proof.
  intros Hbody. induction l as [|x l IH]; simpl; [apply appends_ret|].
  apply appends_bind; [done|]. by intros _.
Qed.

Lemma appends_when c (body : M unit) : appends body → appends (when c body).
Proof. destruct c; simpl; [done|intros _; apply appends_ret]. Qed.

(** One step through a computation that only prints. *)
Ltac appends_step :=
  first
    [ apply appends_print | apply appends_getitem | apply appends_get_changes
    | apply appends_mod_time_at | apply appends_ret | apply appends_raise
    | apply appends_when | apply appends_for_each; intros ?
    | apply appends_bind; [|intros ?] ].

Lemma appends_copy_commands sp p : appends (copy_commands sp p).
Proof. unfold copy_commands. repeat appends_step. Qed.

Lemma appends_touch_command s p : appends (touch_command s p).
Proof. unfold touch_command. repeat appends_step. Qed.

Lemma appends_fix_commands_for s sp d : appends (fix_commands_for s sp d).
Proof.
  unfold fix_commands_for.
  repeat first [apply appends_copy_commands | apply appends_touch_command | appends_step].
Qed.

Lemma appends_detail_item s d sn dn key symbol item :
  appends (detail_item s d sn dn key symbol item).
Proof.
  unfold detail_item. apply appends_bind; [|intros ?; apply appends_print].
  repeat case_match; repeat appends_step.
Qed.

Lemma appends_detail_kind s d show_all sn dn dir entry :
  appends (detail_kind s d show_all sn dn dir entry).
Proof.
  unfold detail_kind. destruct entry as [[[key title] color] symbol].
  repeat first [apply appends_detail_item | appends_step].
Qed.

Lemma appends_detail_directory s d show_all show_fix sp sn dn dir :
  appends (detail_directory s d show_all show_fix sp sn dn dir).
Proof.
  unfold detail_directory. apply appends_bind; [apply appends_getitem|intros inner].
  case_bool_decide; [apply appends_ret|].
  apply appends_bind; [apply appends_print|intros _].
  destruct show_fix;
    repeat first [apply appends_fix_commands_for | apply appends_detail_kind | appends_step].
Qed.

Lemma paths_of_ensure changes d d' k : paths_of (ensure changes d) d' k = paths_of changes d' k.
Proof.
  unfold ensure, paths_of. destruct (changes !! d) as [inner|] eqn:Hd; [done|].
  rewrite lookup_insert. case_decide as Heq; [|done]. subst. by rewrite Hd.
Qed.

Lemma getitem_ensure d c out err :
  getitem d (mk_world c out err) = (inr (default ∅ (c !! d)), mk_world (ensure c d) out err).
Proof. unfold getitem, ensure. simpl. by destruct (c !! d). Qed.

Lemma ensure_idemp c d : ensure (ensure c d) d = ensure c d.
Proof.
  unfold ensure at 1. destruct (ensure c d !! d) eqn:H; [done|].
  unfold ensure in H. destruct (c !! d) eqn:Hd; [congruence|].
  by rewrite lookup_insert_eq in H.
Qed.

Lemma lookup_ensure c d : default ∅ (ensure c d !! d) = default ∅ (c !! d).
Proof.
  unfold ensure. destruct (c !! d) eqn:Hd; [by rewrite Hd|]. by rewrite lookup_insert_eq.
Qed.

Lemma summary_row_run d c out err :
  summary_row d (mk_world c out err)
  = (inr tt, mk_world (ensure c d) (out ++ [summary_line c d])%list err).
Proof.
  unfold summary_row.
  erewrite bind_inr by apply getitem_ensure.
  do 4 (erewrite bind_inr by apply getitem_ensure; rewrite ensure_idemp, lookup_ensure).
  done.
Qed.

Lemma summary_line_ensure c d d' : summary_line (ensure c d) d' = summary_line c d'.
Proof. unfold summary_line, count_of. by rewrite !paths_of_ensure. Qed.

Lemma for_each_summary_row_run l c out err :
  for_each l summary_row (mk_world c out err)
  = (inr tt, mk_world (foldl ensure c l) (out ++ (summary_line c <$> l))%list err).
Proof.
  revert c out. induction l as [|d l IH]; intros c out; simpl.
  - by rewrite app_nil_r.
  - erewrite bind_inr by apply summary_row_run. rewrite IH, <- app_assoc. simpl.
    assert (summary_line (ensure c d) <$> l = summary_line c <$> l) as ->; [|done].
    apply list_fmap_ext. intros ? d' _. apply summary_line_ensure.
Qed.

(** Whatever the change set and whatever happens later, the report starts
    with the summary table: a row for every directory of the listings, in
    sorted order, with the number of paths of each kind, and the totals. *)
Theorem report_starts_with_summary
    (source_map dest_map : file_map) show_all show_fix sp sn dn changes out err :
  let header :=
    table_row "Directory" (dn +:+ " only") (sn +:+ " only") "Size Change"
      (dn +:+ " Newer") (sn +:+ " Newer") in
  let rule := repeat_char "-" (py_len header) in
  ∃ rest,
    stdout (print_report source_map dest_map show_all show_fix sp sn dn
              (mk_world changes out err)).2
    = (out ++ [newline +:+ "--- Summary of Differences ---"; header; rule]
           ++ (summary_line changes <$> all_dirs_sorted source_map dest_map)
           ++ [rule;
               table_row "TOTAL SIZE"
                 (human_readable_bytes (Some (total_size changes dest_map "nas_only")))
                 (human_readable_bytes (Some (total_size changes source_map "cs_only")))
                 "" "" ""]
           ++ rest)%list.
Proof.
  intros header rule. unfold print_report.
  fold (all_dirs_sorted source_map dest_map).
  erewrite bind_inr by reflexivity. cbn [changes_of stdout stderr].
  fold header. fold rule. clearbody header rule.
  do 3 (erewrite bind_inr by reflexivity; cbn [changes_of stdout stderr]).
  erewrite bind_inr by apply for_each_summary_row_run.
  do 2 (erewrite bind_inr by reflexivity; cbn [changes_of stdout stderr]).
  match goal with |- context [?m ≫= ?k] =>
    assert (appends (m ≫= k)) as Hrest
  end.
  { apply appends_bind; [apply appends_get_changes|intros c'].
    case_bool_decide; [apply appends_print|].
    apply appends_bind; [apply appends_print|intros _].
    apply appends_for_each. intros dir. apply appends_detail_directory. }
  match goal with |- context [stdout (?m ?w).2] => destruct (Hrest w) as [rest ->] end.
  exists rest. cbn [stdout]. rewrite <- !app_assoc. reflexivity.
Qed.

(** With an empty change set the report returns without an error and prints
    the summary lines, a row for every directory, and one more line: the
    notice when both listings are empty, and the title of the detail section
    as soon as either listing holds a file. *)
Theorem report_of_an_empty_change_set
    (source_map dest_map : file_map) show_all show_fix sp sn dn :
  let result := run (print_report source_map dest_map show_all show_fix sp sn dn) ∅ in
  result.1 = inr tt
  ∧ stderr result.2 = []
  ∧ length (stdout result.2)
    = (length (all_dirs_sorted source_map dest_map) + 6)%nat
  ∧ last (stdout result.2)
    = Some (if decide (source_map = ∅ ∧ dest_map = ∅)
            then newline +:+ "No differences found."
            else newline +:+ "--- Details of Differences ---").
Proof.
  intros result. subst result. unfold run.
  destruct (print_report_without_differences
              source_map dest_map show_all show_fix sp sn dn [] []) as [changes' ->].
  cbn [fst snd stdout stderr]. split; [done|]. split; [done|]. split.
  - rewrite app_nil_l. cbn [app]. cbn [length]. rewrite length_app, length_fmap.
    cbn [length]. lia.
  - rewrite app_nil_l.
    change ([?a; ?b; ?c] ++ ?l)%list with (a :: b :: c :: l).
    rewrite !last_cons. rewrite last_app. cbn [last]. 
    by destruct (decide _).
Qed.

(** ** The detail section *)

Lemma emits_ret {A} c (a : A) : emits c (ret a) a [].
Proof. intros out err. unfold ret. by rewrite app_nil_r. Qed.

Lemma emits_print c line : emits c (print line) tt [line].
Proof. done. Qed.

Lemma emits_bind {A B} c (m : M A) (k : A → M B) a b l1 l2 :
  emits c m a l1 → emits c (k a) b l2 → emits c (m ≫= k) b (l1 ++ l2).
Proof.
  intros Hm Hk out err. erewrite bind_inr by apply Hm. by rewrite Hk, app_assoc.
Qed.

Lemma emits_getitem c d inner : c !! d = Some inner → emits c (getitem d) inner [].
Proof. intros Hd out err. unfold getitem. simpl. by rewrite Hd, app_nil_r. Qed.

Lemma emits_get_changes c : emits c get_changes c [].
Proof. intros out err. unfold get_changes. simpl. by rewrite app_nil_r. Qed.

Lemma emits_mod_time_at c (m : file_map) p f :
  m !! p = Some f → emits c (mod_time_at m p) (mod_time f) [].
Proof. intros Hp. unfold mod_time_at. rewrite Hp. apply emits_ret. Qed.

Lemma emits_when c b (body : M unit) lines :
  (b = true → emits c body tt lines) →
  emits c (when b body) tt (if b then lines else []).
Proof. destruct b; simpl; [auto|intros _; apply emits_ret]. Qed.

Lemma emits_for_each {A} c (body : A → M unit) (P : A → string → Prop) l :
  (∀ x, x ∈ l → ∃ line, P x line ∧ emits c (body x) tt [line]) →
  ∃ lines, Forall2 P l lines ∧ emits c (for_each l body) tt lines.
Proof.
  induction l as [|x l IH]; intros Hbody; simpl.
  - exists []. split; [constructor|apply emits_ret].
  - destruct (Hbody x) as (line & Hline & Hx); [set_solver|].
    destruct IH as (lines & Hlines & Hl); [intros y Hy; apply Hbody; set_solver|].
    exists (line :: lines). split; [by constructor|].
    by apply (emits_bind c (body x) _ tt tt [line] lines).
Qed.

Lemma emits_for_each_some {A} c (body : A → M unit) l :
  (∀ x, x ∈ l → ∃ lines, emits c (body x) tt lines) →
  ∃ lines, emits c (for_each l body) tt lines.
Proof.
  induction l as [|x l IH]; intros Hbody; simpl.
  - exists []. apply emits_ret.
  - destruct (Hbody x) as (l1 & Hx); [set_solver|].
    destruct IH as (l2 & Hl); [intros y Hy; apply Hbody; set_solver|].
    exists (l1 ++ l2)%list. by apply (emits_bind c (body x) _ tt tt).
Qed.

Lemma emits_for_each_bind {A} c (body : A → M unit) (f : A → list string) l :
  (∀ x, x ∈ l → emits c (body x) tt (f x)) →
  emits c (for_each l body) tt (l ≫= f).
Proof.
  induction l as [|x l IH]; intros Hbody; simpl.
  - apply emits_ret.
  - apply (emits_bind c (body x) _ tt tt); [apply Hbody; set_solver|].
    apply IH. intros y Hy. apply Hbody. set_solver.
Qed.

Lemma emits_detail_item c (source_map dest_map : file_map) sn dn key symbol item :
  (key = "cs_newer" ∨ key = "nas_newer" →
   is_Some (source_map !! item) ∧ is_Some (dest_map !! item)) →
  ∃ line, item_line symbol item line
          ∧ emits c (detail_item source_map dest_map sn dn key symbol item) tt [line].
Proof.
  intros Hknown. unfold detail_item.
  assert (∀ (m : M string) details, emits c m details [] →
            ∃ line, item_line symbol item line
                    ∧ emits c (m ≫= λ details,
                         print ("    " +:+ symbol +:+ " " +:+ item +:+ " " +:+ details))
                        tt [line]) as Hline.
  { intros m details Hm. eexists. split; [by exists details|].
    apply (emits_bind c m _ details tt [] [_]); [done|apply emits_print]. }
  destruct (String.eqb key "size_changed"); [eapply Hline, emits_ret|].
  destruct (String.eqb_spec key "nas_newer") as [->|Hn]; simpl.
  - destruct Hknown as [[fs Hs] [fd Hd]]; [auto|].
    eapply Hline.
    eapply (emits_bind c _ _ _ _ [] []); [by apply emits_mod_time_at|].
    eapply (emits_bind c _ _ _ _ [] []); [by apply emits_mod_time_at|].
    apply emits_ret.
  - destruct (String.eqb_spec key "cs_newer") as [->|Hc]; [|eapply Hline, emits_ret].
    destruct Hknown as [[fs Hs] [fd Hd]]; [auto|].
    eapply Hline.
    eapply (emits_bind c _ _ _ _ [] []); [by apply emits_mod_time_at|].
    eapply (emits_bind c _ _ _ _ [] []); [by apply emits_mod_time_at|].
    apply emits_ret.
Qed.

Lemma emits_detail_kind
    (source_map dest_map : file_map) show_all sn dn d key title color symbol
    changes inner :
  changes !! d = Some inner →
  timed_known source_map dest_map inner →
  let items := default [] (inner !! key) in
  ∃ lines,
    emits changes
      (detail_kind source_map dest_map show_all sn dn d (key, title, color, symbol))
      tt lines
    ∧ (items = [] → lines = [])
    ∧ (items ≠ [] →
       ∃ item_lines,
         lines
         = (color +:+ "  " +:+ title +:+ " (" +:+ str_of_Z (Z.of_nat (length items))
            +:+ "):" +:+ Colors.RESET)
           :: item_lines
              ++ (if show_all then []
                  else if (3 <? length items)%nat
                       then ["    ... +" +:+ str_of_Z (Z.of_nat (length items) - 3)
                             +:+ " more"]
                       else [])
         ∧ Forall2 (item_line symbol)
             (if show_all then items else take 3 items) item_lines).
Proof.
  intros Hd Hknown items. unfold detail_kind.
  destruct (decide (items = [])) as [Hnil|Hitems].
  - exists []. split; [|by split].
    eapply (emits_bind changes _ _ inner tt [] []); [by apply emits_getitem|].
    fold items. rewrite Hnil. apply emits_ret.
  - destruct (emits_for_each changes
                (detail_item source_map dest_map sn dn key symbol) (item_line symbol)
                (if show_all then items else take 3 items))
      as (item_lines & Hlines & Hrun).
    { intros item Hitem. apply emits_detail_item. intros Hkey.
      apply (Hknown key item Hkey). fold items.
      destruct show_all; [done|]. by apply (subseteq_take 3). }
    eexists. split; [|split; [intros Hnil; destruct (Hitems Hnil)|]].
    + eapply (emits_bind changes _ _ inner tt []); [by apply emits_getitem|].
      fold items. rewrite bool_decide_eq_false_2 by done. cbn [negb when].
      eapply (emits_bind changes _ _ tt tt [_]); [apply emits_print|].
      eapply (emits_bind changes _ _ tt tt); [apply Hrun|].
      apply emits_when. intros _. apply emits_print.
    + intros _. exists item_lines. split; [|done].
      cbn [app]. do 2 f_equal. by destruct show_all, (3 <? length items)%nat.
Qed.

(** The items of one kind in one directory: nothing when there is none;
    otherwise the title with their number and a line for each of them in
    the order of the bucket, all of them under [--show-all], and without it
    the first three, followed when there are more by the number of those
    left out.  No listing is read that could raise. *)
Theorem detail_listing_is_cut_at_three
    (source_map dest_map : file_map) show_all sn dn d key title color symbol
    changes inner out err :
  changes !! d = Some inner →
  timed_known source_map dest_map inner →
  let items := default [] (inner !! key) in
  ∃ lines,
    detail_kind source_map dest_map show_all sn dn d (key, title, color, symbol)
      (mk_world changes out err)
    = (inr tt, mk_world changes (out ++ lines) err)
    ∧ (items = [] → lines = [])
    ∧ (items ≠ [] →
       ∃ item_lines,
         lines
         = (color +:+ "  " +:+ title +:+ " (" +:+ str_of_Z (Z.of_nat (length items))
            +:+ "):" +:+ Colors.RESET)
           :: item_lines
              ++ (if show_all then []
                  else if (3 <? length items)%nat
                       then ["    ... +" +:+ str_of_Z (Z.of_nat (length items) - 3)
                             +:+ " more"]
                       else [])
         ∧ Forall2 (item_line symbol)
             (if show_all then items else take 3 items) item_lines).
Proof.
  intros Hd Hknown items.
  destruct (emits_detail_kind source_map dest_map show_all sn dn d key title color
              symbol changes inner Hd Hknown) as (lines & Hrun & Hlines).
  exists lines. split; [apply Hrun|apply Hlines].
Qed.

Lemma detail_listing_is_cut_at_three_witness :
  let inner : bucket := {["cs_only" := ["m/a"; "m/b"; "m/c"; "m/d"; "m/e"]]} in
  let changes : change_set := {["m" := inner]} in
  let items := default [] (inner !! "cs_only") in
  ∃ lines,
    detail_kind ∅ ∅ false "coldstorage" "nas" "m"
      ("cs_only", "Only on coldstorage", Colors.GREEN, "+") (mk_world changes [] [])
    = (inr tt, mk_world changes ([] ++ lines) [])
    ∧ (items = [] → lines = [])
    ∧ (items ≠ [] →
       ∃ item_lines,
         lines
         = (Colors.GREEN +:+ "  " +:+ "Only on coldstorage" +:+ " ("
            +:+ str_of_Z (Z.of_nat (length items)) +:+ "):" +:+ Colors.RESET)
           :: item_lines
              ++ (if false then []
                  else if (3 <? length items)%nat
                       then ["    ... +" +:+ str_of_Z (Z.of_nat (length items) - 3)
                             +:+ " more"]
                       else [])
         ∧ Forall2 (item_line "+") (if false then items else take 3 items) item_lines).
Proof.
  intros inner changes.
  apply (detail_listing_is_cut_at_three ∅ ∅ false "coldstorage" "nas" "m" "cs_only"
           "Only on coldstorage" Colors.GREEN "+" changes inner [] []).
  - reflexivity.
  - intros k p [->| ->]; vm_compute; by intros ?%elem_of_nil.
Defined.

Lemma some_bind {A} c (m : M A) (k : A → M unit) a l1 :
  emits c m a l1 → (∃ l2, emits c (k a) tt l2) → ∃ l, emits c (m ≫= k) tt l.
Proof. intros Hm [l2 Hk]. exists (l1 ++ l2)%list. by eapply emits_bind. Qed.

Lemma some_when c b (body : M unit) :
  (b = true → ∃ l, emits c body tt l) → ∃ l, emits c (when b body) tt l.
Proof.
  destruct b; simpl; [auto|]. intros _. exists []. apply emits_ret.
Qed.

Lemma some_copy_commands c sp p : ∃ l, emits c (copy_commands sp p) tt l.
Proof.
  unfold copy_commands. eapply some_bind; [apply emits_print|].
  eexists. apply emits_print.
Qed.

Lemma some_touch_command c (source_map : file_map) p :
  is_Some (source_map !! p) → ∃ l, emits c (touch_command source_map p) tt l.
Proof.
  intros [f Hf]. unfold touch_command.
  eapply some_bind; [by apply emits_mod_time_at|]. eexists. apply emits_print.
Qed.

Lemma some_seq {A} c (m : M A) (k : A → M unit) a :
  (∃ l1, emits c m a l1) → (∃ l2, emits c (k a) tt l2) → ∃ l, emits c (m ≫= k) tt l.
Proof. intros [l1 Hm] Hk. by eapply some_bind. Qed.

Lemma some_commands {A} c title (items : list A) (body : A → M unit) :
  (∀ x, x ∈ items → ∃ l, emits c (body x) tt l) →
  ∃ l, emits c (when (negb (bool_decide (items = []))) (print title ;; for_each items body))
         tt l.
Proof.
  intros Hbody. apply some_when. intros _.
  eapply some_bind; [apply emits_print|]. by apply emits_for_each_some.
Qed.

Lemma some_fix_commands_for c (source_map dest_map : file_map) sp dir inner :
  c !! dir = Some inner →
  timed_known source_map dest_map inner →
  ∃ l, emits c (fix_commands_for source_map sp dir) tt l.
Proof.
  intros Hdir Hknown. unfold fix_commands_for.
  eapply some_bind; [by apply emits_getitem|].
  eapply some_seq; [apply some_commands; intros; apply some_copy_commands|].
  eapply some_bind; [by apply emits_getitem|].
  eapply some_seq; [apply some_commands; intros; apply some_copy_commands|].
  eapply some_bind; [by apply emits_getitem|].
  eapply some_seq.
  { apply some_commands. intros p Hp. apply some_touch_command.
    apply (Hknown "cs_newer" p); auto. }
  eapply some_bind; [by apply emits_getitem|].
  apply some_commands. intros p Hp. apply some_touch_command.
  apply (Hknown "nas_newer" p); auto.
Qed.

Lemma lookup_foldl_ensure c l d :
  foldl ensure c l !! d
  = match c !! d with
    | Some inner => Some inner
    | None => if decide (d ∈ l) then Some ∅ else None
    end.
Proof.
  revert c. induction l as [|x l IH]; intros c; simpl.
  - destruct (c !! d); [done|]. by destruct (decide (d ∈ [])) as [?%elem_of_nil|].
  - rewrite IH. unfold ensure. destruct (decide (x = d)) as [->|Hne].
    + destruct (c !! d) as [i|] eqn:Hd; [by rewrite Hd|].
      rewrite lookup_insert_eq. by rewrite decide_True by set_solver.
    + assert ((match c !! x with Some _ => c | None => <[x:=∅]> c end) !! d = c !! d) as ->.
      { destruct (c !! x); [done|]. by rewrite lookup_insert_ne. }
      destruct (c !! d); [done|].
      destruct (decide (d ∈ l)); [by rewrite decide_True by set_solver|].
      by rewrite decide_False by set_solver.
Qed.

Lemma consistent_foldl_ensure (source_map dest_map : file_map) c l :
  consistent source_map dest_map c → consistent source_map dest_map (foldl ensure c l).
Proof.
  intros Hc d inner. rewrite lookup_foldl_ensure.
  destruct (c !! d) as [i|] eqn:Hd.
  - intros [= <-]. by apply (Hc d).
  - case_decide; [|done]. intros [= <-] k p _. rewrite lookup_empty. simpl.
    by intros ?%elem_of_nil.
Qed.

Lemma bind_filter {A B} (P : A → Prop) `{!∀ x, Decision (P x)} (f g : A → list B) l :
  (∀ x, x ∈ l → f x = if decide (P x) then g x else []) →
  l ≫= f = filter P l ≫= g.
Proof.
  induction l as [|x l IH]; intros Hf; csimpl; [done|].
  rewrite Hf by set_solver. rewrite IH by (intros; apply Hf; set_solver).
  rewrite filter_cons. by destruct (decide (P x)).
Qed.

Lemma elem_of_sorted x l : x ∈ sorted l ↔ x ∈ l.
Proof. unfold sorted. by rewrite merge_sort_Permutation. Qed.

Lemma emits_run c (m : M unit) l : emits c m tt l → stdout (run m c).2 = l.
Proof. intros H. unfold run. by rewrite (H [] []). Qed.

Lemma compare_listings_differ set_iter (source_map dest_map : file_map) :
  set_iteration set_iter → source_map ≠ dest_map →
  compare_listings set_iter source_map dest_map ≠ ∅.
Proof.
  intros Hit Hdiff Hempty. apply Hdiff. apply map_eq. intros p. apply kind_of_None.
  destruct (kind_of source_map dest_map p) as [k|] eqn:Hkind; [|done].
  assert (p ∈ paths_of (compare_listings set_iter source_map dest_map) (get_dir_key p) k)
    as Hin by by apply elem_of_compare_listings.
  rewrite Hempty, paths_of_empty in Hin. by apply elem_of_nil in Hin.
Qed.

Lemma fix_report (source_map dest_map : file_map) show_all sp sn dn (c : change_set) :
  consistent source_map dest_map c → populated c → c ≠ ∅ →
  ∀ dirs stored block,
  dirs = all_dirs_sorted source_map dest_map →
  stored = foldl ensure c dirs →
  block = stdout (run (for_each (sorted (elements (dom stored)))
                         (fix_commands_for source_map sp)) stored).2 →
  ∃ summary,
    length summary = (length dirs + 5)%nat
    ∧ run (print_report source_map dest_map show_all true sp sn dn) c
      = (inr tt,
         mk_world stored
           (summary
            ++ (newline +:+ "--- Details of Differences ---")
               :: (filter (λ d, d ∈ dom c) (sorted dirs)
                   ≫= λ d, directory_header d :: fix_title dn :: block))
           []).
Proof.
  intros Hcons Hpop Hchanges dirs stored block Hdirs Hstored_eq Hblock_eq.
  assert (consistent source_map dest_map stored) as Hstored.
  { subst stored. by apply consistent_foldl_ensure. }
  assert (emits stored (for_each (sorted (elements (dom stored)))
                          (fix_commands_for source_map sp)) tt block) as Hblock.
  { destruct (emits_for_each_some stored (fix_commands_for source_map sp)
                (sorted (elements (dom stored)))) as [l Hl].
    - intros d Hd. apply (proj1 (elem_of_sorted _ _)) in Hd.
      apply elem_of_elements, elem_of_dom in Hd as [inner Hd].
      eapply some_fix_commands_for; [done|]. by apply (Hstored d).
    - rewrite Hblock_eq. by rewrite (emits_run _ _ _ Hl). }
  clear Hblock_eq.
  assert (∀ d, stored !! d
               = match c !! d with
                 | Some inner => Some inner
                 | None => if decide (d ∈ dirs) then Some ∅ else None
                 end) as Hlookup.
  { intros d. rewrite Hstored_eq. apply lookup_foldl_ensure. }
  assert (stored ≠ ∅) as Hne.
  { intros Hempty. apply Hchanges. apply map_empty. intros d.
    specialize (Hlookup d). rewrite Hempty, lookup_empty in Hlookup.
    by destruct (c !! d). }
  assert (∀ d, d ∈ sorted dirs →
            emits stored
              (detail_directory source_map dest_map show_all true sp sn dn d) tt
              (if decide (d ∈ dom c)
               then directory_header d :: fix_title dn :: block else [])) as Hdir.
  { intros d Hd. apply (proj1 (elem_of_sorted _ _)) in Hd. unfold detail_directory.
    specialize (Hlookup d).
    destruct (c !! d) as [inner|] eqn:Hinner.
    - rewrite decide_True by (apply elem_of_dom; by exists inner).
      destruct (Hpop d inner Hinner) as [Hnon _].
      eapply (emits_bind stored _ _ inner tt []); [by apply emits_getitem|].
      rewrite bool_decide_eq_false_2 by done.
      eapply (emits_bind stored _ _ tt tt [_]); [apply emits_print|].
      eapply (emits_bind stored _ _ tt tt [_]); [apply emits_print|].
      eapply (emits_bind stored _ _ stored tt []); [apply emits_get_changes|].
      apply Hblock.
    - rewrite decide_False by (rewrite elem_of_dom, Hinner; by intros [? ?]).
      rewrite decide_True in Hlookup by done.
      eapply (emits_bind stored _ _ ∅ tt [] []); [by apply emits_getitem|].
      rewrite bool_decide_eq_true_2 by done. apply emits_ret. }
  pose proof (emits_for_each_bind stored _ _ _ Hdir) as Hdetails.
  erewrite bind_filter in Hdetails; [|intros d _; reflexivity].
  unfold run, print_report. fold (all_dirs_sorted source_map dest_map).
  rewrite <- Hdirs.
  erewrite bind_inr by reflexivity. cbn [changes_of stdout stderr].
  do 3 (erewrite bind_inr by reflexivity; cbn [changes_of stdout stderr]).
  erewrite bind_inr by apply for_each_summary_row_run. rewrite <- Hstored_eq.
  do 3 (erewrite bind_inr by reflexivity; cbn [changes_of stdout stderr]).
  rewrite bool_decide_eq_false_2 by done.
  erewrite bind_inr by reflexivity. cbn [changes_of stdout stderr].
  rewrite Hdetails.
  rewrite <- (app_assoc _ [_] (_ ≫= _)).
  eexists. split; [|reflexivity].
  rewrite !length_app, length_fmap. cbn [length]. lia.
Qed.

(** With [--show-fix], when the listings differ, the detail section is, for
    every directory that has a divergence, in sorted order, the header of
    the directory, the title of the fix commands, and then one and the same
    block: the commands of all the directories. *)
Theorem fix_commands_follow_every_directory
    set_iter (source_map dest_map : file_map) show_all sp sn dn :
  set_iteration set_iter →
  source_map ≠ dest_map →
  let changes := compare_listings set_iter source_map dest_map in
  let dirs := all_dirs_sorted source_map dest_map in
  let stored := foldl ensure changes dirs in
  let block :=
    stdout (run (for_each (sorted (elements (dom stored)))
                   (fix_commands_for source_map sp)) stored).2 in
  ∃ summary,
    length summary = (length dirs + 5)%nat
    ∧ run (print_report source_map dest_map show_all true sp sn dn) changes
      = (inr tt,
         mk_world stored
           (summary
            ++ (newline +:+ "--- Details of Differences ---")
               :: (filter (λ d, d ∈ dom changes) (sorted dirs)
                   ≫= λ d, directory_header d :: fix_title dn :: block))
           []).
Proof.
  intros Hit Hdiff changes dirs stored block.
  apply fix_report; try reflexivity.
  - by apply consistent_compare_listings.
  - apply populated_compare_listings.
  - by apply compare_listings_differ.
Qed.

Lemma fix_commands_follow_every_directory_witness :
  let changes := compare_listings elements Scenario.two_dirs ∅ in
  let dirs := all_dirs_sorted Scenario.two_dirs ∅ in
  let stored := foldl ensure changes dirs in
  let block :=
    stdout (run (for_each (sorted (elements (dom stored)))
                   (fix_commands_for Scenario.two_dirs "/mnt/backup")) stored).2 in
  ∃ summary,
    length summary = (length dirs + 5)%nat
    ∧ run (print_report Scenario.two_dirs ∅ false true "/mnt/backup" "coldstorage" "nas")
        changes
      = (inr tt,
         mk_world stored
           (summary
            ++ (newline +:+ "--- Details of Differences ---")
               :: (filter (λ d, d ∈ dom changes) (sorted dirs)
                   ≫= λ d, directory_header d :: fix_title "nas" :: block))
           []).
Proof.
  apply (fix_commands_follow_every_directory elements Scenario.two_dirs ∅ false
           "/mnt/backup" "coldstorage" "nas").
  - intros X. reflexivity.
  - intros H. apply (f_equal (λ m : file_map, m !! "a/x")) in H. vm_compute in H. done.
Defined.

(** ** The detail section without [--show-fix] *)

Lemma detail_report (source_map dest_map : file_map) show_all sp sn dn (c : change_set) :
  consistent source_map dest_map c → populated c → c ≠ ∅ →
  ∀ dirs stored,
  dirs = all_dirs_sorted source_map dest_map →
  stored = foldl ensure c dirs →
  ∃ summary,
    length summary = (length dirs + 5)%nat
    ∧ run (print_report source_map dest_map show_all false sp sn dn) c
      = (inr tt,
         mk_world stored
           (summary
            ++ (newline +:+ "--- Details of Differences ---")
               :: (filter (λ d, d ∈ dom c) (sorted dirs)
                   ≫= λ d, directory_header d
                           :: stdout (run (for_each (detail_map sn dn)
                                             (detail_kind source_map dest_map show_all
                                                sn dn d)) stored).2))
           []).
Proof.
  intros Hcons Hpop Hchanges dirs stored Hdirs Hstored_eq.
  assert (consistent source_map dest_map stored) as Hstored.
  { subst stored. by apply consistent_foldl_ensure. }
  assert (∀ d, stored !! d
               = match c !! d with
                 | Some inner => Some inner
                 | None => if decide (d ∈ dirs) then Some ∅ else None
                 end) as Hlookup.
  { intros d. rewrite Hstored_eq. apply lookup_foldl_ensure. }
  assert (stored ≠ ∅) as Hne.
  { intros Hempty. apply Hchanges. apply map_empty. intros d.
    specialize (Hlookup d). rewrite Hempty, lookup_empty in Hlookup.
    by destruct (c !! d). }
  assert (∀ d, d ∈ sorted dirs →
            emits stored
              (detail_directory source_map dest_map show_all false sp sn dn d) tt
              (if decide (d ∈ dom c)
               then directory_header d
                    :: stdout (run (for_each (detail_map sn dn)
                                      (detail_kind source_map dest_map show_all
                                         sn dn d)) stored).2
               else [])) as Hdir.
  { intros d Hd. apply (proj1 (elem_of_sorted _ _)) in Hd. unfold detail_directory.
    specialize (Hlookup d).
    destruct (c !! d) as [inner|] eqn:Hinner.
    - rewrite decide_True by (apply elem_of_dom; by exists inner).
      destruct (Hpop d inner Hinner) as [Hnon _].
      eapply (emits_bind stored _ _ inner tt []); [by apply emits_getitem|].
      rewrite bool_decide_eq_false_2 by done.
      eapply (emits_bind stored _ _ tt tt [_]); [apply emits_print|].
      destruct (emits_for_each_some stored
                  (detail_kind source_map dest_map show_all sn dn d) (detail_map sn dn))
        as [l Hl].
      { intros [[[key title] color] symbol] _.
        destruct (emits_detail_kind source_map dest_map show_all sn dn d key title
                    color symbol stored inner Hlookup (Hstored d inner Hlookup))
          as (lines & Hrun & _).
        by exists lines. }
      by rewrite (emits_run _ _ _ Hl).
    - rewrite decide_False by (rewrite elem_of_dom, Hinner; by intros [? ?]).
      rewrite decide_True in Hlookup by done.
      eapply (emits_bind stored _ _ ∅ tt [] []); [by apply emits_getitem|].
      rewrite bool_decide_eq_true_2 by done. apply emits_ret. }
  pose proof (emits_for_each_bind stored _ _ _ Hdir) as Hdetails.
  erewrite bind_filter in Hdetails; [|intros d _; reflexivity].
  unfold run, print_report. fold (all_dirs_sorted source_map dest_map).
  rewrite <- Hdirs.
  erewrite bind_inr by reflexivity. cbn [changes_of stdout stderr].
  do 3 (erewrite bind_inr by reflexivity; cbn [changes_of stdout stderr]).
  erewrite bind_inr by apply for_each_summary_row_run. rewrite <- Hstored_eq.
  do 3 (erewrite bind_inr by reflexivity; cbn [changes_of stdout stderr]).
  rewrite bool_decide_eq_false_2 by done.
  erewrite bind_inr by reflexivity. cbn [changes_of stdout stderr].
  rewrite Hdetails.
  rewrite <- (app_assoc _ [_] (_ ≫= _)).
  eexists. split; [|reflexivity].
  rewrite !length_app, length_fmap. cbn [length]. lia.
Qed.

(** Without [--show-fix], when the listings differ, the detail section
    names the directories that have a divergence, and no other, in sorted
    order, each followed by the listing of its own divergences. *)
Theorem details_name_the_changed_directories
    set_iter (source_map dest_map : file_map) show_all sp sn dn :
  set_iteration set_iter →
  source_map ≠ dest_map →
  let changes := compare_listings set_iter source_map dest_map in
  let dirs := all_dirs_sorted source_map dest_map in
  let stored := foldl ensure changes dirs in
  ∃ summary,
    length summary = (length dirs + 5)%nat
    ∧ run (print_report source_map dest_map show_all false sp sn dn) changes
      = (inr tt,
         mk_world stored
           (summary
            ++ (newline +:+ "--- Details of Differences ---")
               :: (filter (λ d, d ∈ dom changes) (sorted dirs)
                   ≫= λ d, directory_header d
                           :: stdout (run (for_each (detail_map sn dn)
                                             (detail_kind source_map dest_map show_all
                                                sn dn d)) stored).2))
           []).
Proof.
  intros Hit Hdiff changes dirs stored.
  apply detail_report; try reflexivity.
  - by apply consistent_compare_listings.
  - apply populated_compare_listings.
  - by apply compare_listings_differ.
Qed.

Lemma details_name_the_changed_directories_witness :
  let changes := compare_listings elements Scenario.source Scenario.dest in
  let dirs := all_dirs_sorted Scenario.source Scenario.dest in
  let stored := foldl ensure changes dirs in
  ∃ summary,
    length summary = (length dirs + 5)%nat
    ∧ run (print_report Scenario.source Scenario.dest false false "/mnt/backup"
             "coldstorage" "nas") changes
      = (inr tt,
         mk_world stored
           (summary
            ++ (newline +:+ "--- Details of Differences ---")
               :: (filter (λ d, d ∈ dom changes) (sorted dirs)
                   ≫= λ d, directory_header d
                           :: stdout (run (for_each (detail_map "coldstorage" "nas")
                                             (detail_kind Scenario.source Scenario.dest
                                                false "coldstorage" "nas" d)) stored).2))
           []).
Proof.
  apply (details_name_the_changed_directories elements Scenario.source Scenario.dest
           false "/mnt/backup" "coldstorage" "nas").
  - intros X. reflexivity.
  - intros H. apply (f_equal (λ m : file_map, m !! "bar/z.txt")) in H.
    vm_compute in H. done.
Defined.

(** ** Sizes below one kilobyte *)

(** A size from 1 to 1023 is printed as that number of bytes with [.0]. *)
Theorem whole_bytes_below_1024 s :
  0 < s < 1024 → human_readable_bytes (Some s) = str_of_Z s +:+ ".0B".
Proof.
  intros Hs.
  assert (forall_range
            (λ s, (s =? 0) || String.eqb (human_readable_bytes (Some s)) (str_of_Z s +:+ ".0B"))
            10 0 = true) as Hall by (vm_compute; reflexivity).
  pose proof (forall_range_spec _ _ _ Hall s ltac:(simpl; lia)) as Hcheck.
  cbv beta in Hcheck. rewrite (proj2 (Z.eqb_neq s 0)) in Hcheck by lia.
  by apply String.eqb_eq in Hcheck.
Qed.

Lemma whole_bytes_below_1024_witness :
  human_readable_bytes (Some 512) = str_of_Z 512 +:+ ".0B".
Proof. apply (whole_bytes_below_1024 512). lia. Defined.

(** ** The run as a whole *)

(** With the source mounted the run ends without an exception, whatever the
    arguments and the listings; without it the run ends with exit status 1,
    one line on standard error, and no report. *)
Theorem main_ends set_iter args mounted sp sn (source_map_full dest_map_full : file_map) :
  set_iteration set_iter →
  let result := run (main_from_listings set_iter args mounted sp sn
                       source_map_full dest_map_full) ∅ in
  (mounted = true → result.1 = inr tt)
  ∧ (mounted = false →
     result.1 = inl (SystemExit 1)
     ∧ stdout result.2
       = (if decide (exclude args = []) then []
          else ["INFO: Excluding TLDs: " +:+ join ", " (exclude args)])
     ∧ length (stderr result.2) = 1%nat).
Proof.
  intros Hit result. unfold result, run, main_from_listings. split; intros ->; simpl.
  - set (keys := tlds_to_process _ _ _).
    set (w0 := mk_world ∅ [] []).
    assert (∃ out, when (negb (bool_decide (exclude args = [])))
                     (print ("INFO: Excluding TLDs: " +:+ join ", " (exclude args))) w0
                   = (inr tt, mk_world ∅ out [])) as [out Hwhen].
    { destruct (negb _); simpl; by eexists. }
    erewrite bind_inr by exact Hwhen. cbn [stdout stderr].
    destruct (returns_print_report (filter_map keys source_map_full)
                (filter_map keys dest_map_full) (show_all args) (show_fix args) sp sn
                DEST_NAME
                (mk_world (compare_listings set_iter (filter_map keys source_map_full)
                             (filter_map keys dest_map_full)) out []))
      as ([] & w' & Hrun & _); [by apply consistent_compare_listings|].
    by rewrite Hrun.
  - case_decide as Hex.
    + rewrite bool_decide_eq_true_2 by done. done.
    + rewrite bool_decide_eq_false_2 by done. done.
Qed.

Lemma main_ends_witness :
  let result := run (main_from_listings elements Scenario.plain true SOURCE_PATH_CONFIG
                       SOURCE_NAME Scenario.timed_source Scenario.timed_dest) ∅ in
  (true = true → result.1 = inr tt)
  ∧ (true = false →
     result.1 = inl (SystemExit 1)
     ∧ stdout result.2
       = (if decide (exclude Scenario.plain = []) then []
          else ["INFO: Excluding TLDs: " +:+ join ", " (exclude Scenario.plain)])
     ∧ length (stderr result.2) = 1%nat).
Proof.
  apply (main_ends elements Scenario.plain true SOURCE_PATH_CONFIG SOURCE_NAME
           Scenario.timed_source Scenario.timed_dest).
  intros X. reflexivity.
Defined.

(** ** Choosing a snapshot *)

Import Snapshot.

Lemma choose_rejects int dir snapshots line stdin printed :
  ¬ valid_choice int (length snapshots) line →
  choose int dir snapshots (line :: stdin) printed
  = choose int dir snapshots stdin
      (printed ++ [prompt snapshots; rejection int line])%list.
Proof.
  intros Hline. simpl. unfold rejection.
  destruct (int line) as [n|] eqn:Hn; [|by rewrite <- app_assoc].
  destruct ((0 <=? n - 1) && (n - 1 <? Z.of_nat (length snapshots))) eqn:Hrange.
  - exfalso. apply Hline. exists n. split; [done|].
    apply andb_prop in Hrange as [?%Z.leb_le ?%Z.ltb_lt]. lia.
  - by rewrite <- app_assoc.
Qed.

(** The loop goes on until a line is a number from 1 to the number of
    snapshots: every line before it is answered with one of the two
    messages, the prompt is printed once a round, lines after it are not
    read, and the result is the snapshot of that number. *)
Theorem choose_skips_rejected_lines int dir snapshots bad good rest printed n name :
  Forall (λ line, ¬ valid_choice int (length snapshots) line) bad →
  int good = Some n →
  snapshots !! Z.to_nat (n - 1) = Some name → 1 ≤ n →
  choose int dir snapshots (bad ++ good :: rest) printed
  = (Selected (PosixPath.join dir name) ("snapshot(" +:+ name +:+ ")"),
     (printed ++ (bad ≫= λ line, [prompt snapshots; rejection int line])
              ++ [prompt snapshots])%list).
Proof.
  intros Hbad Hgood Hname Hn. revert printed.
  induction Hbad as [|line bad Hline _ IH]; intros printed.
  - simpl. rewrite Hgood.
    pose proof (lookup_lt_Some _ _ _ Hname) as Hlt.
    rewrite (proj2 (Z.leb_le 0 (n - 1))), (proj2 (Z.ltb_lt (n - 1) _)) by lia.
    simpl. by rewrite Hname.
  - change ((line :: bad) ++ good :: rest)%list with (line :: (bad ++ good :: rest))%list.
    rewrite choose_rejects by done. rewrite IH. csimpl.
    by rewrite <- !app_assoc.
Qed.

(** When no line of the input is such a number the loop does not return: it
    answers every line and ends with the [EOFError] of the next [input],
    which follows one last prompt. *)
Theorem choose_ends_with_the_input int dir snapshots stdin printed :
  Forall (λ line, ¬ valid_choice int (length snapshots) line) stdin →
  choose int dir snapshots stdin printed
  = (EOFError,
     (printed ++ (stdin ≫= λ line, [prompt snapshots; rejection int line])
              ++ [prompt snapshots])%list).
Proof.
  intros Hbad. revert printed. induction Hbad as [|line bad Hline _ IH]; intros printed.
  - done.
  - rewrite choose_rejects by done. rewrite IH. csimpl. by rewrite <- !app_assoc.
Qed.



Lemma choose_never_exits int dir snapshots stdin printed code printed' :
  choose int dir snapshots stdin printed ≠ (Exit code, printed').
Proof.
  revert printed. induction stdin as [|line stdin IH]; intros printed; simpl; [done|].
  repeat case_match; try apply IH; done.
Qed.

Lemma snapshot_directories_nil fs dir names :
  snapshot_directories fs dir names = []
  ↔ ∀ name, name ∈ names → isdir fs (PosixPath.join dir name) = false.
Proof.
  unfold snapshot_directories, sorted.
  rewrite <- Permutation_nil_r, merge_sort_Permutation, Permutation_nil_r. split.
  - intros Hnil name Hin. destruct (isdir fs _) eqn:Hdir; [|done].
    assert (name ∈ filter (λ d, isdir fs (PosixPath.join dir d) = true) names) as Hf
      by (by apply list_elem_of_filter).
    rewrite Hnil in Hf. by apply elem_of_nil in Hf.
  - intros Hall. apply elem_of_nil_inv. intros name [Hdir Hin]%list_elem_of_filter.
    rewrite (Hall name Hin) in Hdir. done.
Qed.

(** [select_snapshot] exits, with status 1, nothing on standard output and
    one line on standard error, exactly when the snapshot directory is
    missing, cannot be read or holds no directory; it never exits once it
    has shown the menu. *)
Theorem select_snapshot_exits int fs stdin :
  let result := select_snapshot int fs stdin in
  (no_snapshots fs →
     result.1 = Exit 1 ∧ printed result.2 = [] ∧ length (errors result.2) = 1%nat)
  ∧ (¬ no_snapshots fs → ∀ code, result.1 ≠ Exit code).
Proof.
  intros result. unfold result, select_snapshot, no_snapshots, fatal.
  destruct (isdir fs SOURCE_SNAPSHOTS_PATH) eqn:Hdir; simpl; [|naive_solver].
  destruct (listdir fs SOURCE_SNAPSHOTS_PATH) as [e|names] eqn:Hlist; [naive_solver|].
  case_bool_decide as Hnil.
  - split; [done|]. intros Hno. exfalso. apply Hno. right; right.
    exists names. split; [done|]. by apply snapshot_directories_nil.
  - split.
    + intros [?|[[? ?]|(names' & [= <-] & Hall)]]; [done..|].
      exfalso. apply Hnil. by apply snapshot_directories_nil.
    + intros _ code.
      destruct (choose _ _ _ _ _) as [r p] eqn:Hchoose. simpl. intros ->.
      by apply choose_never_exits in Hchoose.
Qed.

Lemma select_snapshot_exits_witness :
  let result := select_snapshot Examples.decimal Examples.empty_fs ["1"] in
  result.1 = Exit 1 ∧ printed result.2 = [] ∧ length (errors result.2) = 1%nat.
Proof.
  apply (select_snapshot_exits Examples.decimal Examples.empty_fs ["1"]).
  right; right. exists []. split; [reflexivity|]. intros name Hin.
  by apply elem_of_nil in Hin.
Defined.

Ltac rejected_lines :=
  repeat (apply Forall_cons_2;
          [intros (n & Hn & Hrange); vm_compute in Hn; simpl in Hrange; simplify_eq; lia|]);
  apply Forall_nil_2.

Lemma choose_skips_rejected_lines_witness :
  choose Examples.decimal "/snap" ["daily"; "weekly"] (["0"; "x"; "3"] ++ "2" :: ["1"]) []
  = (Selected (PosixPath.join "/snap" "weekly") ("snapshot(" +:+ "weekly" +:+ ")"),
     ([] ++ (["0"; "x"; "3"] ≫= λ line, [prompt ["daily"; "weekly"];
                                           rejection Examples.decimal line])
         ++ [prompt ["daily"; "weekly"]])%list).
Proof.
  apply (choose_skips_rejected_lines Examples.decimal "/snap" ["daily"; "weekly"]
           ["0"; "x"; "3"] "2" ["1"] [] 2 "weekly").
  - rejected_lines.
  - reflexivity.
  - reflexivity.
  - lia.
Defined.

Lemma choose_ends_with_the_input_witness :
  choose Examples.decimal "/snap" ["daily"; "weekly"] ["0"; "-1"; ""] []
  = (EOFError,
     ([] ++ (["0"; "-1"; ""] ≫= λ line, [prompt ["daily"; "weekly"];
                                          rejection Examples.decimal line])
         ++ [prompt ["daily"; "weekly"]])%list).
Proof.
  apply (choose_ends_with_the_input Examples.decimal "/snap" ["daily"; "weekly"]
           ["0"; "-1"; ""] []).
  rejected_lines.
Defined.


(** ** Reading a listing *)

Import Listing.

#[local] Instance is_file_dec it : Decision (is_file it).
Proof. unfold is_file. solve_decision. Defined.

Lemma add_item_file fromiso m it :
  is_file it →
  add_item fromiso m it
  = (λ dt, <[Path it := mk_file_info (Size it) dt]> m) <$> mod_time_of fromiso it.
Proof. unfold is_file, add_item. intros ->. simpl. by destruct (mod_time_of fromiso it). Qed.

Lemma add_item_directory fromiso m it : ¬ is_file it → add_item fromiso m it = Some m.
Proof. unfold is_file, add_item. by destruct (default false (IsDir it)). Qed.

Lemma add_items_app fromiso m items1 items2 :
  add_items fromiso m (items1 ++ items2)
  = add_items fromiso m items1 ≫= λ m', add_items fromiso m' items2.
Proof.
  revert m. induction items1 as [|it items1 IH]; intros m; simpl; [done|].
  destruct (add_item fromiso m it); simpl; [apply IH|done].
Qed.

(** The loop fails exactly when the time of some file does not parse. *)
Lemma add_items_fails_iff fromiso m items :
  add_items fromiso m items = None
  ↔ ∃ it, it ∈ items ∧ is_file it ∧ mod_time_of fromiso it = None.
Proof.
  revert m. induction items as [|it items IH]; intros m; simpl.
  - split; [done|]. intros (it & []%elem_of_nil & _).
  - destruct (decide (is_file it)) as [Hfile|Hdir].
    + rewrite add_item_file by done.
      destruct (mod_time_of fromiso it) as [dt|] eqn:Hdt; simpl.
      * rewrite IH. split.
        -- intros (it' & ? & ?). exists it'. split; [by right|done].
        -- intros (it' & [->|?]%elem_of_cons & Hf & Hnone); [congruence|by exists it'].
      * split; [|done]. intros _. exists it. split; [by left|done].
    + rewrite add_item_directory by done. simpl. rewrite IH. split.
      * intros (it' & ? & ?). exists it'. split; [by right|done].
      * intros (it' & [->|?]%elem_of_cons & Hf & Hnone); [done|by exists it'].
Qed.

Lemma add_items_lookup fromiso m items m' p :
  add_items fromiso m items = Some m' →
  m' !! p
  = match last (filter (λ it, is_file it ∧ Path it = p) items) with
    | Some it => mk_file_info (Size it) <$> mod_time_of fromiso it
    | None => m !! p
    end.
Proof.
  revert m m'. induction items as [|it items IH] using rev_ind; intros m m'.
  - by intros [= ->].
  - rewrite add_items_app. destruct (add_items fromiso m items) as [m1|] eqn:H1; [|done].
    simpl. rewrite filter_app, filter_cons, filter_nil.
    destruct (decide (is_file it)) as [Hfile|Hdir].
    + rewrite add_item_file by done.
      destruct (mod_time_of fromiso it) as [dt|] eqn:Hdt; [|done]. simpl.
      intros [= <-]. destruct (decide (Path it = p)) as [<-|Hp].
      * rewrite decide_True by done. rewrite last_snoc, Hdt. simpl.
        by rewrite lookup_insert_eq.
      * rewrite decide_False by naive_solver. rewrite app_nil_r.
        rewrite lookup_insert_ne by done. by apply IH.
    + rewrite add_item_directory by done. simpl. intros [= <-].
      rewrite decide_False by naive_solver. rewrite app_nil_r. by apply IH.
Qed.

(** What the loop leaves in the listing. *)
Lemma add_items_result fromiso items file_map :
  add_items fromiso ∅ items = Some file_map →
  (∀ p, p ∈ dom file_map ↔ ∃ it, it ∈ items ∧ is_file it ∧ Path it = p)
  ∧ (∀ p f, file_map !! p = Some f ↔
       ∃ it, last (filter (λ it, is_file it ∧ Path it = p) items) = Some it
             ∧ size f = Size it ∧ mod_time_of fromiso it = Some (mod_time f)).
Proof.
  intros Hrun.
  assert (∀ it, it ∈ items → is_file it → is_Some (mod_time_of fromiso it)) as Hparse.
  { intros it Hin Hfile. destruct (mod_time_of fromiso it) eqn:Hdt; [done|].
    assert (add_items fromiso ∅ items = None) as Hnone; [|congruence].
    apply add_items_fails_iff. by exists it. }
  assert (∀ p f, file_map !! p = Some f ↔
       ∃ it, last (filter (λ it, is_file it ∧ Path it = p) items) = Some it
             ∧ size f = Size it ∧ mod_time_of fromiso it = Some (mod_time f)) as Hlookup.
  { intros p f. rewrite (add_items_lookup _ _ _ _ p Hrun).
    destruct (last _) as [it|] eqn:Hlast.
    - split.
      + destruct (mod_time_of fromiso it) as [dt|] eqn:Hdt; [|done]. intros [= <-]. by exists it.
      + intros (it' & [= <-] & Hsize & ->). simpl. destruct f. simpl in *. by subst.
    - rewrite lookup_empty. split; [done|]. by intros (? & ? & _). }
  split; [|done].
  intros p. rewrite elem_of_dom. split.
  - intros [f (it & Hlast & _)%Hlookup].
    apply last_Some in Hlast as [l' Hl'].
    assert (it ∈ filter (λ it, is_file it ∧ Path it = p) items) as Hin
      by (rewrite Hl'; set_solver).
    apply list_elem_of_filter in Hin as [[? ?] ?]. by exists it.
  - intros (it & Hin & Hfile & Hp).
    destruct (last (filter (λ it, is_file it ∧ Path it = p) items)) as [it'|] eqn:Hlast.
    + pose proof Hlast as Hlast'. apply last_Some in Hlast' as [l' Hl'].
      assert (it' ∈ filter (λ it, is_file it ∧ Path it = p) items) as Hin'
        by (rewrite Hl'; set_solver).
      apply list_elem_of_filter in Hin' as [[Hf' _] Hi'].
      destruct (Hparse it' Hi' Hf') as [dt Hdt].
      exists (mk_file_info (Size it') dt). apply Hlookup. by exists it'.
    + apply last_None in Hlast.
      assert (it ∈ filter (λ it, is_file it ∧ Path it = p) items) as Hin'
        by (by apply list_elem_of_filter).
      rewrite Hlast in Hin'. by apply elem_of_nil in Hin'.
Qed.

Lemma add_item_same_to_the_second fromiso m a b :
  same_to_the_second a b → add_item fromiso m a = add_item fromiso m b.
Proof.
  intros (Hp & Hs & Hd & Ht). unfold add_item, mod_time_of. rewrite Hp, Hs, Hd.
  destruct (split "." (ModTime a)), (split "." (ModTime b)); simpl in Ht; by simplify_eq.
Qed.

Lemma add_items_same_to_the_second fromiso m items1 items2 :
  Forall2 same_to_the_second items1 items2 →
  add_items fromiso m items1 = add_items fromiso m items2.
Proof.
  intros Hsame. revert m. induction Hsame as [|a b l1 l2 Hab _ IH]; intros m; [done|].
  simpl. rewrite (add_item_same_to_the_second _ _ a b Hab).
  destruct (add_item fromiso m b); simpl; [apply IH|done].
Qed.

Lemma get_file_listing_returns run loads fromiso path name excludes file_map printed errs :
  get_file_listing run loads fromiso path name excludes = (inr file_map, printed, errs) →
  let proc := run (lsjson_command path excludes) in
  returncode proc = 0
  ∧ ∃ items, loads (stdout_text proc) = Some items
             ∧ add_items fromiso ∅ items = Some file_map
             ∧ last printed
               = Some ("INFO: Found " +:+ str_of_Z (Z.of_nat (stdpp.base.size file_map))
                       +:+ " files in " +:+ name +:+ ".")
             ∧ errs = [].
Proof.
  unfold get_file_listing.
  destruct (Z.eqb_spec (returncode (run (lsjson_command path excludes))) 0)
    as [Hrc|Hrc]; simpl; [|done].
  destruct (loads _) as [items|]; [|done].
  destruct (add_items fromiso ∅ items) as [m|] eqn:Hm; [|done].
  intros [= <- <- <-]. split; [done|]. by exists items.
Qed.

(** A returned listing holds exactly the paths of the objects that are not
    directories, each with the size and the time, cut at the first ['.'],
    of the last object of that path; the count it reports is the number of
    these paths. *)
Theorem get_file_listing_result run loads fromiso path name excludes file_map printed errs :
  get_file_listing run loads fromiso path name excludes = (inr file_map, printed, errs) →
  ∃ items,
    loads (stdout_text (run (lsjson_command path excludes))) = Some items
    ∧ (∀ p, p ∈ dom file_map ↔ ∃ it, it ∈ items ∧ is_file it ∧ Path it = p)
    ∧ (∀ p f, file_map !! p = Some f ↔
         ∃ it, last (filter (λ it, is_file it ∧ Path it = p) items) = Some it
               ∧ size f = Size it ∧ mod_time_of fromiso it = Some (mod_time f))
    ∧ last printed
      = Some ("INFO: Found " +:+ str_of_Z (Z.of_nat (stdpp.base.size file_map))
              +:+ " files in " +:+ name +:+ ".")
    ∧ errs = [].
Proof.
  intros (_ & items & Hparsed & Hitems & Hlast & Herrs)%get_file_listing_returns.
  exists items. split; [done|].
  destruct (add_items_result fromiso items file_map Hitems) as [Hdom Hlookup].
  done.
Qed.

Lemma get_file_listing_result_witness :
  let file_map : file_map :=
    <["foo/a.txt" := mk_file_info 200 (mk_datetime 2024 1 2 3 4 6)]> ∅ in
  let result :=
    get_file_listing Examples.rclone Examples.loads Examples.iso_seconds
      "/mnt/backup" "coldstorage" ["*.partial"] in
  ∃ items,
    Examples.loads (stdout_text (Examples.rclone (lsjson_command "/mnt/backup" ["*.partial"])))
    = Some items
    ∧ (∀ p, p ∈ dom file_map ↔ ∃ it, it ∈ items ∧ is_file it ∧ Path it = p)
    ∧ (∀ p f, file_map !! p = Some f ↔
         ∃ it, last (filter (λ it, is_file it ∧ Path it = p) items) = Some it
               ∧ size f = Size it
               ∧ mod_time_of Examples.iso_seconds it = Some (mod_time f))
    ∧ last result.1.2
      = Some ("INFO: Found " +:+ str_of_Z (Z.of_nat (stdpp.base.size file_map))
              +:+ " files in " +:+ "coldstorage" +:+ ".")
    ∧ result.2 = [].
Proof.
  apply (get_file_listing_result Examples.rclone Examples.loads Examples.iso_seconds
           "/mnt/backup" "coldstorage" ["*.partial"]).
  vm_compute. reflexivity.
Defined.

(** The function ends with the uncaught [ValueError], and not with the
    message and exit status of its other failures, exactly when [rclone]
    succeeded, its output was read, and the time of some object that is not
    a directory does not parse. *)
Theorem get_file_listing_value_error run loads fromiso path name excludes :
  (get_file_listing run loads fromiso path name excludes).1.1 = inl ValueError
  ↔ returncode (run (lsjson_command path excludes)) = 0
    ∧ ∃ items, loads (stdout_text (run (lsjson_command path excludes))) = Some items
               ∧ ∃ it, it ∈ items ∧ is_file it ∧ mod_time_of fromiso it = None.
Proof.
  unfold get_file_listing.
  destruct (Z.eqb_spec (returncode (run (lsjson_command path excludes))) 0)
    as [Hrc|Hrc]; simpl; [|naive_solver].
  destruct (loads _) as [items|]; simpl; [|naive_solver].
  destruct (add_items fromiso ∅ items) as [m|] eqn:Hm; simpl.
  - split; [done|]. intros (_ & items' & [= <-] & Hbad).
    apply (add_items_fails_iff fromiso ∅) in Hbad. congruence.
  - split; [|done]. intros _. split; [done|]. exists items. split; [done|].
    by apply (add_items_fails_iff fromiso ∅).
Qed.

(** Two listings by [rclone] whose objects differ only after the first
    ['.'] of their times end the same way, and when both are returned they
    are equal and compare to an empty change set. *)
Theorem sub_second_differences_are_not_seen
    run loads fromiso set_iter path1 name1 excludes1 path2 name2 excludes2 items1 items2 :
  set_iteration set_iter →
  let proc1 := run (lsjson_command path1 excludes1) in
  let proc2 := run (lsjson_command path2 excludes2) in
  returncode proc1 = returncode proc2 →
  loads (stdout_text proc1) = Some items1 →
  loads (stdout_text proc2) = Some items2 →
  Forall2 same_to_the_second items1 items2 →
  (get_file_listing run loads fromiso path1 name1 excludes1).1.1
  = (get_file_listing run loads fromiso path2 name2 excludes2).1.1
  ∧ ∀ m1 m2,
      (get_file_listing run loads fromiso path1 name1 excludes1).1.1 = inr m1 →
      (get_file_listing run loads fromiso path2 name2 excludes2).1.1 = inr m2 →
      m1 = m2 ∧ compare_listings set_iter m1 m2 = ∅.
Proof.
  intros Hit proc1 proc2 Hrc H1 H2 Hsame.
  pose proof (add_items_same_to_the_second fromiso ∅ _ _ Hsame) as Heq.
  assert ((get_file_listing run loads fromiso path1 name1 excludes1).1.1
          = (get_file_listing run loads fromiso path2 name2 excludes2).1.1) as Hends.
  { unfold get_file_listing. fold proc1 proc2. rewrite Hrc, H1, H2, Heq.
    destruct (negb _); [done|]. by destruct (add_items fromiso ∅ items2). }
  split; [done|]. intros m1 m2 Hm1 Hm2.
  assert (m1 = m2) as -> by congruence.
  split; [done|]. by apply compare_listings_same.
Qed.

Lemma sub_second_differences_are_not_seen_witness :
  (get_file_listing Examples.rclone Examples.loads Examples.iso_seconds
     "/mnt/backup" "coldstorage" []).1.1
  = (get_file_listing Examples.rclone Examples.loads Examples.iso_seconds
       "NAS-ssh:/mnt/user" "nas" []).1.1
  ∧ ∀ m1 m2,
      (get_file_listing Examples.rclone Examples.loads Examples.iso_seconds
         "/mnt/backup" "coldstorage" []).1.1 = inr m1 →
      (get_file_listing Examples.rclone Examples.loads Examples.iso_seconds
         "NAS-ssh:/mnt/user" "nas" []).1.1 = inr m2 →
      m1 = m2 ∧ compare_listings elements m1 m2 = ∅.
Proof.
  apply (sub_second_differences_are_not_seen Examples.rclone Examples.loads
           Examples.iso_seconds elements "/mnt/backup" "coldstorage" []
           "NAS-ssh:/mnt/user" "nas" [] Examples.objects Examples.objects_later).
  - intros X. reflexivity.
  - reflexivity.
  - reflexivity.
  - reflexivity.
  - repeat constructor.
Defined.

(** ** Listing the top-level directories *)

Lemma startswith_lstrip_char c s : startswith_char c (lstrip_char c s) = false.
Proof.
  induction s as [|a r IH]; simpl; [done|].
  destruct (Ascii.eqb a c) eqn:Ha; [done|]. simpl. by rewrite Ha.
Qed.

Lemma endswith_rstrip_char c s : endswith_char c (rstrip_char c s) = false.
Proof.
  induction s as [|a r IH]; simpl; [done|].
  destruct (rstrip_char c r) as [|b r'] eqn:Hr.
  - destruct (Ascii.eqb a c) eqn:Ha; simpl; [done|by rewrite Ha].
  - simpl in *. done.
Qed.

Lemma startswith_rstrip_char c s :
  startswith_char c s = false → startswith_char c (rstrip_char c s) = false.
Proof.
  destruct s as [|a r]; simpl; [done|]. intros Ha.
  destruct (rstrip_char c r); [by rewrite Ha|done].
Qed.

Lemma contains_rstrip_char x c s :
  contains_char x s = false → contains_char x (rstrip_char c s) = false.
Proof.
  induction s as [|a r IH]; simpl; [done|].
  destruct (Ascii.eqb a x) eqn:Ha; [done|]. intros Hr. specialize (IH Hr).
  destruct (rstrip_char c r) as [|b r'].
  - destruct (Ascii.eqb a c); simpl; [done|by rewrite Ha].
  - simpl in *. by rewrite Ha.
Qed.

Lemma contains_lstrip_char x c s :
  contains_char x s = false → contains_char x (lstrip_char c s) = false.
Proof.
  induction s as [|a r IH]; simpl; [done|].
  destruct (Ascii.eqb a x) eqn:Ha; [done|]. intros Hr.
  destruct (Ascii.eqb a c); [by apply IH|]. simpl. by rewrite Ha.
Qed.

Lemma split_pieces sep s piece :
  piece ∈ split sep s → contains_char sep piece = false.
Proof.
  revert piece. induction s as [|a r IH]; intros piece; simpl.
  - by intros ->%list_elem_of_singleton.
  - destruct (Ascii.eqb a sep) eqn:Ha.
    + intros [->|Hin]%elem_of_cons; [done|by apply IH].
    + destruct (split sep r) as [|h t].
      * intros ->%list_elem_of_singleton. simpl. by rewrite Ha.
      * intros [->|Hin]%elem_of_cons.
        -- simpl. rewrite Ha. apply IH. by left.
        -- apply IH. by right.
Qed.

(** When [get_tlds] returns, [rclone] succeeded and no name it returns
    begins or ends with a ['/'] or holds a line feed, whatever [rclone]
    wrote. *)
Theorem get_tlds_names run strip path name excludes names printed errs :
  get_tlds run strip path name excludes = (inr names, printed, errs) →
  returncode (run (lsf_command path excludes)) = 0
  ∧ ∀ d, d ∈ names →
      startswith_char "/" d = false
      ∧ endswith_char "/" d = false
      ∧ contains_char LF d = false.
Proof.
  unfold get_tlds.
  destruct (Z.eqb_spec (returncode (run (lsf_command path excludes))) 0)
    as [Hrc|Hrc]; simpl; [|done].
  intros [= <- _ _]. split; [done|].
  intros d (line & -> & [_ Hline]%list_elem_of_filter)%list_elem_of_fmap.
  unfold strip_char. split; [|split].
  - apply startswith_rstrip_char, startswith_lstrip_char.
  - apply endswith_rstrip_char.
  - apply contains_rstrip_char, contains_lstrip_char. by eapply split_pieces.
Qed.

Lemma get_tlds_names_witness :
  returncode (Examples.rclone_lsf (lsf_command "/mnt/backup" [])) = 0
  ∧ ∀ d, d ∈ ["MEDIA"; "ISOs"; ""] →
      startswith_char "/" d = false
      ∧ endswith_char "/" d = false
      ∧ contains_char LF d = false.
Proof.
  apply (get_tlds_names Examples.rclone_lsf (λ s, s) "/mnt/backup" "coldstorage" []
           ["MEDIA"; "ISOs"; ""]
           ["INFO: Getting TLD list from coldstorage (/mnt/backup)..."] []).
  vm_compute. reflexivity.
Defined.
